(** * Verification of the quake2-vs2015 DX12 renderer core

    A shallow embedding of the parts of the renderer and of the light baker
    that the specification makes checkable statements about:

    - [BufferAllocator]   : ref_dx12/dx_buffer.h, the free-list allocator;
    - [Preprocessor]      : FrameGraphBuilder::PreprocessPassFiles;
    - [FrameGraphArgs]    : _AddRootArg, the routing of root arguments;
    - [LightBaker]        : PreBake, bake point generation, distance falloff,
                            direct light gathering, path tracing loop and
                            the baked-data file;
    - [BufferFacts]       : the allocating and freeing paths of the
                            allocator, and HandlerBuffer;
    - [StaticObject]      : StaticObject::GenerateBoundingBox;
    - [SurfaceLight]      : SurfaceLight::Init and CalculateIrradiance;
    - [Reflectivity]      : SurfaceLight::CalculateReflectivity;
    - [PreprocessorFacts] : the edge cases of PreprocessPassFiles;
    - [ResourceValidation]: FrameGraphBuilder::ValidateResources;
    - [InputLayout]       : FrameGraphBuilder::GenerateInputLayout;
    - [BakePointFacts]    : StrToBakingMode and the grid of bake points;
    - [LightSamplingFacts]: triangle sampling, the bounds of the gathered
                            direct light, the sample generators and the
                            throughput of a bounce.

    Conventions.  C++ [int] values are integers in [Z]; where the source
    converts between [size_t] and [int] the conversion is written out.
    [std::vector] and [std::list] are Rocq lists, indexed with stdpp's lookup
    and insert.  [float] values are idealised as exact numbers: rationals
    ([Q]) where the code only uses field operations, comparisons and
    rounding to an integer, reals ([R]) where it takes square roots. *)

From Stdlib Require Import ZArith QArith Qround Qminmax Qabs Reals Lra Lia Psatz.
From Stdlib Require Import Ascii String.
From Stdlib Require Floats.SpecFloat.
From stdpp Require Import base tactics option list strings gmap.

#[local] Open Scope Z_scope.

(** ** ref_dx12/dx_buffer.h : [BufferAllocator<SIZE>] *)
Module BufferAllocator.

(** [struct Allocation { int offset; int size; }] *)
Record Allocation : Type := MkAllocation { offset : Z; size : Z }.

#[global] Instance Allocation_eq_dec : EqDecision Allocation.
Proof. solve_decision. Defined.

Definition INVALID_OFFSET : Z := -1.

Section Allocator.

(** The template parameter [SIZE]. *)
Variable SIZE : Z.

(** First block of [Allocate], "Check before existing allocations":
    [nextOffset] is [SIZE] for an empty list and the first offset otherwise;
    when the gap is large enough the block does [push_front({0, size})] and
    falls through (the block has no [return]). *)
Definition check_before (sz : Z) (allocations : list Allocation)
  : list Allocation :=
  let nextOffset :=
    match allocations with
    | [] => SIZE
    | a :: _ => offset a
    end in
  if nextOffset >=? sz
  then MkAllocation 0 sz :: allocations
  else allocations.

(** Second block, "Check between existing allocations": the [for] loop walks
    [currAllocIt]/[nextAllocIt] over the [numIntervals = size() - 1] adjacent
    pairs, [i] counting them; it yields the position of [currAllocIt] and
    [currAllocEnd] for the first gap that fits.  For an empty list
    [size() - 1] wraps in [size_t] and converts to the [int] -1, so the loop
    body does not run. *)
Fixpoint find_interval (sz : Z) (l : list Allocation) (i : nat)
  : option (nat * Z) :=
  match l with
  | curr :: (next :: _) as tl =>
      let currAllocEnd := offset curr + size curr in
      if offset next - currAllocEnd >=? sz
      then Some (i, currAllocEnd)
      else find_interval sz tl (S i)
  | _ => None
  end.

(** [std::list::insert(pos, v)] puts [v] in front of the element [pos]
    points at. *)
Definition list_insert_before {A} (i : nat) (v : A) (l : list A) : list A :=
  take i l ++ v :: drop i l.

(** [int Allocate(int size)]: the returned offset and the new list. *)
Definition Allocate (sz : Z) (allocations0 : list Allocation)
  : Z * list Allocation :=
  let allocations := check_before sz allocations0 in
  match find_interval sz allocations 0 with
  | Some (i, currAllocEnd) =>
      (* allocations.insert(currAllocIt, {currAllocEnd, size}) *)
      (currAllocEnd,
       list_insert_before i (MkAllocation currAllocEnd sz) allocations)
  | None =>
      match last allocations with
      | Some lastAlloc =>
          let lastAllocEnd := offset lastAlloc + size lastAlloc in
          if SIZE - lastAllocEnd >=? sz
          then (lastAllocEnd, allocations ++ [MkAllocation lastAllocEnd sz])
          else (INVALID_OFFSET, allocations)
      | None => (INVALID_OFFSET, allocations)
      end
  end.

(** [void Delete(int offset)]: erase the first allocation with that offset,
    leave the list alone when there is none. *)
Fixpoint Delete (off : Z) (allocations : list Allocation)
  : list Allocation :=
  match allocations with
  | [] => []
  | a :: tl => if offset a =? off then tl else a :: Delete off tl
  end.

(** The allocator's intended invariant: sorted by offset, pairwise disjoint
    ranges, all inside [0, SIZE). *)
Fixpoint well_formed_from (lo : Z) (l : list Allocation) : Prop :=
  match l with
  | [] => lo <= SIZE
  | a :: tl => lo <= offset a /\ 0 < size a
               /\ well_formed_from (offset a + size a) tl
  end.

Definition well_formed (l : list Allocation) : Prop := well_formed_from 0 l.

Fixpoint well_formed_fromb (lo : Z) (l : list Allocation) : bool :=
  match l with
  | [] => lo <=? SIZE
  | a :: tl => (lo <=? offset a) && (0 <? size a)
               && well_formed_fromb (offset a + size a) tl
  end.

Definition well_formedb (l : list Allocation) : bool := well_formed_fromb 0 l.

End Allocator.

(** On a fresh allocator with room for two blocks, the first block pushes
    [{0, size}] and the last block then appends [{size, size}]: two
    allocations are recorded and the second one's offset is returned. *)
Lemma Allocate_empty_two (SIZE sz : Z) :
  0 < sz -> 2 * sz <= SIZE ->
  Allocate SIZE sz [] = (sz, [MkAllocation 0 sz; MkAllocation sz sz]).
Proof.
  intros Hpos Hfit. unfold Allocate, check_before. simpl.
  destruct (Z.geb_spec SIZE sz) as [_|?]; [|lia]. simpl.
  destruct (Z.geb_spec (SIZE - (0 + sz)) sz) as [_|?]; [|lia].
  reflexivity.
Qed.

Lemma Allocate_empty_two_witness :
  0 < 10 /\ 2 * 10 <= 100 /\
  Allocate 100 10 [] = (10, [MkAllocation 0 10; MkAllocation 10 10]).
Proof.
  split; [lia|]. split; [lia|]. apply (Allocate_empty_two 100 10); lia.
Defined.

(** C10 (code defect).  The claim says one [Allocate] records exactly one
    allocation and returns its offset.  On a fresh [BufferAllocator<100>],
    [Allocate(10)] records the two allocations [{0,10}] and [{10,10}] (the
    list grows by two) and returns 10, the offset of the second. *)
Theorem Allocate_fresh_records_two :
  Allocate 100 10 [] = (10, [MkAllocation 0 10; MkAllocation 10 10])
  /\ length (snd (Allocate 100 10 [])) = 2%nat.
Proof. split; reflexivity. Qed.

(** The in-between block inserts in front of [currAllocIt], not behind it:
    with [{0,10}] and [{50,10}] recorded, [Allocate(10)] returns 10 and leaves
    the list [{10,10}; {0,10}; {50,10}], which is not sorted by offset. *)
Lemma Allocate_between_breaks_order :
  Allocate 100 10 [MkAllocation 0 10; MkAllocation 50 10]
  = (10, [MkAllocation 10 10; MkAllocation 0 10; MkAllocation 50 10])
  /\ well_formedb 100 [MkAllocation 0 10; MkAllocation 50 10] = true
  /\ well_formedb 100
       (snd (Allocate 100 10 [MkAllocation 0 10; MkAllocation 50 10]))
     = false.
Proof. repeat split; reflexivity. Qed.

(** After that, the next [Allocate(10)] sees a first offset of 10 and pushes a
    second [{0,10}]: two recorded ranges overlap. *)
Lemma Allocate_then_overlap :
  snd (Allocate 100 10
         (snd (Allocate 100 10 [MkAllocation 0 10; MkAllocation 50 10])))
  = [MkAllocation 0 10; MkAllocation 10 10; MkAllocation 10 10;
     MkAllocation 0 10; MkAllocation 50 10].
Proof. reflexivity. Qed.

Lemma well_formedb_spec (SIZE : Z) (l : list Allocation) :
  well_formedb SIZE l = true <-> well_formed SIZE l.
Proof.
  unfold well_formedb, well_formed. generalize 0.
  induction l as [|a tl IH]; intros lo; simpl.
  - apply Z.leb_le.
  - rewrite !andb_true_iff, Z.leb_le, Z.ltb_lt, IH. tauto.
Qed.

(** Raising the lower bound's slack keeps a list well formed. *)
Lemma well_formed_from_lower (SIZE lo lo' : Z) (l : list Allocation) :
  lo' <= lo -> well_formed_from SIZE lo l -> well_formed_from SIZE lo' l.
Proof. destruct l as [|a tl]; simpl; intros; intuition lia. Qed.

Lemma well_formed_from_bound (SIZE lo : Z) (l : list Allocation) :
  well_formed_from SIZE lo l -> lo <= SIZE.
Proof.
  revert lo. induction l as [|a tl IH]; simpl; intros lo H; [assumption|].
  destruct H as (H1 & H2 & H3). apply IH in H3. lia.
Qed.

(** [Delete] keeps the invariant: erasing a range cannot create an overlap. *)
Lemma Delete_well_formed_from (SIZE lo off : Z) (l : list Allocation) :
  well_formed_from SIZE lo l -> well_formed_from SIZE lo (Delete off l).
Proof.
  revert lo. induction l as [|a tl IH]; simpl; intros lo H; [assumption|].
  destruct H as (H1 & H2 & H3).
  destruct (offset a =? off).
  - apply well_formed_from_lower with (lo := offset a + size a); [lia|done].
  - simpl. auto.
Qed.

End BufferAllocator.

(** ** ref_dx12/dx_framegraphbuilder.cpp : [PreprocessPassFiles] *)
Module Preprocessor.

(** [Parsing::PreprocessorContext::Include]: the included file's name and the
    directive's byte position and length in the pass file. *)
Record Include : Type := MkInclude { name : string; pos : Z; len : Z }.

(** Conversion of an [int] to [size_t], as the arguments of [substr] and the
    comparison with [size()] undergo it. *)
Definition to_size_t (z : Z) : Z := z mod 2 ^ 64.

Definition npos : Z := 2 ^ 64 - 1.

Definition strlen (s : string) : Z := Z.of_nat (String.length s).

(** [std::string::substr(pos, count)]: throws [std::out_of_range] ([None])
    when [pos > size()], and otherwise yields the [min(count, size() - pos)]
    characters from [pos] on. *)
Definition substr (s : string) (p count : Z) : option string :=
  let p := to_size_t p in
  let count := to_size_t count in
  if p >? strlen s then None
  else Some (substring (Z.to_nat p)
                       (Z.to_nat (Z.min count (strlen s - p))) s).

(** [std::sort] with the comparator [rv.pos < lv.pos], as an insertion sort. *)
Fixpoint insert_by_pos (i : Include) (l : list Include) : list Include :=
  match l with
  | [] => [i]
  | j :: tl => if pos i <? pos j then i :: l else j :: insert_by_pos i tl
  end.

Definition sort_includes (l : list Include) : list Include :=
  foldr insert_by_pos [] l.

Section Files.

(** The file system, and the path the builder derives from a file name. *)
Variable ReadFile : string -> string.
Variable GenPathToFile : string -> string.
Variable FRAMEGRAPH_DIR : string.

Definition included (i : Include) : string :=
  ReadFile (GenPathToFile (FRAMEGRAPH_DIR +:+ "/" +:+ name i)).

(** The inner [for] loop over the sorted includes; the state is
    [processedFile] and [currentPos]. *)
Fixpoint include_loop (currentFile : string) (includes : list Include)
    (processedFile : string) (currentPos : Z) : option (string * Z) :=
  match includes with
  | [] => Some (processedFile, currentPos)
  | include :: rest =>
      (* processedFile += currentFile.substr(currentPos, include.pos - currentPos) *)
      chunk ← substr currentFile currentPos (pos include - currentPos);
      (* currentPos += include.pos + include.len *)
      let currentPos' := currentPos + (pos include + len include) in
      (* processedFile += ReadFile(...) *)
      include_loop currentFile rest
        (processedFile +:+ chunk +:+ included include) currentPos'
  end.

(** The body of the outer loop for one pass file: the new content of
    [currentFile], or [None] when [substr] throws.  The [assert] on
    [currentPos] is compiled out of release builds and changes no state. *)
Definition PreprocessPassFile (currentFile : string)
    (includes : list Include) : option string :=
  '(processedFile, currentPos) ←
     include_loop currentFile (sort_includes includes) "" 0;
  if decide (to_size_t (currentPos + 1) ≠ strlen currentFile)
  then tail ← substr currentFile currentPos npos;
       Some (processedFile +:+ tail)
  else Some processedFile.

(** [PreprocessPassFiles]: every entry of [context.includes], in the map's
    iteration order, rewrites the pass file of the same name
    ([passFiles[name]] is the empty string when there is none). *)
Fixpoint PreprocessPassFiles (passFiles : gmap string string)
    (includes : list (string * list Include)) : option (gmap string string) :=
  match includes with
  | [] => Some passFiles
  | (file, incs) :: rest =>
      let currentFile := default "" (passFiles !! file) in
      processed ← PreprocessPassFile currentFile incs;
      PreprocessPassFiles (<[file := processed]> passFiles) rest
  end.

(** What the specification asks for: the file text with each directive's byte
    range replaced by the included file, every other byte kept.  [cur] is
    the position up to which the file has been consumed. *)
Fixpoint spec_splice (file : string) (cur : nat) (includes : list Include)
  : string :=
  match includes with
  | [] => substring cur (String.length file - cur) file
  | i :: rest =>
      substring cur (Z.to_nat (pos i) - cur) file
      +:+ included i
      +:+ spec_splice file (Z.to_nat (pos i + len i)) rest
  end.

Definition spec_PreprocessPassFile (file : string) (includes : list Include)
  : string :=
  spec_splice file 0 (sort_includes includes).

End Files.

(** *** Properties *)

Lemma to_size_t_small (z : Z) : 0 <= z < 2 ^ 64 -> to_size_t z = z.
Proof. intros H. unfold to_size_t. apply Z.mod_small. exact H. Qed.

Lemma substr_in_range (s : string) (p count : Z) :
  0 <= p <= strlen s -> 0 <= count < 2 ^ 64 -> strlen s < 2 ^ 64 ->
  substr s p count
  = Some (substring (Z.to_nat p) (Z.to_nat (Z.min count (strlen s - p))) s).
Proof.
  intros Hp Hc Hs. unfold substr.
  rewrite (to_size_t_small p), (to_size_t_small count) by lia.
  destruct (Z.gtb_spec p (strlen s)) as [?|_]; [lia|reflexivity].
Qed.

Lemma sort_includes_single (i : Include) : sort_includes [i] = [i].
Proof. reflexivity. Qed.

Lemma append_empty_l (s : string) : "" +:+ s = s.
Proof. reflexivity. Qed.

Lemma append_assoc (s1 s2 s3 : string) :
  (s1 +:+ s2) +:+ s3 = s1 +:+ (s2 +:+ s3).
Proof.
  induction s1 as [|c s1 IH]; [reflexivity|].
  change (String c ((s1 +:+ s2) +:+ s3) = String c (s1 +:+ (s2 +:+ s3))).
  f_equal. exact IH.
Qed.

(** With one directive that is followed by at least two more bytes, the
    output is the text before the directive, the included file, and the text
    after the directive: the loop and the reference agree. *)
Lemma PreprocessPassFile_single (ReadFile GenPathToFile : string -> string)
    (DIR file : string) (i : Include) :
  0 <= pos i -> 0 <= len i ->
  pos i + len i + 1 < strlen file -> strlen file < 2 ^ 64 ->
  PreprocessPassFile ReadFile GenPathToFile DIR file [i]
  = Some (spec_PreprocessPassFile ReadFile GenPathToFile DIR file [i]).
Proof.
  intros Hp Hl Hlt Hsz.
  assert (Hlen : 0 <= strlen file) by (unfold strlen; lia).
  unfold PreprocessPassFile, spec_PreprocessPassFile.
  rewrite sort_includes_single. simpl.
  rewrite substr_in_range by lia. simpl.
  rewrite !Z.add_0_l, !append_empty_l.
  rewrite (to_size_t_small (pos i + len i + 1)) by lia.
  destruct (decide (pos i + len i + 1 ≠ strlen file)) as [_|Heq]; [|lia].
  rewrite substr_in_range by (unfold npos; lia). simpl. f_equal.
  rewrite append_assoc.
  unfold strlen in *.
  rewrite !Z.sub_0_r, Z.min_l, Nat.sub_0_r by lia.
  rewrite Z.min_r by (unfold npos; lia).
  replace (Z.to_nat (Z.of_nat (String.length file) - (pos i + len i)))
    with (String.length file - Z.to_nat (pos i + len i))%nat by lia.
  reflexivity.
Qed.

Lemma PreprocessPassFile_single_witness :
  PreprocessPassFile (λ _, "<A>") (λ s, s) "fg" "pre;#include a.h;post"
                     [MkInclude "a.h" 4 12]
  = Some "pre;<A>;post".
Proof.
  rewrite (PreprocessPassFile_single (λ _, "<A>") (λ s, s) "fg"
             "pre;#include a.h;post" (MkInclude "a.h" 4 12));
    [reflexivity | simpl; lia | simpl; lia
     | vm_compute; reflexivity | vm_compute; reflexivity].
Defined.

(** A small file system for the examples: two include files. *)
Definition demo_ReadFile (path : string) : string :=
  if decide (path = "fg/a.h") then "<A>"
  else if decide (path = "fg/b.h") then "<B>"
  else "".

Definition demo_pass : string :=
  "pre;#include a.h;mid;#include b.h;tail of the pass file".

Definition demo_includes : list Include :=
  [MkInclude "b.h" 21 12; MkInclude "a.h" 4 12].

(** C5 (code defect).  The claim says the output is the file text with each
    directive replaced and every other byte kept, for any number of includes.
    With two directives, [currentPos += include.pos + include.len] adds the
    second directive's end to the first one's instead of moving to it:
    [currentPos] ends at 16 + 33 = 49 instead of 33, and the 16 bytes
    [";tail of the pas"] after the second directive are lost. *)
Theorem PreprocessPassFile_two_includes_loses_text :
  PreprocessPassFile demo_ReadFile (λ s, s) "fg" demo_pass demo_includes
  = Some "pre;<A>;mid;<B>s file"
  /\ spec_PreprocessPassFile demo_ReadFile (λ s, s) "fg" demo_pass
       demo_includes
     = "pre;<A>;mid;<B>;tail of the pass file"
  /\ include_loop demo_ReadFile (λ s, s) "fg" demo_pass
       (sort_includes demo_includes) "" 0
     = Some ("pre;<A>;mid;<B>", 49).
Proof. repeat split; vm_compute; reflexivity. Qed.

(** With a shorter tail the wrong [currentPos] is past the end of the file
    and the final [substr] throws [std::out_of_range]. *)
Lemma PreprocessPassFile_two_includes_throws :
  PreprocessPassFile demo_ReadFile (λ s, s) "fg"
    "pre;#include a.h;mid;#include b.h;tail" demo_includes = None.
Proof. vm_compute. reflexivity. Qed.

(** With one directive followed by exactly one byte, the guard
    [currentPos + 1 != currentFile.size()] skips the tail: the last byte of
    the file is dropped. *)
Lemma PreprocessPassFile_drops_last_byte :
  PreprocessPassFile demo_ReadFile (λ s, s) "fg" "pre;#include a.h;"
    [MkInclude "a.h" 4 12] = Some "pre;<A>"
  /\ spec_PreprocessPassFile demo_ReadFile (λ s, s) "fg" "pre;#include a.h;"
       [MkInclude "a.h" 4 12] = "pre;<A>;".
Proof. split; vm_compute; reflexivity. Qed.

(** The whole pass over the map of pass files, on the two-directive file. *)
Lemma PreprocessPassFiles_demo :
  PreprocessPassFiles demo_ReadFile (λ s, s) "fg"
    {[ "demo.pass" := demo_pass ]} [("demo.pass", demo_includes)]
  = Some {[ "demo.pass" := "pre;<A>;mid;<B>s file" ]}.
Proof.
  simpl. change (default "" _) with demo_pass.
  replace (PreprocessPassFile demo_ReadFile (λ s, s) "fg" demo_pass
             demo_includes)
    with (Some "pre;<A>;mid;<B>s file") by (vm_compute; reflexivity).
  cbn [mbind option_bind]. f_equal.
Qed.

End Preprocessor.

(** ** ref_dx12/dx_framegraphbuilder.cpp : [_AddRootArg] *)
Module FrameGraphArgs.

(** [Parsing::ResourceBindFrequency], [Parsing::ResourceScope],
    [Parsing::PassInputType]. *)
Inductive ResourceBindFrequency : Type := PerObject | PerPass.
Inductive ResourceScope : Type := Local | Global.
Inductive PassInputType : Type := UI | Static | Dynamic | Particles.

#[global] Instance ResourceBindFrequency_eq_dec : EqDecision ResourceBindFrequency.
Proof. solve_decision. Defined.
#[global] Instance ResourceScope_eq_dec : EqDecision ResourceScope.
Proof. solve_decision. Defined.
#[global] Instance PassInputType_eq_dec : EqDecision PassInputType.
Proof. solve_decision. Defined.

(** [Const::INVALID_INDEX] *)
Definition INVALID_INDEX : Z := -1.

Section RootArgs.

(** [RootArg::Arg_t], the variant of root arguments, and the comparison
    [RootArg::FindArg] uses on it. *)
Variable Arg_t : Type.
Variable arg_equal : Arg_t -> Arg_t -> bool.

(** Modelled from the spec: [RootArg::FindArg] (its source file is not part
    of the sources at hand).  "Argument deduplication compares by
    scope-invariant identity": the index of the first stored argument that
    the comparison identifies with [arg], [Const::INVALID_INDEX] when there
    is none. *)
Fixpoint FindArg_from (i : Z) (args : list Arg_t) (arg : Arg_t) : Z :=
  match args with
  | [] => INVALID_INDEX
  | a :: tl => if arg_equal a arg then i else FindArg_from (i + 1) tl arg
  end.

Definition FindArg (args : list Arg_t) (arg : Arg_t) : Z :=
  FindArg_from 0 args arg.

(** The fields of [PassParameters] that [_AddRootArg] touches. *)
Record PassParameters : Type := MkPassParameters {
  input : PassInputType;
  perObjectLocalRootArgsTemplate : list Arg_t;
  passLocalRootArgs : list Arg_t;
  passGlobalRootArgsIndices : list Z;
  perObjGlobalRootArgsIndicesTemplate : list Z
}.

(** [FrameGraph::PerObjectGlobalTemplate_t], a tuple with one vector of
    arguments per input type, read with [std::get<INPUT_TYPE>]. *)
Definition PerObjectGlobalTemplate_t : Type := PassInputType -> list Arg_t.

Definition set_template (t : PerObjectGlobalTemplate_t) (i : PassInputType)
    (v : list Arg_t) : PerObjectGlobalTemplate_t :=
  fun j => if decide (j = i) then v else t j.

Record FrameGraph : Type := MkFrameGraph {
  passes : list PassParameters;
  passesGlobalRes : list Arg_t;
  objGlobalResTemplate : PerObjectGlobalTemplate_t
}.

(** The Global PerPass branch: look the argument up in [passesGlobalRes];
    push it and record the new last index when it is not there, record the
    found index otherwise. *)
Definition add_global_index (indices : list Z) (pool : list Arg_t)
    (arg : Arg_t) : list Z * list Arg_t :=
  let resIndex := FindArg pool arg in
  if resIndex =? INVALID_INDEX
  then let pool' := pool ++ [arg] in
       (indices ++ [Z.of_nat (length pool') - 1], pool')
  else (indices ++ [resIndex], pool).

(** Modelled from the spec: [PassParameters::AddGlobalPerObjectRootArgIndex]
    (declared in dx_passparameters, not part of the sources at hand).
    "Global+PerObject: deduplicate into the input-type-indexed
    per-object-global template table": the same find-or-push as for the
    pass-global pool. *)
Definition AddGlobalPerObjectRootArgIndex (indices : list Z)
    (perObjGlobalResTemplate : list Arg_t) (arg : Arg_t)
  : list Z * list Arg_t :=
  add_global_index indices perObjGlobalResTemplate arg.

(** [_AddRootArg<INPUT_TYPE>]: the updated pass, [passesGlobalRes] and
    [objGlobalResTemplate]. *)
Definition _AddRootArg (INPUT_TYPE : PassInputType) (pass : PassParameters)
    (passesGlobalRes : list Arg_t)
    (objGlobalResTemplate : PerObjectGlobalTemplate_t)
    (updateFrequency : ResourceBindFrequency) (scope : ResourceScope)
    (arg : Arg_t)
  : PassParameters * list Arg_t * PerObjectGlobalTemplate_t :=
  match scope with
  | Local =>
      match updateFrequency with
      | PerObject =>
          (MkPassParameters (input pass)
             (perObjectLocalRootArgsTemplate pass ++ [arg])
             (passLocalRootArgs pass)
             (passGlobalRootArgsIndices pass)
             (perObjGlobalRootArgsIndicesTemplate pass),
           passesGlobalRes, objGlobalResTemplate)
      | PerPass =>
          (MkPassParameters (input pass)
             (perObjectLocalRootArgsTemplate pass)
             (passLocalRootArgs pass ++ [arg])
             (passGlobalRootArgsIndices pass)
             (perObjGlobalRootArgsIndicesTemplate pass),
           passesGlobalRes, objGlobalResTemplate)
      end
  | Global =>
      match updateFrequency with
      | PerObject =>
          let perObjGlobalResTemplate := objGlobalResTemplate INPUT_TYPE in
          let '(indices, template) :=
            AddGlobalPerObjectRootArgIndex
              (perObjGlobalRootArgsIndicesTemplate pass)
              perObjGlobalResTemplate arg in
          (MkPassParameters (input pass)
             (perObjectLocalRootArgsTemplate pass)
             (passLocalRootArgs pass)
             (passGlobalRootArgsIndices pass)
             indices,
           passesGlobalRes,
           set_template objGlobalResTemplate INPUT_TYPE template)
      | PerPass =>
          let '(indices, pool) :=
            add_global_index (passGlobalRootArgsIndices pass)
                             passesGlobalRes arg in
          (MkPassParameters (input pass)
             (perObjectLocalRootArgsTemplate pass)
             (passLocalRootArgs pass)
             indices
             (perObjGlobalRootArgsIndicesTemplate pass),
           pool, objGlobalResTemplate)
      end
  end.

(** [FrameGraphBuilder::AddRootArg]: the [switch] on [*pass.input] picks the
    template instance. *)
Definition AddRootArg (pass : PassParameters) (frameGraph : FrameGraph)
    (updateFrequency : ResourceBindFrequency) (scope : ResourceScope)
    (arg : Arg_t) : PassParameters * FrameGraph :=
  let '(pass', pool, template) :=
    match input pass with
    | UI => _AddRootArg UI pass (passesGlobalRes frameGraph)
              (objGlobalResTemplate frameGraph) updateFrequency scope arg
    | Static => _AddRootArg Static pass (passesGlobalRes frameGraph)
              (objGlobalResTemplate frameGraph) updateFrequency scope arg
    | Dynamic => _AddRootArg Dynamic pass (passesGlobalRes frameGraph)
              (objGlobalResTemplate frameGraph) updateFrequency scope arg
    | Particles => _AddRootArg Particles pass (passesGlobalRes frameGraph)
              (objGlobalResTemplate frameGraph) updateFrequency scope arg
    end in
  (pass', MkFrameGraph (passes frameGraph) pool template).

End RootArgs.

Arguments MkPassParameters {Arg_t}.
Arguments input {Arg_t}.
Arguments perObjectLocalRootArgsTemplate {Arg_t}.
Arguments passLocalRootArgs {Arg_t}.
Arguments passGlobalRootArgsIndices {Arg_t}.
Arguments perObjGlobalRootArgsIndicesTemplate {Arg_t}.
Arguments MkFrameGraph {Arg_t}.
Arguments passes {Arg_t}.
Arguments passesGlobalRes {Arg_t}.
Arguments objGlobalResTemplate {Arg_t}.
Arguments FindArg_from {Arg_t}.
Arguments FindArg {Arg_t}.
Arguments add_global_index {Arg_t}.
Arguments _AddRootArg {Arg_t}.
Arguments AddRootArg {Arg_t}.

(** The root arguments as [CreateResourceArguments] builds them:
    [RootArg::ConstBuffField], [RootArg::ConstBuffView] (bind index, hashed
    name, fields, buffer handle), the entities of a [RootArg::DescTable] and
    the variant [RootArg::Arg_t] over views and tables. *)
Record ConstBuffField : Type :=
  MkConstBuffField { fieldSize : Z; fieldHashedName : Z }.

Record ConstBuffView : Type := MkConstBuffView {
  cbvBindIndex : Z;
  cbvHashedName : Z;
  cbvContent : list ConstBuffField;
  cbvGpuMem : Z
}.

Inductive DescTableEntity : Type :=
  | DescTableEntity_ConstBufferView
      (hashedName : Z) (content : list ConstBuffField) (gpuMem bindId : Z)
  | DescTableEntity_Texture (hashedName : Z)
  | DescTableEntity_Sampler (hashedName : Z).

Record DescTable : Type := MkDescTable {
  dtBindIndex : Z;
  dtContent : list DescTableEntity
}.

Inductive RootArg : Type :=
  | Arg_ConstBuffView (view : ConstBuffView)
  | Arg_DescTable (table : DescTable).

#[global] Instance ConstBuffField_eq_dec : EqDecision ConstBuffField.
Proof. solve_decision. Defined.
#[global] Instance ConstBuffView_eq_dec : EqDecision ConstBuffView.
Proof. solve_decision. Defined.
#[global] Instance DescTableEntity_eq_dec : EqDecision DescTableEntity.
Proof. solve_decision. Defined.
#[global] Instance DescTable_eq_dec : EqDecision DescTable.
Proof. solve_decision. Defined.
#[global] Instance RootArg_eq_dec : EqDecision RootArg.
Proof. solve_decision. Defined.

(** [Const::INVALID_BUFFER_HANDLER], whose value the sources at hand do not
    give; the handle is the same in every freshly lowered argument. *)
Definition INVALID_BUFFER_HANDLER : Z := -1.

(** What an argument keeps of the resources it was lowered from: the hashed
    name and the content, of every entity for a table.  The bind index is
    the position in the root signature of one pass, the handle and the
    descriptor index belong to the binding. *)
Definition entity_identity (entity : DescTableEntity) : DescTableEntity :=
  match entity with
  | DescTableEntity_ConstBufferView hashedName content _ _ =>
      DescTableEntity_ConstBufferView hashedName content 0 0
  | DescTableEntity_Texture hashedName => DescTableEntity_Texture hashedName
  | DescTableEntity_Sampler hashedName => DescTableEntity_Sampler hashedName
  end.

Definition arg_identity (arg : RootArg) : RootArg :=
  match arg with
  | Arg_ConstBuffView view =>
      Arg_ConstBuffView
        (MkConstBuffView 0 (cbvHashedName view) (cbvContent view) 0)
  | Arg_DescTable table =>
      Arg_DescTable (MkDescTable 0 (entity_identity <$> dtContent table))
  end.

(** Modelled from the spec: the comparison that [RootArg::FindArg] makes
    (its source file is not part of the sources at hand).  "Argument
    deduplication compares by scope-invariant identity (name + register +
    content)": two arguments are the same when they are of the same kind
    and keep the same names and contents.  The register of a resource is
    not stored in an argument. *)
Definition same_identity (a b : RootArg) : bool :=
  bool_decide (arg_identity a = arg_identity b).

(** [Parsing::Resource_ConstBuff], [Parsing::Resource_Texture] and
    [Parsing::Resource_Sampler] as [CreateResourceArguments] reads them, and
    the variant [Parsing::Resource_t]. *)
Record Resource_ConstBuff : Type := MkResource_ConstBuff {
  cb_name : string;
  cb_registerId : Z;
  cb_bindFrequency : option ResourceBindFrequency;
  cb_scope : option ResourceScope;
  cb_content : list ConstBuffField
}.

Record Resource_Texture : Type := MkResource_Texture {
  tex_name : string;
  tex_registerId : Z;
  tex_bindFrequency : option ResourceBindFrequency;
  tex_scope : option ResourceScope
}.

Record Resource_Sampler : Type := MkResource_Sampler {
  smp_name : string;
  smp_registerId : Z;
  smp_bindFrequency : option ResourceBindFrequency;
  smp_scope : option ResourceScope
}.

Inductive Resource_t : Type :=
  | Res_ConstBuff (res : Resource_ConstBuff)
  | Res_Texture (res : Resource_Texture)
  | Res_Sampler (res : Resource_Sampler).

(** [Parsing::RootParam_ConstBuffView], [RootParam_TextView] and
    [RootParam_SamplerView], each a register and a number of descriptors;
    [Parsing::DescTableEntity_t]; [Parsing::RootParma_t], an inline view of
    a constant buffer or a descriptor table. *)
Record RootParam_View : Type :=
  MkRootParam_View { view_registerId : Z; view_num : Z }.

Inductive DescTableEntity_t : Type :=
  | Entity_ConstBuffView (descTableParam : RootParam_View)
  | Entity_TextView (descTableParam : RootParam_View)
  | Entity_SamplerView (descTableParam : RootParam_View).

Inductive RootParma_t : Type :=
  | RootParam_ConstBuffView (rootParam : RootParam_View)
  | RootParam_DescTable (entities : list DescTableEntity_t).

(** What [CompilePassParameters] reads of a [PassParametersSource] on the
    way to the root arguments. *)
Record PassParametersSource : Type := MkPassParametersSource {
  pass_input : option PassInputType;
  pass_resources : list Resource_t;
  pass_rootSignature : list RootParma_t
}.

(** [FindResourceOfTypeAndRegId<T>]: the first resource of the kind [T]
    with the register; [None] is the null pointer. *)
Fixpoint FindResourceOfTypeAndRegId {T : Type} (get : Resource_t -> option T)
    (registerIdOf : T -> Z) (resources : list Resource_t) (registerId : Z)
  : option T :=
  match resources with
  | [] => None
  | res :: rest =>
      match get res with
      | Some target =>
          if registerIdOf target =? registerId then Some target
          else FindResourceOfTypeAndRegId get registerIdOf rest registerId
      | None => FindResourceOfTypeAndRegId get registerIdOf rest registerId
      end
  end.

Definition get_ConstBuff (res : Resource_t) : option Resource_ConstBuff :=
  match res with Res_ConstBuff r => Some r | _ => None end.
Definition get_Texture (res : Resource_t) : option Resource_Texture :=
  match res with Res_Texture r => Some r | _ => None end.
Definition get_Sampler (res : Resource_t) : option Resource_Sampler :=
  match res with Res_Sampler r => Some r | _ => None end.

(** What [CreateResourceArguments] hands to [AddRootArg] for one root
    parameter: the bind frequency and scope of its resources and the
    lowered argument. *)
Definition LoweredParam : Type :=
  (ResourceBindFrequency * ResourceScope * RootArg)%type.

(** The descriptor table under construction: [descTableArgument.content]
    and the two optionals [bindFrequency] and [scope]. *)
Record TableState : Type := MkTableState {
  table_content : list DescTableEntity;
  table_bindFrequency : option ResourceBindFrequency;
  table_scope : option ResourceScope
}.

(** "Set or validate": the optional takes the resource's value when it is
    empty, and must be equal to it otherwise ([None] is the failed
    assertion). *)
Definition set_or_validate {A : Type} `{EqDecision A}
    (current resValue : option A) : option (option A) :=
  match current with
  | None => Some resValue
  | Some _ => if decide (current = resValue) then Some current else None
  end.

(** [registerId + i] on [int]: [None] on overflow. *)
Definition int_add (a b : Z) : option Z :=
  if decide (- 2 ^ 31 <= a + b < 2 ^ 31) then Some (a + b) else None.

Section Lowering.

(** The macro [HASH], from a name to its 32-bit hash. *)
Variable HASH : string -> Z.

(** The branch for an inline constant buffer view; [None] when the resource
    is not found, the assertion on [num] fails, or the bind frequency or
    the scope of the resource is not set. *)
Definition lower_ConstBuffView (passResources : list Resource_t)
    (paramIndex : Z) (rootParam : RootParam_View) : option LoweredParam :=
  res ← FindResourceOfTypeAndRegId get_ConstBuff cb_registerId passResources
          (view_registerId rootParam);
  if decide (view_num rootParam = 1) then
    bindFrequency ← cb_bindFrequency res;
    scope ← cb_scope res;
    Some (bindFrequency, scope,
          Arg_ConstBuffView
            (MkConstBuffView paramIndex (HASH (cb_name res)) (cb_content res)
                             INVALID_BUFFER_HANDLER))
  else None.

(** One pass through the inner [for] loops of the table branch, for the
    register [registerId + i]. *)
Definition add_entity (passResources : list Resource_t)
    (entity : DescTableEntity_t) (state : TableState) (i : Z)
  : option TableState :=
  match entity with
  | Entity_ConstBuffView descTableParam =>
      registerId ← int_add (view_registerId descTableParam) i;
      res ← FindResourceOfTypeAndRegId get_ConstBuff cb_registerId
              passResources registerId;
      bindFrequency ← set_or_validate (table_bindFrequency state)
                                      (cb_bindFrequency res);
      scope ← set_or_validate (table_scope state) (cb_scope res);
      Some (MkTableState
              (table_content state
               ++ [DescTableEntity_ConstBufferView
                     (HASH (cb_name res)) (cb_content res)
                     INVALID_BUFFER_HANDLER INVALID_INDEX])
              bindFrequency scope)
  | Entity_TextView descTableParam =>
      registerId ← int_add (view_registerId descTableParam) i;
      res ← FindResourceOfTypeAndRegId get_Texture tex_registerId
              passResources registerId;
      bindFrequency ← set_or_validate (table_bindFrequency state)
                                      (tex_bindFrequency res);
      scope ← set_or_validate (table_scope state) (tex_scope res);
      Some (MkTableState
              (table_content state
               ++ [DescTableEntity_Texture (HASH (tex_name res))])
              bindFrequency scope)
  | Entity_SamplerView descTableParam =>
      registerId ← int_add (view_registerId descTableParam) i;
      res ← FindResourceOfTypeAndRegId get_Sampler smp_registerId
              passResources registerId;
      bindFrequency ← set_or_validate (table_bindFrequency state)
                                      (smp_bindFrequency res);
      scope ← set_or_validate (table_scope state) (smp_scope res);
      Some (MkTableState
              (table_content state
               ++ [DescTableEntity_Sampler (HASH (smp_name res))])
              bindFrequency scope)
  end.

Definition entity_num (entity : DescTableEntity_t) : Z :=
  match entity with
  | Entity_ConstBuffView descTableParam
  | Entity_TextView descTableParam
  | Entity_SamplerView descTableParam => view_num descTableParam
  end.

(** The branch for a descriptor table: every entity adds [num] descriptors,
    and the table is routed by the bind frequency and scope its resources
    share ([None] when the optionals are still empty). *)
Definition lower_DescTable (passResources : list Resource_t)
    (paramIndex : Z) (entities : list DescTableEntity_t)
  : option LoweredParam :=
  state ← foldl (fun state descTableEntity =>
                   foldl (fun state i =>
                            state ← state;
                            add_entity passResources descTableEntity state i)
                         state (seqZ 0 (entity_num descTableEntity)))
                (Some (MkTableState [] None None)) entities;
  bindFrequency ← table_bindFrequency state;
  scope ← table_scope state;
  Some (bindFrequency, scope,
        Arg_DescTable (MkDescTable paramIndex (table_content state))).

(** The body of the loop of [CreateResourceArguments] up to the call of
    [AddRootArg]: the visit of the root parameter number [paramIndex]. *)
Definition lower_param (passResources : list Resource_t) (paramIndex : Z)
    (rootParam : RootParma_t) : option LoweredParam :=
  match rootParam with
  | RootParam_ConstBuffView view =>
      lower_ConstBuffView passResources paramIndex view
  | RootParam_DescTable entities =>
      lower_DescTable passResources paramIndex entities
  end.

(** [CreateResourceArguments]: one [AddRootArg] per root parameter, in
    declaration order, [i] counting the parameters. *)
Fixpoint CreateResourceArguments_from (passResources : list Resource_t)
    (i : Z) (params : list RootParma_t) (frameGraph : FrameGraph RootArg)
    (pass : PassParameters RootArg)
  : option (PassParameters RootArg * FrameGraph RootArg) :=
  match params with
  | [] => Some (pass, frameGraph)
  | rootParam :: rest =>
      lowered ← lower_param passResources i rootParam;
      let '(bindFrequency, scope, arg) := lowered in
      let '(pass', frameGraph') :=
        AddRootArg same_identity pass frameGraph bindFrequency scope arg in
      CreateResourceArguments_from passResources (i + 1) rest frameGraph'
                                   pass'
  end.

Definition CreateResourceArguments (passSource : PassParametersSource)
    (frameGraph : FrameGraph RootArg) (pass : PassParameters RootArg)
  : option (PassParameters RootArg * FrameGraph RootArg) :=
  CreateResourceArguments_from (pass_resources passSource) 0
    (pass_rootSignature passSource) frameGraph pass.

(** [CompilePassParameters] starts from a fresh [PassParameters] with the
    input of the source; the loop of [CompileFrameGraph] then appends the
    compiled pass to [frameGraph.passes].  [None] when the input is not set
    or the lowering fails. *)
Definition compile_pass (frameGraph : FrameGraph RootArg)
    (source : PassParametersSource) : option (FrameGraph RootArg) :=
  passInput ← pass_input source;
  compiled ← CreateResourceArguments source frameGraph
                (MkPassParameters passInput [] [] [] []);
  let '(passParam, frameGraph') := compiled in
  Some (MkFrameGraph (passes frameGraph' ++ [passParam])
                     (passesGlobalRes frameGraph')
                     (objGlobalResTemplate frameGraph')).

Definition CompileFrameGraph (sources : list PassParametersSource)
  : option (FrameGraph RootArg) :=
  foldl (fun frameGraph source =>
           frameGraph ← frameGraph; compile_pass frameGraph source)
        (Some (MkFrameGraph [] [] (fun _ => []))) sources.

End Lowering.

(** The premise of the invariant: a constant buffer is Global and PerPass,
    and two constant buffers are structurally equal (same name, register
    and content). *)
Definition is_global_per_pass (res : Resource_ConstBuff) : Prop :=
  cb_scope res = Some Global /\ cb_bindFrequency res = Some PerPass.

Definition structurally_equal (res1 res2 : Resource_ConstBuff) : Prop :=
  cb_name res1 = cb_name res2
  /\ cb_registerId res1 = cb_registerId res2
  /\ cb_content res1 = cb_content res2.


(** A hash for the examples. *)
Definition demo_HASH (name : string) : Z :=
  foldl (fun h c => (h * 31 + Z.of_nat (nat_of_ascii c)) mod 2 ^ 32) 7
        (list_ascii_of_string name).

(** Two passes of a frame graph.  Both declare the Global PerPass constant
    buffer [Cam] at register 0 with one 64-byte field.  The UI pass lowers
    it as root parameter 0 and adds a Local PerObject buffer; the Static
    pass lowers a Global PerPass buffer of its own first, [Cam] as root
    parameter 1, and a Local PerPass table last. *)
Definition demo_cam : Resource_ConstBuff :=
  MkResource_ConstBuff "Cam" 0 (Some PerPass) (Some Global)
                       [MkConstBuffField 64 5].

Definition demo_ui : PassParametersSource :=
  MkPassParametersSource (Some UI)
    [ Res_ConstBuff demo_cam;
      Res_ConstBuff
        (MkResource_ConstBuff "Glyph" 1 (Some PerObject) (Some Local)
           [MkConstBuffField 16 1; MkConstBuffField 16 2]) ]
    [ RootParam_ConstBuffView (MkRootParam_View 0 1);
      RootParam_ConstBuffView (MkRootParam_View 1 1) ].

Definition demo_static : PassParametersSource :=
  MkPassParametersSource (Some Static)
    [ Res_ConstBuff
        (MkResource_ConstBuff "Fog" 2 (Some PerPass) (Some Global)
           [MkConstBuffField 16 8]);
      Res_ConstBuff demo_cam;
      Res_Texture (MkResource_Texture "Albedo" 0 (Some PerPass) (Some Local));
      Res_Sampler (MkResource_Sampler "Linear" 0 (Some PerPass) (Some Local)) ]
    [ RootParam_ConstBuffView (MkRootParam_View 2 1);
      RootParam_ConstBuffView (MkRootParam_View 0 1);
      RootParam_DescTable [ Entity_TextView (MkRootParam_View 0 1);
                            Entity_SamplerView (MkRootParam_View 0 1) ] ].

Definition demo_sources : list PassParametersSource := [demo_ui; demo_static].

(** Two passes that lower [Cam] inside a descriptor table: alone in the
    first pass, next to a Global PerPass texture in the second. *)
Definition demo_table_alone : PassParametersSource :=
  MkPassParametersSource (Some UI)
    [ Res_ConstBuff demo_cam ]
    [ RootParam_DescTable [ Entity_ConstBuffView (MkRootParam_View 0 1) ] ].

Definition demo_table_shared : PassParametersSource :=
  MkPassParametersSource (Some Static)
    [ Res_ConstBuff demo_cam;
      Res_Texture (MkResource_Texture "Sky" 0 (Some PerPass) (Some Global)) ]
    [ RootParam_DescTable [ Entity_ConstBuffView (MkRootParam_View 0 1);
                            Entity_TextView (MkRootParam_View 0 1) ] ].

Definition demo_table_sources : list PassParametersSource :=
  [demo_table_alone; demo_table_shared].

(** *** Deduplication of pass-global arguments *)
Section Dedup.

Context {Arg_t : Type} (arg_equal : Arg_t -> Arg_t -> bool).

(** The comparison is an equivalence. *)
Hypothesis arg_equal_refl : forall a, arg_equal a a = true.
Hypothesis arg_equal_sym : forall a b, arg_equal a b = arg_equal b a.
Hypothesis arg_equal_trans :
  forall a b c, arg_equal a b = true -> arg_equal b c = true ->
                arg_equal a c = true.








End Dedup.




Section LoweringFacts.

Variable HASH : string -> Z.








End LoweringFacts.

(** The demo frame graph: [Cam], root parameter 0 of the UI pass and root
    parameter 1 of the Static pass, is stored once, at index 0, with the
    bind index of the pass that stored it; the Static pass lists it behind
    its own buffer. *)
Lemma CompileFrameGraph_demo :
  (fun frameGraph =>
     (cbvBindIndex <$> omap (fun arg => match arg with
                                        | Arg_ConstBuffView view => Some view
                                        | Arg_DescTable _ => None
                                        end) (passesGlobalRes frameGraph),
      passGlobalRootArgsIndices <$> passes frameGraph))
  <$> CompileFrameGraph demo_HASH demo_sources
  = Some ([0; 0], [ [0]; [1; 0] ]).
Proof. vm_compute. reflexivity. Qed.


(** C4 (counterexample to the claim as stated).  Both passes of
    [demo_table_sources] lower the Global PerPass constant buffer [Cam]
    inside a descriptor table; the table of the second pass holds a texture
    as well.  The two tables are two entries of [passesGlobalRes], the
    first pass lists index 0 and the second index 1: no entry is shared. *)
Lemma table_with_companion_is_stored_apart :
  FindResourceOfTypeAndRegId get_ConstBuff cb_registerId
    (pass_resources demo_table_alone) 0 = Some demo_cam
  /\ FindResourceOfTypeAndRegId get_ConstBuff cb_registerId
       (pass_resources demo_table_shared) 0 = Some demo_cam
  /\ is_global_per_pass demo_cam /\ structurally_equal demo_cam demo_cam
  /\ (fun frameGraph =>
        (length <$> omap (fun arg => match arg with
                                     | Arg_DescTable table =>
                                         Some (dtContent table)
                                     | Arg_ConstBuffView _ => None
                                     end) (passesGlobalRes frameGraph),
         passGlobalRootArgsIndices <$> passes frameGraph))
     <$> CompileFrameGraph demo_HASH demo_table_sources
     = Some ([1; 2]%nat, [ [0]; [1] ]).
Proof. repeat split; vm_compute; reflexivity. Qed.

End FrameGraphArgs.

(** ** IEEE 754 binary32 arithmetic, as the compiled code computes [float] *)
Module Binary32.

#[local] Open Scope Q_scope.

(** A finite [float] is a rational number [m * 2^e] with [|m| < 2^24] and
    [-149 <= e]; the result of an operation is the exact result rounded to
    the nearest such number, ties to the even significand, each operation
    on its own (SSE arithmetic: no wider intermediate results, no fused
    multiply-add).  Here a value is its rational number; rounding works on
    the value in units of [2^-149], the smallest positive [float].
    Infinities and NaN are not values of the model: a result beyond the
    largest finite [float] is left unbounded. *)

(** The nearest integer, ties to even. *)
Definition nearest_even (q : Q) : Z :=
  let f := Qfloor q in
  match Qcompare (q - inject_Z f) (1 # 2) with
  | Lt => f
  | Eq => if Z.even f then f else (f + 1)%Z
  | Gt => (f + 1)%Z
  end.

(** The exponent of the unit in the last place of [q], a value in units of
    [2^-149]: 0 up to the end of the first normal binade, then one more per
    binade, so that the significand [q / 2^ulp_exp] stays below [2^24]. *)
Definition ulp_exp (q : Q) : Z :=
  let n := Qfloor (Qabs q) in
  if (n <? 2 ^ 24)%Z then 0%Z else (Z.log2 n - 23)%Z.

Definition round_units (q : Q) : Z :=
  let u := (2 ^ ulp_exp q)%Z in
  (nearest_even (q / inject_Z u) * u)%Z.

Definition unit32 : Q := inject_Z (2 ^ 149).

(** Rounding to binary32. *)
Definition rnd (x : Q) : Q := inject_Z (round_units (x * unit32)) / unit32.

(** The operations of the machine. *)
Definition fadd (a b : Q) : Q := rnd (a + b).
Definition fsub (a b : Q) : Q := rnd (a - b).
Definition fmul (a b : Q) : Q := rnd (a * b).
Definition fdiv (a b : Q) : Q := rnd (a / b).

(** Conversion of an [int] to [float]. *)
Definition of_int (n : Z) : Q := rnd (inject_Z n).

(** The number that a finite [spec_float] of the Standard Library's
    specification of IEEE 754 stands for, to compare the operations above
    with that specification on examples. *)
Definition SF2Q (f : SpecFloat.spec_float) : option Q :=
  match f with
  | SpecFloat.S754_zero _ => Some 0
  | SpecFloat.S754_finite s m e =>
      Some ((if s then -1 else 1) * inject_Z (Z.pos m) * 2 ^ e)
  | _ => None
  end.

Definition same_number (a b : option Q) : bool :=
  match a, b with
  | Some x, Some y => Qeq_bool x y
  | _, _ => false
  end.

(** The values of the format, in units: [m * 2^k] with [|m| < 2^24]. *)
Definition format_units (z : Z) : Prop :=
  exists m k : Z, z = (m * 2 ^ k)%Z /\ (Z.abs m < 2 ^ 24)%Z /\ (0 <= k)%Z.

(** The finite [float] values. *)
Definition is_float (x : Q) : Prop :=
  exists z : Z, format_units z /\ x == inject_Z z / unit32.

(** *** The nearest integer *)

Lemma nearest_even_cases (q : Q) :
  let f := Qfloor q in
  (nearest_even q = f /\ q - inject_Z f <= 1 # 2)
  \/ (nearest_even q = (f + 1)%Z /\ 1 # 2 <= q - inject_Z f).
Proof.
  cbv zeta. unfold nearest_even.
  destruct (Qcompare_spec (q - inject_Z (Qfloor q)) (1 # 2)) as [He|Hl|Hg].
  - destruct (Z.even (Qfloor q)).
    + left. split; [reflexivity|]. rewrite He. apply Qle_refl.
    + right. split; [reflexivity|]. rewrite He. apply Qle_refl.
  - left. split; [reflexivity|]. by apply Qlt_le_weak.
  - right. split; [reflexivity|]. by apply Qlt_le_weak.
Qed.

(** No integer is nearer to [q] than [nearest_even q]: [q] is on the side
    of [nearest_even q] of the midpoint of both. *)
Lemma nearest_even_nearest (q : Q) (j : Z) :
  ((j < nearest_even q)%Z -> inject_Z (nearest_even q) + inject_Z j <= 2 * q)
  /\ ((nearest_even q < j)%Z ->
      2 * q <= inject_Z (nearest_even q) + inject_Z j).
Proof.
  pose proof (Qfloor_le q) as Hlo. pose proof (Qlt_floor q) as Hhi.
  rewrite inject_Z_plus in Hhi.
  destruct (nearest_even_cases q) as [[-> Hf]|[-> Hf]]; split; intros Hj.
  - assert (Hq : (j + 1 <= Qfloor q)%Z) by lia.
    rewrite Zle_Qle, inject_Z_plus in Hq.
    change (inject_Z 1) with 1 in *. lra.
  - assert (Hq : (Qfloor q + 1 <= j)%Z) by lia.
    rewrite Zle_Qle, inject_Z_plus in Hq.
    change (inject_Z 1) with 1 in *. lra.
  - assert (Hq : (j <= Qfloor q)%Z) by lia.
    rewrite Zle_Qle in Hq. rewrite inject_Z_plus.
    change (inject_Z 1) with 1 in *. lra.
  - assert (Hq : (Qfloor q + 2 <= j)%Z) by lia.
    rewrite Zle_Qle, inject_Z_plus in Hq. rewrite inject_Z_plus.
    change (inject_Z 1) with 1 in *. change (inject_Z 2) with 2 in *. lra.
Qed.

Lemma nearest_even_comp (p q : Q) : p == q -> nearest_even p = nearest_even q.
Proof.
  intros H. unfold nearest_even. rewrite (Qfloor_comp _ _ H).
  assert (Hc : Qcompare (p - inject_Z (Qfloor q)) (1 # 2)
               = Qcompare (q - inject_Z (Qfloor q)) (1 # 2)).
  { apply Qcompare_comp; [|reflexivity]. by rewrite H. }
  by rewrite Hc.
Qed.

(** *** The unit in the last place *)

Lemma ulp_exp_nonneg (q : Q) : (0 <= ulp_exp q)%Z.
Proof.
  unfold ulp_exp. destruct (Z.ltb_spec (Qfloor (Qabs q)) (2 ^ 24)) as [|Hn];
    [lia|].
  pose proof (Z.log2_le_mono _ _ Hn) as Hl.
  rewrite Z.log2_pow2 in Hl by lia. lia.
Qed.

Lemma ulp_exp_comp (p q : Q) : p == q -> ulp_exp p = ulp_exp q.
Proof.
  intros H. unfold ulp_exp.
  assert (Ha : Qabs p == Qabs q) by (by rewrite H).
  by rewrite (Qfloor_comp _ _ Ha).
Qed.

(** The significand stays below [2^24], and reaches [2^23] above the
    subnormal range. *)
Lemma ulp_exp_bound (q : Q) :
  let u := (2 ^ ulp_exp q)%Z in
  Qabs q < inject_Z (2 ^ 24 * u)
  /\ ((0 < ulp_exp q)%Z -> inject_Z (2 ^ 23 * u) <= Qabs q).
Proof.
  cbv zeta. unfold ulp_exp.
  pose proof (Qfloor_le (Qabs q)) as Hlo.
  pose proof (Qlt_floor (Qabs q)) as Hhi.
  set (n := Qfloor (Qabs q)) in *.
  destruct (Z.ltb_spec n (2 ^ 24)) as [Hn|Hn].
  - split; [|lia]. change (2 ^ 0)%Z with 1%Z. rewrite Z.mul_1_r.
    eapply Qlt_le_trans; [exact Hhi|]. rewrite <- Zle_Qle. lia.
  - assert (Hpos : (0 < n)%Z) by lia.
    destruct (Z.log2_spec n Hpos) as [Hl Hu].
    pose proof (Z.log2_le_mono _ _ Hn) as Hlog.
    rewrite Z.log2_pow2 in Hlog by lia.
    assert (H24 : (2 ^ 24 * 2 ^ (Z.log2 n - 23) = 2 ^ Z.succ (Z.log2 n))%Z).
    { rewrite <- Z.pow_add_r by lia. f_equal. lia. }
    assert (H23 : (2 ^ 23 * 2 ^ (Z.log2 n - 23) = 2 ^ Z.log2 n)%Z).
    { rewrite <- Z.pow_add_r by lia. f_equal. lia. }
    rewrite H24, H23. split.
    + eapply Qlt_le_trans; [exact Hhi|]. rewrite <- Zle_Qle. lia.
    + intros _. eapply Qle_trans; [|exact Hlo]. by rewrite <- Zle_Qle.
Qed.

(** *** Rounding in units *)

Lemma round_units_comp (p q : Q) : p == q -> round_units p = round_units q.
Proof.
  intros H. unfold round_units. rewrite (ulp_exp_comp _ _ H).
  f_equal. apply nearest_even_comp. by rewrite H.
Qed.

(** No value of the format is nearer to [q] than [round_units q]. *)
Lemma round_units_nearest (q : Q) (z : Z) :
  format_units z ->
  ((z < round_units q)%Z -> inject_Z (round_units q) + inject_Z z <= 2 * q)
  /\ ((round_units q < z)%Z ->
      2 * q <= inject_Z (round_units q) + inject_Z z).
Proof.
  intros (m & k & -> & Hm & Hk). unfold round_units.
  pose proof (ulp_exp_nonneg q) as He.
  pose proof (ulp_exp_bound q) as [Hlt Hge]. cbv zeta in Hlt, Hge.
  set (e := ulp_exp q) in *.
  assert (Hu : (0 < 2 ^ e)%Z) by (by apply Z.pow_pos_nonneg).
  set (u := (2 ^ e)%Z) in *.
  assert (HU : 0 < inject_Z u).
  { change 0 with (inject_Z 0). by rewrite <- Zlt_Qlt. }
  assert (Hs : q == q / inject_Z u * inject_Z u) by (field; lra).
  set (s := q / inject_Z u) in *.
  set (N := nearest_even s).
  rewrite inject_Z_mult.
  destruct (Z_le_gt_dec e k) as [Hke|Hke].
  - (* the value is on the grid of [q] *)
    assert (Hz : (m * 2 ^ k = m * 2 ^ (k - e) * u)%Z).
    { unfold u. rewrite <- Z.mul_assoc, <- Z.pow_add_r by lia.
      do 2 f_equal. lia. }
    rewrite Hz. set (j := (m * 2 ^ (k - e))%Z). rewrite inject_Z_mult.
    destruct (nearest_even_nearest s j) as [H1 H2]. fold N in H1, H2.
    split; intros Hj.
    + assert (Hjn : (j < N)%Z) by nia. specialize (H1 Hjn).
      rewrite Hs. nra.
    + assert (Hjn : (N < j)%Z) by nia. specialize (H2 Hjn).
      rewrite Hs. nra.
  - (* the value is below the binade of [q] *)
    specialize (Hge ltac:(lia)).
    assert (Hz : (Z.abs (m * 2 ^ k) < 2 ^ 23 * u)%Z).
    { rewrite Z.abs_mul, (Z.abs_eq (2 ^ k)) by (apply Z.pow_nonneg; lia).
      assert (Hp : (0 < 2 ^ k)%Z) by (by apply Z.pow_pos_nonneg).
      assert (Hle : (2 ^ (24 + k) <= 2 ^ (23 + e))%Z)
        by (apply Z.pow_le_mono_r; lia).
      rewrite !Z.pow_add_r in Hle by lia. fold u in Hle. nia. }
    set (z := (m * 2 ^ k)%Z) in *.
    rewrite inject_Z_mult in Hge.
    assert (Hzq : - (inject_Z (2 ^ 23) * inject_Z u) < inject_Z z
                  < inject_Z (2 ^ 23) * inject_Z u).
    { rewrite <- inject_Z_mult, <- inject_Z_opp, <- !Zlt_Qlt. lia. }
    set (J := (2 ^ 23)%Z) in *.
    destruct (Qlt_le_dec q 0) as [Hneg|Hpos].
    + rewrite Qabs_neg in Hge by lra.
      destruct (nearest_even_nearest s (- J)) as [H1 H2]. fold N in H1, H2.
      rewrite inject_Z_opp in H1, H2.
      assert (HN : (N <= - J)%Z).
      { destruct (Z_le_gt_dec N (- J)) as [|Hgt]; [done|].
        specialize (H1 ltac:(lia)).
        assert (inject_Z (- J) < inject_Z N) as Hq
            by (rewrite <- Zlt_Qlt; lia).
        rewrite inject_Z_opp in Hq. exfalso. nra. }
      assert (HNq : inject_Z N <= - inject_Z J).
      { rewrite <- inject_Z_opp, <- Zle_Qle. lia. }
      split; intros Hj.
      * exfalso.
        assert (inject_Z z < inject_Z N * inject_Z u) as Hq.
        { rewrite <- inject_Z_mult, <- Zlt_Qlt. lia. }
        nra.
      * destruct (Z.eq_dec N (- J)%Z) as [HeqN|Hne].
        -- rewrite HeqN, inject_Z_opp. lra.
        -- specialize (H2 ltac:(lia)). rewrite Hs. nra.
    + rewrite Qabs_pos in Hge by lra.
      destruct (nearest_even_nearest s J) as [H1 H2]. fold N in H1, H2.
      assert (HN : (J <= N)%Z).
      { destruct (Z_le_gt_dec J N) as [|Hgt]; [done|].
        specialize (H2 ltac:(lia)).
        assert (inject_Z N < inject_Z J) as Hq by (rewrite <- Zlt_Qlt; lia).
        exfalso. nra. }
      assert (HNq : inject_Z J <= inject_Z N) by (by rewrite <- Zle_Qle).
      split; intros Hj.
      * destruct (Z.eq_dec N J) as [HeqN|Hne].
        -- rewrite HeqN. lra.
        -- specialize (H1 ltac:(lia)). rewrite Hs. nra.
      * exfalso.
        assert (inject_Z N * inject_Z u < inject_Z z) as Hq.
        { rewrite <- inject_Z_mult, <- Zlt_Qlt. lia. }
        nra.
Qed.

(** The rounded value is a value of the format. *)
Lemma round_units_format (q : Q) : format_units (round_units q).
Proof.
  unfold round_units.
  pose proof (ulp_exp_nonneg q) as He.
  pose proof (ulp_exp_bound q) as [Hlt _]. cbv zeta in Hlt.
  set (e := ulp_exp q) in *.
  assert (Hu : (0 < 2 ^ e)%Z) by (by apply Z.pow_pos_nonneg).
  set (u := (2 ^ e)%Z) in *.
  assert (HU : 0 < inject_Z u).
  { change 0 with (inject_Z 0). by rewrite <- Zlt_Qlt. }
  assert (Hs : q == q / inject_Z u * inject_Z u) by (field; lra).
  set (s := q / inject_Z u) in *.
  rewrite inject_Z_mult in Hlt. apply Qabs_Qlt_condition in Hlt.
  set (J := (2 ^ 24)%Z) in *.
  assert (Hsb : - inject_Z J < s < inject_Z J) by (rewrite Hs in Hlt; nra).
  set (N := nearest_even s).
  destruct (nearest_even_nearest s J) as [H1 _].
  destruct (nearest_even_nearest s (- J)) as [_ H2].
  fold N in H1, H2. rewrite inject_Z_opp in H2.
  assert (HN : (- J <= N <= J)%Z).
  { split.
    - destruct (Z_le_gt_dec (- J) N) as [|Hgt]; [done|].
      assert (inject_Z N < - inject_Z J) as Hq
          by (rewrite <- inject_Z_opp, <- Zlt_Qlt; lia).
      specialize (H2 ltac:(lia)). exfalso. lra.
    - destruct (Z_le_gt_dec N J) as [|Hgt]; [done|].
      assert (inject_Z J < inject_Z N) as Hq by (rewrite <- Zlt_Qlt; lia).
      specialize (H1 ltac:(lia)). exfalso. lra. }
  destruct (Z.eq_dec N J) as [HeqN|HneJ];
    [|destruct (Z.eq_dec N (- J)%Z) as [HeqN|Hne]].
  - exists (2 ^ 23)%Z, (e + 1)%Z. split; [|split; [done|lia]].
    rewrite HeqN. unfold J, u. rewrite Z.pow_add_r by lia. lia.
  - exists (- 2 ^ 23)%Z, (e + 1)%Z. split; [|split; [done|lia]].
    rewrite HeqN. unfold J, u. rewrite Z.pow_add_r by lia. lia.
  - exists N, e. split; [done|]. split; [|done]. unfold J in *. lia.
Qed.


(** A value of the format is rounded to itself. *)
Lemma round_units_fixed (z : Z) :
  format_units z -> round_units (inject_Z z) = z.
Proof.
  intros Hz.
  destruct (round_units_nearest (inject_Z z) z Hz) as [H1 H2].
  destruct (Z.lt_trichotomy z (round_units (inject_Z z))) as [Hlt|[Heq|Hgt]].
  - specialize (H1 Hlt). rewrite Zlt_Qlt in Hlt. lra.
  - done.
  - specialize (H2 Hgt). rewrite Zlt_Qlt in Hgt. lra.
Qed.

(** *** Rounding to binary32 *)

Lemma unit32_pos : 0 < unit32.
Proof. reflexivity. Qed.

Lemma rnd_comp (x y : Q) : x == y -> rnd x = rnd y.
Proof.
  intros H. unfold rnd. f_equal. f_equal. apply round_units_comp.
  by rewrite H.
Qed.


Lemma rnd_is_float (x : Q) : is_float (rnd x).
Proof.
  exists (round_units (x * unit32)). split; [apply round_units_format|].
  reflexivity.
Qed.

Lemma rnd_float (x : Q) : is_float x -> rnd x == x.
Proof.
  intros (z & Hz & Hx). unfold rnd. pose proof unit32_pos as Hu.
  assert (Hq : x * unit32 == inject_Z z) by (rewrite Hx; field; lra).
  rewrite (round_units_comp _ _ Hq), (round_units_fixed _ Hz).
  by rewrite Hx.
Qed.

Lemma rnd_idempotent (x : Q) : rnd (rnd x) == rnd x.
Proof. apply rnd_float, rnd_is_float. Qed.








(** An integer below [2^24] in absolute value is a [float]. *)
Lemma is_float_small_int (n : Z) : (Z.abs n < 2 ^ 24)%Z -> is_float (inject_Z n).
Proof.
  intros Hn. exists (n * 2 ^ 149)%Z. split.
  - exists n, 149%Z. split; [done|]. split; [done|lia].
  - unfold unit32. rewrite inject_Z_mult. field. discriminate.
Qed.

(** The [float] values are the fixed points of the rounding, which gives a
    test that computes. *)
Definition is_floatb (x : Q) : bool := Qeq_bool (rnd x) x.

Lemma is_floatb_spec (x : Q) : is_floatb x = true -> is_float x.
Proof.
  unfold is_floatb. intros H. apply Qeq_bool_iff in H.
  destruct (rnd_is_float x) as (z & Hz & Hx).
  exists z. split; [exact Hz|]. by rewrite <- H.
Qed.

(** *** Agreement with the Standard Library's IEEE 754 operations

    At precision 24 with the exponent bound 128, on quotients, a sum, a
    difference and a product of normal numbers, and on quotients in the
    subnormal range (a tie that goes to the even neighbour 0, and one that
    goes up). *)
Lemma operations_agree_with_SpecFloat :
  let f1 := SpecFloat.S754_finite false 12582919 (-23) in
  let f2 := SpecFloat.S754_finite false 12582920 (-23) in
  let one := SpecFloat.S754_finite false 8388608 (-23) in
  let two := SpecFloat.S754_finite false 8388608 (-22) in
  let three := SpecFloat.S754_finite false 12582912 (-22) in
  let tiny1 := SpecFloat.S754_finite false 1 (-149) in
  let tiny3 := SpecFloat.S754_finite false 3 (-149) in
  same_number (SF2Q (SpecFloat.SFdiv 24 128 f1 three))
              (Some (fdiv (12582919 # 2 ^ 23) 3)) = true
  /\ same_number (SF2Q (SpecFloat.SFdiv 24 128 f2 three))
                 (Some (fdiv (12582920 # 2 ^ 23) 3)) = true
  /\ same_number (SF2Q (SpecFloat.SFdiv 24 128 one f1))
                 (Some (fdiv 1 (12582919 # 2 ^ 23))) = true
  /\ same_number (SF2Q (SpecFloat.SFdiv 24 128 one f2))
                 (Some (fdiv 1 (12582920 # 2 ^ 23))) = true
  /\ same_number (SF2Q (SpecFloat.SFadd 24 128 three f1))
                 (Some (fadd 3 (12582919 # 2 ^ 23))) = true
  /\ same_number (SF2Q (SpecFloat.SFsub 24 128 f1 three))
                 (Some (fsub (12582919 # 2 ^ 23) 3)) = true
  /\ same_number (SF2Q (SpecFloat.SFmul 24 128 f1 f2))
                 (Some (fmul (12582919 # 2 ^ 23) (12582920 # 2 ^ 23))) = true
  /\ same_number (SF2Q (SpecFloat.SFdiv 24 128 tiny1 two))
                 (Some (fdiv (1 # 2 ^ 149) 2)) = true
  /\ same_number (SF2Q (SpecFloat.SFdiv 24 128 tiny3 two))
                 (Some (fdiv (3 # 2 ^ 149) 2)) = true.
Proof. vm_compute. repeat split. Qed.

End Binary32.

(** ** dx_lightbaker.cpp : the light baker *)
Module LightBaker.

Import Binary32.

(** [XMFLOAT4], over the number type [F] that stands for [float]. *)
Record XMFLOAT4 (F : Type) : Type :=
  MkXMFLOAT4 { xm_x : F; xm_y : F; xm_z : F; xm_w : F }.
Arguments MkXMFLOAT4 {F}.
Arguments xm_x {F}.
Arguments xm_y {F}.
Arguments xm_z {F}.
Arguments xm_w {F}.

(** [enum class LightBakingMode { AllClusters, CurrentPositionCluster, Count }] *)
Inductive LightBakingMode : Type := AllClusters | CurrentPositionCluster.

#[global] Instance LightBakingMode_eq_dec : EqDecision LightBakingMode.
Proof. solve_decision. Defined.

Definition mode_to_int (mode : LightBakingMode) : nat :=
  match mode with AllClusters => 0 | CurrentPositionCluster => 1 end.

Definition mode_of_int (i : nat) : option LightBakingMode :=
  match i with
  | 0%nat => Some AllClusters
  | 1%nat => Some CurrentPositionCluster
  | _ => None
  end.

(** The table [LightBakingMode_Str]. *)
Definition LightBakingMode_Str : list string :=
  [ "AllCluster"; "CurrentPositionCluster" ].

(** [LightBaker::BakingModeToStr]: the table entry of the mode. *)
Definition BakingModeToStr (mode : LightBakingMode) : string :=
  default "" (LightBakingMode_Str !! mode_to_int mode).

(** [LightBaker::StrToBakingMode]: the first index whose entry is [str];
    [None] when the loop finds none (the assertion on [INVALID_INDEX]). *)
Fixpoint find_mode_index (str : string) (table : list string) (i : nat)
  : option nat :=
  match table with
  | [] => None
  | entry :: rest =>
      if decide (str = entry) then Some i else find_mode_index str rest (S i)
  end.

Definition StrToBakingMode (str : string) : option LightBakingMode :=
  find_mode_index str LightBakingMode_Str 0 ≫= mode_of_int.

(** [DiffuseProbe]: the nine SH coefficients ([std::array<XMFLOAT4, 9>]).
    The optional debug payload (ray paths, light samples) is neither
    written to the file nor read by the functions modelled here. *)
Record DiffuseProbe (F : Type) : Type :=
  MkDiffuseProbe { radianceSh : list (XMFLOAT4 F) }.
Arguments MkDiffuseProbe {F}.
Arguments radianceSh {F}.

(** [BakingData] *)
Record BakingData (F : Type) : Type := MkBakingData {
  bakingMode : option LightBakingMode;
  bakingCluster : option Z;
  clusterFirstProbeIndices : list Z;
  probes : list (DiffuseProbe F)
}.
Arguments MkBakingData {F}.
Arguments bakingMode {F}.
Arguments bakingCluster {F}.
Arguments clusterFirstProbeIndices {F}.
Arguments probes {F}.

(** Conversion of a wide integer to a 32-bit [int] (wrap-around), and of an
    [int] to [size_t]. *)
Definition to_int (z : Z) : Z := (z + 2 ^ 31) mod 2 ^ 32 - 2 ^ 31.
Definition to_size_t (z : Z) : Z := z mod 2 ^ 64.
Definition INT_MAX : Z := 2 ^ 31 - 1.

(** [std::vector::resize(n)]: keep the first [n] elements, pad with value
    initialised ones. *)
Definition resize {A} (n : nat) (d : A) (l : list A) : list A :=
  take n l ++ replicate (n - length l) d.

(** *** Bake points and [PreBake] *)
Section BakePoints.

(** [Utils::AABB] *)
Record AABB : Type := MkAABB { minVert : XMFLOAT4 Q; maxVert : XMFLOAT4 Q }.

(** The BSP tree of the renderer: the set of clusters in ascending order
    ([std::set<int>]), the box of a cluster and the cluster of the node that
    contains a point. *)
Variable GetClustersSet : list Z.
Variable GetClusterAABB : Z -> AABB.
Variable GetNodeWithPoint_cluster : XMFLOAT4 Q -> Z.

(** [Settings::PATH_TRACING_EPSILON] *)
Variable PATH_TRACING_EPSILON : Q.

Definition bakePointsInterval : Q := 50.

(** The number of bake points along one axis:
    [std::ceil((max - min) / bakePointsInterval)] converted to [int], for the
    shrunken box; the difference and the quotient are [float] operations. *)
Definition axisNum (minCoord maxCoord : Q) : Z :=
  Qceiling (fdiv (fsub maxCoord minCoord) bakePointsInterval).

(** [std::vector::reserve] called with an [int]: the argument is converted to
    [size_t], so a negative one becomes a request above [max_size()] and
    throws [std::length_error]; a nonnegative one only sets the capacity. *)
Definition reserve_throws (n : Z) : bool := n <? 0.

(** A coordinate of a bake point:
    [std::min(min + bakePointsInterval * iteration, max)], the [int]
    converted to [float] for the product. *)
Definition bakeCoord (minCoord maxCoord : Q) (iteration : Z) : Q :=
  Qmin (fadd minCoord (fmul bakePointsInterval (of_int iteration))) maxCoord.

(** [LightBaker::GenerateClusterBakePoints]; [None] is the exception of
    [reserve]. *)
Definition GenerateClusterBakePoints (clusterIndex : Z)
  : option (list (XMFLOAT4 Q)) :=
  let clusterAABB := GetClusterAABB clusterIndex in
  let epsilonVec :=
    MkXMFLOAT4 PATH_TRACING_EPSILON PATH_TRACING_EPSILON
               PATH_TRACING_EPSILON 0%Q in
  let minV :=
    MkXMFLOAT4 (fadd (xm_x (minVert clusterAABB)) (xm_x epsilonVec))
               (fadd (xm_y (minVert clusterAABB)) (xm_y epsilonVec))
               (fadd (xm_z (minVert clusterAABB)) (xm_z epsilonVec))
               (fadd (xm_w (minVert clusterAABB)) (xm_w epsilonVec)) in
  let maxV :=
    MkXMFLOAT4 (fsub (xm_x (maxVert clusterAABB)) (xm_x epsilonVec))
               (fsub (xm_y (maxVert clusterAABB)) (xm_y epsilonVec))
               (fsub (xm_z (maxVert clusterAABB)) (xm_z epsilonVec))
               (fsub (xm_w (maxVert clusterAABB)) (xm_w epsilonVec)) in
  let xAxisNum := axisNum (xm_x minV) (xm_x maxV) in
  let yAxisNum := axisNum (xm_y minV) (xm_y maxV) in
  let zAxisNum := axisNum (xm_z minV) (xm_z maxV) in
  if reserve_throws (to_int (to_int (xAxisNum * yAxisNum) * zAxisNum))
  then None
  else
    Some (xIteration ← seqZ 0 xAxisNum;
          yIteration ← seqZ 0 yAxisNum;
          zIteration ← seqZ 0 zAxisNum;
          [ MkXMFLOAT4
              (bakeCoord (xm_x minV) (xm_x maxV) xIteration)
              (bakeCoord (xm_y minV) (xm_y maxV) yIteration)
              (bakeCoord (xm_z minV) (xm_z maxV) zIteration)
              1%Q ]).

(** The state of [LightBaker] that [PreBake] reads and writes. *)
Record Baker : Type := MkBaker {
  transferableData : BakingData Q;
  clusterBakePoints : list (list (XMFLOAT4 Q));
  currentBakeCluster : Z;
  probesBaked : Z;
  bakePosition : option (XMFLOAT4 Q)
}.

(** [bakePoints[cluster] = ...] on a vector: an index outside the vector is
    undefined behaviour in the source and leaves the list alone here. *)
Definition assign_at {A} (i : Z) (v : A) (l : list A) : list A :=
  if i <? 0 then l else <[Z.to_nat i := v]> l.

(** [LightBaker::GenerateClustersBakePoints]: the bake points per cluster
    and the new value of [transferableData.bakingCluster] and [bakePosition].
    An unset mode or bake position fails an assertion ([None]); an
    exception of [GenerateClusterBakePoints] leaves the function ([None]). *)
Definition GenerateClustersBakePoints (baker : Baker)
  : option (list (list (XMFLOAT4 Q)) * option Z * option (XMFLOAT4 Q)) :=
  mode ← bakingMode (transferableData baker);
  match mode with
  | AllClusters =>
      match last GetClustersSet with
      | None => Some ([], None, bakePosition baker)
      | Some maxCluster =>
          let bakePoints := resize (Z.to_nat (maxCluster + 1)) [] [] in
          points ← foldl (fun points cluster =>
                            points ← points;
                            clusterPoints ← GenerateClusterBakePoints cluster;
                            Some (assign_at cluster clusterPoints points))
                         (Some bakePoints) GetClustersSet;
          Some (points, None, bakePosition baker)
      end
  | CurrentPositionCluster =>
      position ← bakePosition baker;
      let cluster := GetNodeWithPoint_cluster position in
      let bakePoints := resize (Z.to_nat (cluster + 1)) [] [] in
      clusterPoints ← GenerateClusterBakePoints cluster;
      Some (assign_at cluster clusterPoints bakePoints, Some cluster, None)
  end.

(** The [for] loop of [PreBake]: [i] runs over the clusters, [totalProbes]
    accumulates the sizes, entry [i] of the index vector is overwritten. *)
Fixpoint first_probe_loop (points : list (list (XMFLOAT4 Q))) (i : nat)
    (totalProbes : Z) (indices : list Z) : list Z * Z :=
  match points with
  | [] => (indices, totalProbes)
  | clusterPoints :: rest =>
      first_probe_loop rest (S i)
        (to_int (totalProbes + Z.of_nat (length clusterPoints)))
        (<[i := totalProbes]> indices)
  end.

Definition zero4 : XMFLOAT4 Q := MkXMFLOAT4 0%Q 0%Q 0%Q 0%Q.
Definition default_probe : DiffuseProbe Q :=
  MkDiffuseProbe (replicate 9 zero4).

(** [LightBaker::PreBake] *)
Definition PreBake (baker : Baker) : option Baker :=
  '(bakePoints, cluster, position) ← GenerateClustersBakePoints baker;
  let data := transferableData baker in
  let indices0 :=
    resize (length bakePoints) 0 (clusterFirstProbeIndices data) in
  let '(indices, totalProbes) := first_probe_loop bakePoints 0 0 indices0 in
  Some (MkBaker
          (MkBakingData (bakingMode data) cluster indices
             (resize (Z.to_nat (to_size_t totalProbes)) default_probe
                     (probes data)))
          bakePoints 0 (probesBaked baker) position).

(** The number of probes of the first [c] clusters. *)
Definition points_before (points : list (list (XMFLOAT4 Q))) (c : nat) : Z :=
  Z.of_nat (length (concat (take c points))).

Definition total_points (points : list (list (XMFLOAT4 Q))) : Z :=
  Z.of_nat (length (concat points)).

End BakePoints.

(** *** The distance falloff in binary32 *)

Section Falloff32.

#[local] Open Scope Q_scope.

(** [std::powf] of the C library. *)
Variable powf : Q -> Q -> Q.

(** [CalculateDistanceFalloff] as the machine computes it: the comparisons
    are exact, the divisions, the subtraction and the product are rounded to
    [float], [std::max(0.0f, x)] is [(0.0f < x) ? x : 0.0f].  [None] is a
    [DX_ASSERT] that fails. *)
Definition CalculateDistanceFalloff32 (dist dist0 distMax : Q) : option Q :=
  if Qlt_le_dec dist distMax then
    if Qlt_le_dec dist0 dist then
      if Qlt_le_dec 0 dist then
        if Qlt_le_dec 0 distMax then
          let window := fsub 1 (powf (fdiv dist distMax) 4) in
          let windowedFunctionValue :=
            powf (if Qlt_le_dec 0 window then window else 0) 2 in
          let distanceFalloff := powf (fdiv dist0 dist) 2 in
          Some (fmul windowedFunctionValue distanceFalloff)
        else None
      else None
    else Some 1
  else Some 0.

End Falloff32.


(** The two distances of the counterexample to strictness: neighbours in
    binary32, between the reference distance 1 and the cutoff 3. *)
Definition demo_dist1 : Q := 12582919 # 2 ^ 23.
Definition demo_dist2 : Q := 12582920 # 2 ^ 23.

(** *** Distance falloff and direct light *)
Section DirectLight.

#[local] Open Scope R_scope.

(** [CalculateDistanceFalloff] in exact arithmetic: the windowed
    inverse-square attenuation over the real numbers, [std::powf] with the
    exponents 4 and 2 being the integer power. *)
Definition CalculateDistanceFalloff (dist dist0 distMax : R) : R :=
  if Rge_dec dist distMax then 0
  else if Rle_dec dist dist0 then 1
  else
    let windowedFunctionValue := Rmax 0 (1 - (dist / distMax) ^ 4) ^ 2 in
    let distanceFalloff := (dist0 / dist) ^ 2 in
    windowedFunctionValue * distanceFalloff.

(** [GetDiffuseBRDF]: the constant Lambertian term, [albedo / M_PI] with the
    placeholder albedo 0.5. *)
Definition GetDiffuseBRDF : R := (1 / 2) / PI.

(** [XMVECTOR] arithmetic as the baker uses it: the four lanes for [+], [-]
    and the product with a scalar, the first three for the [XMVector3]
    functions.  [XMVector3Normalize] divides by the length when it is
    positive and leaves a zero vector alone. *)
Definition XMVECTOR : Type := XMFLOAT4 R.

Definition XMVectorAdd (a b : XMVECTOR) : XMVECTOR :=
  MkXMFLOAT4 (xm_x a + xm_x b) (xm_y a + xm_y b)
             (xm_z a + xm_z b) (xm_w a + xm_w b).

Definition XMVectorSubtract (a b : XMVECTOR) : XMVECTOR :=
  MkXMFLOAT4 (xm_x a - xm_x b) (xm_y a - xm_y b)
             (xm_z a - xm_z b) (xm_w a - xm_w b).

Definition XMVectorScale (v : XMVECTOR) (s : R) : XMVECTOR :=
  MkXMFLOAT4 (xm_x v * s) (xm_y v * s) (xm_z v * s) (xm_w v * s).

Definition XMVector3Dot (a b : XMVECTOR) : R :=
  xm_x a * xm_x b + xm_y a * xm_y b + xm_z a * xm_z b.

Definition XMVector3Length (v : XMVECTOR) : R := sqrt (XMVector3Dot v v).

Definition XMVector3Normalize (v : XMVECTOR) : XMVECTOR :=
  let fLength := XMVector3Length v in
  XMVectorScale v (if Rlt_dec 0 fLength then 1 / fLength else fLength).

Definition XMVectorZero : XMVECTOR := MkXMFLOAT4 0 0 0 0.

(** [PointLight], [AreaLight] and the mesh data of [SourceStaticObject]
    that the area light sampling reads. *)
Record PointLight : Type := MkPointLight {
  origin : XMFLOAT4 R;
  color : XMFLOAT4 R;
  intensity : R;
  radius : R
}.



(** The BSP visibility query and the distance settings. *)
Variable IsPointVisibleFromOtherPoint : XMFLOAT4 R -> XMFLOAT4 R -> bool.
Variable POINT_LIGHTS_MAX_DISTANCE : R.
Variable AREA_LIGHTS_MIN_DISTANCE : R.
Variable AREA_LIGHTS_MAX_DISTANCE : R.
Variable TRACING_EPSILON : R.
Variable AREA_LIGHTS_SAMPLES_NUM : Z.

(** One iteration of the loop of [GatherDirectIrradianceFromPointLights]:
    [None] when the light is skipped ([continue]), otherwise
    [sseLightRadiance] and [sseLightBaseRadiance]. *)
Definition point_light_sample (intersectionPoint : XMFLOAT4 R)
    (intersectionSurfaceNormal : XMFLOAT4 R) (light : PointLight)
  : option (XMVECTOR * XMVECTOR) :=
  if Req_dec_T (intensity light) 0 then None else
  let sseIntersectionPointToLight :=
    XMVectorSubtract (origin light) intersectionPoint in
  let distanceToLight := XMVector3Length sseIntersectionPointToLight in
  if Rgt_dec distanceToLight POINT_LIGHTS_MAX_DISTANCE then None else
  let normalAndIntersectionDotProduct :=
    XMVector3Dot (XMVector3Normalize sseIntersectionPointToLight)
                 intersectionSurfaceNormal in
  if Rle_dec normalAndIntersectionDotProduct 0 then None else
  if negb (IsPointVisibleFromOtherPoint intersectionPoint (origin light))
  then None else
  let distanceFalloff :=
    CalculateDistanceFalloff distanceToLight (radius light)
                             POINT_LIGHTS_MAX_DISTANCE in
  if Req_dec_T distanceFalloff 0 then None else
  let sseLightBaseRadiance := XMVectorScale (color light) (intensity light) in
  let sseLightRadiance :=
    XMVectorScale
      (XMVectorScale sseLightBaseRadiance (GetDiffuseBRDF * distanceFalloff))
      normalAndIntersectionDotProduct in
  Some (sseLightRadiance, sseLightBaseRadiance).

(** [GatherDirectIrradianceFromPointLights]: the sum over the accepted
    lights. *)
Definition GatherDirectIrradianceFromPointLights
    (pointLights : list PointLight) (intersectionPoint : XMFLOAT4 R)
    (intersectionSurfaceNormal : XMFLOAT4 R) : XMFLOAT4 R :=
  foldl (fun sseResultIradiance light =>
           match point_light_sample intersectionPoint
                   intersectionSurfaceNormal light with
           | Some (sseLightRadiance, _) =>
               XMVectorAdd sseResultIradiance sseLightRadiance
           | None => sseResultIradiance
           end)
        XMVectorZero pointLights.

(** [std::find_if] over the triangle CDF: the first index whose entry is
    at least [sampleZ]. *)
Fixpoint find_triangle (pdf : list R) (sampleZ : R) (i : nat) : option nat :=
  match pdf with
  | [] => None
  | trianglePDF :: rest =>
      if Rge_dec trianglePDF sampleZ then Some i
      else find_triangle rest sampleZ (S i)
  end.




(** The [ENABLE_VALIDATION] assertions of both loops: every colour channel
    of the sample lies between 0 and the light's radiance. *)
Definition energy_conserved (sample lightRadiance : XMFLOAT4 R) : Prop :=
  (0 <= xm_x sample <= xm_x lightRadiance)
  /\ (0 <= xm_y sample <= xm_y lightRadiance)
  /\ (0 <= xm_z sample <= xm_z lightRadiance).

Definition nonnegative_rgb (v : XMFLOAT4 R) : Prop :=
  0 <= xm_x v /\ 0 <= xm_y v /\ 0 <= xm_z v.

End DirectLight.

(** *** The path tracing loop *)

(** [Utils::Ray], [PathSegment]. *)
Record Ray : Type :=
  MkRay { ray_origin : XMFLOAT4 R; ray_direction : XMFLOAT4 R }.

Record PathSegment : Type := MkPathSegment {
  segment_v0 : XMFLOAT4 R;
  segment_v1 : XMFLOAT4 R;
  segment_bounce : Z;
  segment_radiance : XMFLOAT4 R
}.

(** What [PathTraceFromProbe] takes from its surroundings.
    - The uniform generator behind
      [GenerateNormalizedUniformDistributioSample] (a static Mersenne
      twister in the source): a state and the draw.
    - [Settings] and the bake flags.
    - The collaborators of the loop: the closest-hit query of the BSP tree
      and the hit record it returns, the direct light gathered at a hit
      (which draws from the generator for its area light samples and fills a
      debug record), the interpolated normal of a hit, and the rotation
      helpers of [Utils] and DirectXMath. *)
Class PathTraceEnv : Type := MkPathTraceEnv {
  Rng : Type;
  GenerateNormalizedUniformDistributioSample : Rng -> R * Rng;
  GUARANTEED_BOUNCES_NUM : Z;
  RUSSIAN_ROULETTE_ABSORBTION_PROBABILITY : R;
  TRACING_EPSILON : R;
  SaveRayPath : bool;
  SaveLightSampling : bool;
  IntersectionResult : Type;
  LightSamplePoint : Type;
  Matrix : Type;
  intersection_t : IntersectionResult -> R;
  FindClosestRayIntersection : Ray -> option IntersectionResult;
  GatherDirectIradianceAtInersectionPoint :
    Ray -> IntersectionResult -> Rng -> XMFLOAT4 R * LightSamplePoint * Rng;
  GetNormal : IntersectionResult -> XMFLOAT4 R;
  AXIS_Z : XMFLOAT4 R;
  ConstructV1ToV2RotationMatrix : XMFLOAT4 R -> XMFLOAT4 R -> Matrix;
  XMVector4Transform : XMFLOAT4 R -> Matrix -> XMVECTOR
}.

(** One pass through the body of [while (true)] either falls off the end of
    the body ([Next]) or leaves the loop ([Break]). *)
Inductive Flow (A : Type) : Type :=
  | Next (a : A)
  | Break.
Arguments Next {A}.
Arguments Break {A}.

Section PathTrace.

#[local] Open Scope R_scope.

Context `{env : PathTraceEnv}.

Definition XMVectorMultiply (a b : XMVECTOR) : XMVECTOR :=
  MkXMFLOAT4 (xm_x a * xm_x b) (xm_y a * xm_y b)
             (xm_z a * xm_z b) (xm_w a * xm_w b).

(** [GenerateUniformSphereSample] *)
Definition GenerateUniformSphereSample (rng : Rng) : XMFLOAT4 R * Rng :=
  let '(randNum1, rng1) := GenerateNormalizedUniformDistributioSample rng in
  let '(randNum2, rng2) := GenerateNormalizedUniformDistributioSample rng1 in
  let z := 1 - 2 * randNum1 in
  (MkXMFLOAT4 (cos (2 * PI * randNum2) * sqrt (1 - z * z))
              (sin (2 * PI * randNum2) * sqrt (1 - z * z))
              z 0,
   rng2).

(** [GenerateConcentricDiskSample] *)
Definition GenerateConcentricDiskSample (rng : Rng) : XMFLOAT4 R * Rng :=
  let '(u1, rng1) := GenerateNormalizedUniformDistributioSample rng in
  let '(u2, rng2) := GenerateNormalizedUniformDistributioSample rng1 in
  let randNum1 := 2 * u1 - 1 in
  let randNum2 := 2 * u2 - 1 in
  if Req_dec_T randNum1 0 then
    if Req_dec_T randNum2 0 then (MkXMFLOAT4 0 0 0 0, rng2)
    else
      (* |randNum1| > |randNum2| fails *)
      let r := randNum2 in
      let theta := PI / 2 - PI * randNum1 / (randNum2 * 4) in
      (MkXMFLOAT4 (r * cos theta) (r * sin theta) 0 0, rng2)
  else
    if Rgt_dec (Rabs randNum1) (Rabs randNum2) then
      let r := randNum1 in
      let theta := PI * randNum2 / (randNum1 * 4) in
      (MkXMFLOAT4 (r * cos theta) (r * sin theta) 0 0, rng2)
    else
      let r := randNum2 in
      let theta := PI / 2 - PI * randNum1 / (randNum2 * 4) in
      (MkXMFLOAT4 (r * cos theta) (r * sin theta) 0 0, rng2).

(** [GenerateCosineWeightedSample] *)
Definition GenerateCosineWeightedSample (rng : Rng) : XMFLOAT4 R * Rng :=
  let '(sample, rng') := GenerateConcentricDiskSample rng in
  (MkXMFLOAT4 (xm_x sample) (xm_y sample)
     (sqrt (Rmax 0 (1 - xm_x sample * xm_x sample
                      - xm_y sample * xm_y sample)))
     (xm_w sample),
   rng').

(** [GetCosineWeightedSamplePDF] *)
Definition GetCosineWeightedSamplePDF (cosTheta : R) : R := cosTheta / PI.

(** The local variables of [PathTraceFromProbe] that the loop reads and
    writes, the generator, and two counters that are not in the source:
    [rouletteDraws] counts the executions of the roulette draw and
    [rouletteRescales] those of the throughput rescaling. *)
Record TraceState : Type := MkTraceState {
  rayBounce : Z;
  intersectionPoint : XMFLOAT4 R;
  rayDir : XMFLOAT4 R;
  sseRadiance : XMVECTOR;
  sseThoroughput : XMVECTOR;
  nDotL : R;
  samplesPDF : R;
  pathSegments : option (list PathSegment);
  lightSamples : option (list LightSamplePoint);
  rng : Rng;
  rouletteDraws : nat;
  rouletteRescales : nat
}.

(** Statements of the body are sequenced with [bind], which runs nothing
    after a [Break]. *)
Definition Body (A : Type) : Type := TraceState -> Flow A * TraceState.

Definition body_ret {A} (a : A) : Body A := fun st => (Next a, st).

Definition body_bind {A B} (m : Body A) (k : A -> Body B) : Body B :=
  fun st =>
    match m st with
    | (Next a, st') => k a st'
    | (Break, st') => (Break, st')
    end.

Definition break_ {A} : Body A := fun st => (Break, st).
Definition get_state : Body TraceState := fun st => (Next st, st).
Definition put_state (st : TraceState) : Body unit := fun _ => (Next tt, st).

#[local] Instance Body_ret : MRet Body := @body_ret.
#[local] Instance Body_bind : MBind Body := fun A B k m => body_bind m k.

(** The draw of the roulette sample, and the rescaling of the throughput
    by [1 - RUSSIAN_ROULETTE_ABSORBTION_PROBABILITY]. *)
Definition roulette_draw : Body R :=
  fun st =>
    let '(sample, rng') :=
      GenerateNormalizedUniformDistributioSample (rng st) in
    (Next sample,
     MkTraceState (rayBounce st) (intersectionPoint st) (rayDir st)
       (sseRadiance st) (sseThoroughput st) (nDotL st) (samplesPDF st)
       (pathSegments st) (lightSamples st) rng'
       (S (rouletteDraws st)) (rouletteRescales st)).

Definition roulette_rescale : Body unit :=
  fun st =>
    (Next tt,
     MkTraceState (rayBounce st) (intersectionPoint st) (rayDir st)
       (sseRadiance st)
       (XMVectorScale (sseThoroughput st)
          (1 / (1 - RUSSIAN_ROULETTE_ABSORBTION_PROBABILITY)))
       (nDotL st) (samplesPDF st)
       (pathSegments st) (lightSamples st) (rng st)
       (rouletteDraws st) (S (rouletteRescales st))).

(** [AddPathSegment] when [SaveRayPath] is set. *)
Definition add_segment (segments : option (list PathSegment))
    (v0 v1 : XMFLOAT4 R) (bounce : Z) (radiance : XMFLOAT4 R)
  : option (list PathSegment) :=
  if SaveRayPath
  then (fun l => l ++ [MkPathSegment v0 v1 bounce radiance]) <$> segments
  else segments.

(** The rest of the body, from "Find intersection" on. *)
Definition bounce : Body unit :=
  fun st =>
    let ray := MkRay (intersectionPoint st) (rayDir st) in
    match FindClosestRayIntersection ray with
    | None =>
        (* the ray leaves the level: record the miss and break *)
        let MISS_RAY_LEN := 25 in
        let secondRayPoint :=
          XMVectorAdd (XMVectorScale (ray_direction ray) MISS_RAY_LEN)
                      (ray_origin ray) in
        (Break,
         MkTraceState (rayBounce st) (intersectionPoint st) (rayDir st)
           (sseRadiance st) (sseThoroughput st) (nDotL st) (samplesPDF st)
           (add_segment (pathSegments st) (ray_origin ray) secondRayPoint
                        (rayBounce st) (sseRadiance st))
           (lightSamples st) (rng st)
           (rouletteDraws st) (rouletteRescales st))
    | Some intersectionResult =>
        let intersectionPoint' :=
          XMVectorAdd
            (XMVectorScale (ray_direction ray)
               (intersection_t intersectionResult - TRACING_EPSILON))
            (ray_origin ray) in
        let segments :=
          add_segment (pathSegments st) (ray_origin ray) intersectionPoint'
                      (rayBounce st) (sseRadiance st) in
        let '(directIrradiance, lightGatherInfo, rng1) :=
          GatherDirectIradianceAtInersectionPoint ray intersectionResult
                                                  (rng st) in
        let samples :=
          if SaveLightSampling
          then (fun l => l ++ [lightGatherInfo]) <$> lightSamples st
          else lightSamples st in
        let sseRadiance' :=
          XMVectorAdd (sseRadiance st)
            (XMVectorMultiply directIrradiance (sseThoroughput st)) in
        let normal := GetNormal intersectionResult in
        let rotationMat := ConstructV1ToV2RotationMatrix AXIS_Z normal in
        let '(cosineWieghtedSample, rng2) :=
          GenerateCosineWeightedSample rng1 in
        let sseRayDir := XMVector4Transform cosineWieghtedSample rotationMat in
        let nDotL' := XMVector3Dot normal sseRayDir in
        let samplesPDF' := GetCosineWeightedSamplePDF nDotL' in
        let brdf := GetDiffuseBRDF in
        let sseThoroughput' :=
          XMVectorScale
            (XMVectorScale (XMVectorScale (sseThoroughput st) brdf) nDotL')
            (1 / samplesPDF') in
        (Next tt,
         MkTraceState (rayBounce st + 1) intersectionPoint' sseRayDir
           sseRadiance' sseThoroughput' nDotL' samplesPDF'
           segments samples rng2
           (rouletteDraws st) (rouletteRescales st))
    end.

(** The body of the loop, statement by statement. *)
Definition loop_body : Body unit :=
  st ← get_state;
  let isGuaranteedBounce := (rayBounce st <? GUARANTEED_BOUNCES_NUM)%Z in
  (if negb isGuaranteedBounce
   then
     (break_ : Body unit);;
     (* Apply Russian Roulette to terminate. *)
     sample ← roulette_draw;
     (if Rlt_dec sample RUSSIAN_ROULETTE_ABSORBTION_PROBABILITY
      then break_ else mret tt : Body unit);;
     roulette_rescale
   else mret tt : Body unit);;
  bounce.

(** [while (true) { ... }] with a bound on the number of passes: [None]
    when the bound is used up before the loop is left. *)
Fixpoint run_loop (fuel : nat) (st : TraceState) : option TraceState :=
  match fuel with
  | O => None
  | S fuel' =>
      match loop_body st with
      | (Break, st') => Some st'
      | (Next _, st') => run_loop fuel' st'
      end
  end.

(** The state in which [PathTraceFromProbe] enters the loop, and the
    radiance and first direction it returns after it. *)
Definition initial_state (probeCoord : XMFLOAT4 R) (rng0 : Rng) : TraceState :=
  let '(rayDir0, rng1) := GenerateUniformSphereSample rng0 in
  MkTraceState 0 probeCoord rayDir0 XMVectorZero (MkXMFLOAT4 1 1 1 0) 1 1
    (if SaveRayPath then Some [] else None)
    (if SaveLightSampling then Some [] else None)
    rng1 0 0.

Definition PathTraceFromProbe (fuel : nat) (probeCoord : XMFLOAT4 R)
    (rng0 : Rng) : option (TraceState * XMFLOAT4 R) :=
  let st0 := initial_state probeCoord rng0 in
  (fun st => (st, rayDir st0)) <$> run_loop fuel st0.

End PathTrace.

(** A small level for the examples: three clusters.  Cluster 2 is a thin
    slab, 1/256 units high, with [PATH_TRACING_EPSILON] taken as 1/128. *)
Definition demo_epsilon : Q := 1 # 128.

Definition demo_AABB (cluster : Z) : AABB :=
  if cluster =? 0 then
    MkAABB (MkXMFLOAT4 0 0 0 1)%Q (MkXMFLOAT4 120 40 40 1)%Q
  else if cluster =? 1 then
    MkAABB (MkXMFLOAT4 0 0 0 1)%Q (MkXMFLOAT4 60 60 10 1)%Q
  else
    MkAABB (MkXMFLOAT4 0 0 0 1)%Q (MkXMFLOAT4 10 10 (1 # 256) 1)%Q.

Definition demo_baker : Baker :=
  MkBaker (MkBakingData (Some AllClusters) None [] []) [] 0 0 None.

(** *** C3: the prefix-sum layout that [PreBake] leaves *)

Lemma to_int_small (z : Z) : - 2 ^ 31 <= z <= INT_MAX -> to_int z = z.
Proof.
  unfold to_int, INT_MAX. intros H.
  rewrite Z.mod_small by lia. lia.
Qed.

Lemma length_resize {A} (n : nat) (d : A) (l : list A) :
  length (resize n d l) = n.
Proof. unfold resize. rewrite length_app, length_take, length_replicate. lia. Qed.

Lemma points_before_0 (points : list (list (XMFLOAT4 Q))) :
  points_before points 0 = 0.
Proof. reflexivity. Qed.

Lemma points_before_S (points : list (list (XMFLOAT4 Q))) (c : nat)
    (clusterPoints : list (XMFLOAT4 Q)) :
  points !! c = Some clusterPoints ->
  points_before points (S c)
  = points_before points c + Z.of_nat (length clusterPoints).
Proof.
  intros Hc. unfold points_before.
  rewrite (take_S_r _ _ _ Hc), concat_app, length_app. simpl.
  rewrite app_nil_r. lia.
Qed.

Lemma points_before_cons (clusterPoints : list (XMFLOAT4 Q))
    (points : list (list (XMFLOAT4 Q))) (c : nat) :
  points_before (clusterPoints :: points) (S c)
  = Z.of_nat (length clusterPoints) + points_before points c.
Proof. unfold points_before. simpl. rewrite length_app. lia. Qed.

Lemma points_before_le (points : list (list (XMFLOAT4 Q))) (c : nat) :
  0 <= points_before points c <= total_points points.
Proof.
  unfold points_before, total_points. split; [lia|].
  rewrite <- (take_drop c points) at 2.
  rewrite concat_app, length_app. lia.
Qed.

Lemma total_points_cons (clusterPoints : list (XMFLOAT4 Q))
    (points : list (list (XMFLOAT4 Q))) :
  total_points (clusterPoints :: points)
  = Z.of_nat (length clusterPoints) + total_points points.
Proof. unfold total_points. simpl. rewrite length_app. lia. Qed.

(** The loop invariant: started at cluster [i] with [totalProbes] probes
    counted, the loop leaves the earlier entries alone, writes the running
    sums into the entries from [i] on and returns the grand total. *)
Lemma first_probe_loop_spec (points : list (list (XMFLOAT4 Q))) (i : nat)
    (totalProbes : Z) (indices : list Z) :
  length indices = (i + length points)%nat ->
  0 <= totalProbes -> totalProbes + total_points points <= INT_MAX ->
  let r := first_probe_loop points i totalProbes indices in
  snd r = totalProbes + total_points points
  /\ length (fst r) = length indices
  /\ (forall k, (k < i)%nat -> fst r !! k = indices !! k)
  /\ (forall c, (c < length points)%nat ->
        fst r !! (i + c)%nat = Some (totalProbes + points_before points c)).
Proof.
  revert i totalProbes indices.
  induction points as [|clusterPoints rest IH];
    intros i totalProbes indices Hlen Hpos Hmax; cbn [first_probe_loop].
  - cbn [fst snd]. unfold total_points. simpl.
    split; [lia|]. split; [done|]. split; [done|].
    intros c Hc. lia.
  - rewrite total_points_cons in Hmax.
    pose proof (points_before_le rest 0) as Hrest.
    assert (Htot : 0 <= total_points rest) by (unfold total_points; lia).
    rewrite to_int_small by (unfold INT_MAX in *; lia).
    specialize (IH (S i) (totalProbes + Z.of_nat (length clusterPoints))
                   (<[i := totalProbes]> indices)).
    cbv zeta in IH. rewrite length_insert in IH. simpl in Hlen.
    destruct IH as (Htotal & Hl & Hkeep & Hfill); [lia|lia|lia|].
    rewrite total_points_cons. split; [lia|]. split; [done|]. split.
    + intros k Hk. rewrite Hkeep by lia.
      by rewrite list_lookup_insert_ne by lia.
    + intros c Hc. destruct c as [|c].
      * rewrite Nat.add_0_r, Hkeep by lia.
        rewrite list_lookup_insert_eq by lia.
        rewrite points_before_0. f_equal. lia.
      * replace (i + S c)%nat with (S i + c)%nat by lia.
        simpl in Hc. rewrite Hfill by lia.
        rewrite points_before_cons. f_equal. lia.
Qed.

(** C3.  After [PreBake], provided the probe count fits an [int]: entry [c]
    of [clusterFirstProbeIndices] is the number of bake points of the
    clusters before [c]; consecutive entries differ by the number of bake
    points of the cluster between them; and [probes] has one entry per bake
    point. *)
Theorem PreBake_prefix_sum_layout (GetClustersSet : list Z)
    (GetClusterAABB : Z -> AABB) (GetNodeWithPoint_cluster : XMFLOAT4 Q -> Z)
    (PATH_TRACING_EPSILON : Q) (baker baker' : Baker) :
  PreBake GetClustersSet GetClusterAABB GetNodeWithPoint_cluster
          PATH_TRACING_EPSILON baker = Some baker' ->
  total_points (clusterBakePoints baker') <= INT_MAX ->
  (forall c, (c < length (clusterBakePoints baker'))%nat ->
     clusterFirstProbeIndices (transferableData baker') !! c
     = Some (points_before (clusterBakePoints baker') c))
  /\ (forall c first next clusterPoints,
        clusterFirstProbeIndices (transferableData baker') !! c = Some first ->
        clusterFirstProbeIndices (transferableData baker') !! S c
          = Some next ->
        clusterBakePoints baker' !! c = Some clusterPoints ->
        next - first = Z.of_nat (length clusterPoints))
  /\ Z.of_nat (length (probes (transferableData baker')))
     = total_points (clusterBakePoints baker')
  /\ length (clusterFirstProbeIndices (transferableData baker'))
     = length (clusterBakePoints baker').
Proof.
  unfold PreBake. intros Hpre Hmax.
  destruct (GenerateClustersBakePoints _ _ _ _ baker)
    as [[[bakePoints cluster] position]|]; [|discriminate].
  cbn [mbind option_bind] in Hpre.
  pose proof (first_probe_loop_spec bakePoints 0 0
                (resize (length bakePoints) 0
                   (clusterFirstProbeIndices (transferableData baker)))) as Hl.
  cbv zeta in Hl.
  destruct (first_probe_loop bakePoints 0 0 _) as [indices totalProbes].
  injection Hpre as <-.
  cbn [transferableData clusterBakePoints clusterFirstProbeIndices probes]
    in *.
  cbn [fst snd] in Hl. rewrite length_resize in Hl.
  destruct Hl as (Htotal & Hlen & _ & Hfill); [done|lia|lia|].
  assert (Hall : forall c, (c < length bakePoints)%nat ->
                           indices !! c = Some (points_before bakePoints c)).
  { intros c Hc. specialize (Hfill c Hc). simpl in Hfill.
    by rewrite Z.add_0_l in Hfill. }
  split; [exact Hall|]. split; [|split; [|done]].
  - intros c first next clusterPoints Hfirst Hnext Hpts.
    pose proof (lookup_lt_Some _ _ _ Hnext) as Hlt. rewrite Hlen in Hlt.
    rewrite Hall in Hfirst, Hnext by lia.
    injection Hfirst as <-. injection Hnext as <-.
    rewrite (points_before_S _ _ _ Hpts). lia.
  - rewrite length_resize, Htotal.
    assert (0 <= total_points bakePoints) by (unfold total_points; lia).
    unfold to_size_t. rewrite Z.mod_small by (unfold INT_MAX in *; lia). lia.
Qed.

Lemma PreBake_prefix_sum_layout_witness :
  exists baker',
    PreBake [0; 1; 2] demo_AABB (fun _ => 0) demo_epsilon demo_baker
    = Some baker'
    /\ total_points (clusterBakePoints baker') <= INT_MAX
    /\ (forall c, (c < length (clusterBakePoints baker'))%nat ->
          clusterFirstProbeIndices (transferableData baker') !! c
          = Some (points_before (clusterBakePoints baker') c))
    /\ (forall c first next clusterPoints,
          clusterFirstProbeIndices (transferableData baker') !! c
            = Some first ->
          clusterFirstProbeIndices (transferableData baker') !! S c
            = Some next ->
          clusterBakePoints baker' !! c = Some clusterPoints ->
          next - first = Z.of_nat (length clusterPoints))
    /\ Z.of_nat (length (probes (transferableData baker')))
       = total_points (clusterBakePoints baker')
    /\ length (clusterFirstProbeIndices (transferableData baker'))
       = length (clusterBakePoints baker').
Proof.
  eexists. split; [vm_compute; reflexivity|].
  split; [vm_compute; discriminate|].
  eapply (PreBake_prefix_sum_layout [0; 1; 2] demo_AABB (fun _ => 0)
            demo_epsilon demo_baker).
  - vm_compute. reflexivity.
  - vm_compute. discriminate.
Defined.

(** On the demo level the three clusters get 3, 4 and 0 bake points, the
    first-probe indices are 0, 3 and 7, and 7 probes are allocated. *)
Lemma PreBake_demo :
  (fun baker' =>
     (clusterFirstProbeIndices (transferableData baker'),
      length <$> clusterBakePoints baker',
      length (probes (transferableData baker'))))
  <$> PreBake [0; 1; 2] demo_AABB (fun _ => 0) demo_epsilon demo_baker
  = Some ([0; 3; 7], [3; 4; 0]%nat, 7%nat).
Proof. vm_compute. reflexivity. Qed.

(** *** C9: bake points of a thin cluster *)








(** *** C6: the profile of the distance falloff *)
Section FalloffFacts.

#[local] Open Scope R_scope.

Lemma pow2_lt_compat (a b : R) : 0 <= a -> a < b -> a ^ 2 < b ^ 2.
Proof. intros Ha Hab. nra. Qed.

Lemma pow4_lt_compat (a b : R) : 0 <= a -> a < b -> a ^ 4 < b ^ 4.
Proof.
  intros Ha Hab.
  replace (a ^ 4) with ((a ^ 2) ^ 2) by ring.
  replace (b ^ 4) with ((b ^ 2) ^ 2) by ring.
  apply pow2_lt_compat; [nra|]. by apply pow2_lt_compat.
Qed.



Lemma div_pos_lt_1 (a b : R) : 0 <= a -> a < b -> 0 <= a / b < 1.
Proof.
  intros Ha Hab. assert (Hb : 0 < b) by lra. split.
  - apply Rmult_le_pos; [exact Ha|]. left. by apply Rinv_0_lt_compat.
  - apply (Rmult_lt_reg_r b); [exact Hb|]. unfold Rdiv.
    rewrite Rmult_assoc, Rinv_l by lra. lra.
Qed.

(** Between [dist0] and [distMax] the falloff is the product of the window
    and the inverse-square term, and the window needs no clamp. *)
Lemma CalculateDistanceFalloff_between (dist dist0 distMax : R) :
  0 <= dist0 -> dist0 < dist -> dist < distMax ->
  CalculateDistanceFalloff dist dist0 distMax
  = (1 - (dist / distMax) ^ 4) ^ 2 * (dist0 / dist) ^ 2.
Proof.
  intros H0 H1 H2. unfold CalculateDistanceFalloff.
  destruct (Rge_dec dist distMax) as [?|_]; [lra|].
  destruct (Rle_dec dist dist0) as [?|_]; [lra|]. cbv zeta.
  destruct (div_pos_lt_1 dist distMax) as [Hq0 Hq1]; [lra|lra|].
  assert (Hq4 : (dist / distMax) ^ 4 < 1).
  { replace 1 with (1 ^ 4) by ring. by apply pow4_lt_compat. }
  rewrite Rmax_right by lra. reflexivity.
Qed.

(** The falloff never leaves [0, 1] when the reference distance is not
    negative. *)
Lemma CalculateDistanceFalloff_range (dist dist0 distMax : R) :
  0 <= dist0 -> 0 <= CalculateDistanceFalloff dist dist0 distMax <= 1.
Proof.
  intros H0. unfold CalculateDistanceFalloff.
  destruct (Rge_dec dist distMax) as [?|Hmax]; [lra|].
  destruct (Rle_dec dist dist0) as [?|H1]; [lra|]. cbv zeta.
  assert (Hd : dist0 < dist) by lra.
  destruct (div_pos_lt_1 dist0 dist H0 Hd) as [Hg0 Hg1].
  assert (Hg : 0 <= (dist0 / dist) ^ 2 <= 1) by nra.
  assert (Hp : 0 <= (dist / distMax) ^ 4).
  { replace ((dist / distMax) ^ 4) with (((dist / distMax) ^ 2) ^ 2) by ring.
    apply pow2_ge_0. }
  assert (Hw : 0 <= Rmax 0 (1 - (dist / distMax) ^ 4) <= 1).
  { split; [apply Rmax_l|]. apply Rmax_lub; lra. }
  assert (Hw2 : 0 <= Rmax 0 (1 - (dist / distMax) ^ 4) ^ 2 <= 1) by nra.
  nra.
Qed.


(** Two values on the slope: at distance 2 and 5 from a light of radius 1
    with cutoff 10. *)
Lemma CalculateDistanceFalloff_values :
  CalculateDistanceFalloff 2 1 10 = (1 - (2 / 10) ^ 4) ^ 2 * (1 / 2) ^ 2
  /\ CalculateDistanceFalloff 5 1 10 = (1 - (5 / 10) ^ 4) ^ 2 * (1 / 5) ^ 2
  /\ CalculateDistanceFalloff 5 1 10 < CalculateDistanceFalloff 2 1 10.
Proof.
  rewrite !CalculateDistanceFalloff_between by lra.
  split; [reflexivity|]. split; [reflexivity|]. lra.
Qed.

End FalloffFacts.

(** *** C6: the falloff in binary32 *)
Section Falloff32Facts.

#[local] Open Scope Q_scope.

Variable powf : Q -> Q -> Q.

(** What the profile needs of [std::powf]: for the exponents 2 and 4 it
    does not decrease when its nonnegative base grows, and the square of 0
    is not negative. *)
Hypothesis powf_2_le : forall x y, 0 <= x -> x <= y -> powf x 2 <= powf y 2.
Hypothesis powf_4_le : forall x y, 0 <= x -> x <= y -> powf x 4 <= powf y 4.
Hypothesis powf_0_2 : 0 <= powf 0 2.







End Falloff32Facts.






(** C6 (counterexample to the claim as stated).  Between the reference
    distance 1 and the cutoff 3 the two neighbouring [float] distances
    [demo_dist1 < demo_dist2] have the same quotient by 3 and the same
    quotient of 1 after rounding, so the falloff has the same value at
    both, whatever [std::powf] computes: it is not strictly decreasing. *)
Lemma CalculateDistanceFalloff32_not_strict :
  is_float demo_dist1 /\ is_float demo_dist2
  /\ (1 < demo_dist1)%Q /\ (demo_dist1 < demo_dist2)%Q /\ (demo_dist2 < 3)%Q
  /\ forall powf : Q -> Q -> Q,
       CalculateDistanceFalloff32 powf demo_dist1 1 3
       = CalculateDistanceFalloff32 powf demo_dist2 1 3.
Proof.
  split; [by apply is_floatb_spec|]. split; [by apply is_floatb_spec|].
  split; [reflexivity|]. split; [reflexivity|]. split; [reflexivity|].
  intros powf. unfold CalculateDistanceFalloff32.
  destruct (Qlt_le_dec demo_dist1 3) as [_|H]; [|by vm_compute in H].
  destruct (Qlt_le_dec demo_dist2 3) as [_|H]; [|by vm_compute in H].
  destruct (Qlt_le_dec 1 demo_dist1) as [_|H]; [|by vm_compute in H].
  destruct (Qlt_le_dec 1 demo_dist2) as [_|H]; [|by vm_compute in H].
  destruct (Qlt_le_dec 0 demo_dist1) as [_|H]; [|by vm_compute in H].
  destruct (Qlt_le_dec 0 demo_dist2) as [_|H]; [|by vm_compute in H].
  destruct (Qlt_le_dec 0 3) as [_|H]; [|by vm_compute in H].
  assert (H3 : fdiv demo_dist1 3 = fdiv demo_dist2 3)
    by (vm_compute; reflexivity).
  assert (H1 : fdiv 1 demo_dist1 = fdiv 1 demo_dist2)
    by (vm_compute; reflexivity).
  cbv zeta. by rewrite H3, H1.
Qed.

(** *** C7: accepted direct light samples and the validation assertions *)
Section EnergyConservation.

#[local] Open Scope R_scope.

Lemma GetDiffuseBRDF_range : 0 < GetDiffuseBRDF <= 1.
Proof.
  unfold GetDiffuseBRDF. pose proof PI2_3_2 as Hpi.
  assert (Hpi3 : 3 < PI) by lra.
  assert (Hinv : 0 < / PI) by (apply Rinv_0_lt_compat; lra).
  assert (Hinv1 : / PI < 1).
  { rewrite <- Rinv_1. apply Rinv_lt_contravar; lra. }
  unfold Rdiv. nra.
Qed.

Lemma XMVector3Dot_self_nonneg (v : XMVECTOR) : 0 <= XMVector3Dot v v.
Proof. unfold XMVector3Dot. nra. Qed.

(** The Cauchy-Schwarz inequality for the three lanes of the dot product. *)
Lemma XMVector3Dot_cauchy_schwarz (a b : XMVECTOR) :
  XMVector3Dot a b ^ 2 <= XMVector3Dot a a * XMVector3Dot b b.
Proof.
  unfold XMVector3Dot. destruct a as [ax ay az aw], b as [bx by' bz bw].
  cbn [xm_x xm_y xm_z].
  pose proof (pow2_ge_0 (ax * by' - ay * bx)).
  pose proof (pow2_ge_0 (ax * bz - az * bx)).
  pose proof (pow2_ge_0 (ay * bz - az * by')).
  nra.
Qed.

Lemma XMVector3Dot_scale (v : XMVECTOR) (s : R) :
  XMVector3Dot (XMVectorScale v s) (XMVectorScale v s)
  = XMVector3Dot v v * s ^ 2.
Proof. unfold XMVector3Dot, XMVectorScale. cbn [xm_x xm_y xm_z]. ring. Qed.

(** A normalised vector has length 1, or 0 when the vector was zero. *)
Lemma XMVector3Normalize_dot_self (v : XMVECTOR) :
  XMVector3Dot (XMVector3Normalize v) (XMVector3Normalize v) <= 1.
Proof.
  unfold XMVector3Normalize. cbv zeta. rewrite XMVector3Dot_scale.
  unfold XMVector3Length.
  pose proof (XMVector3Dot_self_nonneg v) as Hs.
  pose proof (sqrt_sqrt _ Hs) as Hsq.
  pose proof (sqrt_pos (XMVector3Dot v v)) as Hpos.
  set (len := sqrt (XMVector3Dot v v)) in *.
  destruct (Rlt_dec 0 len) as [Hlen|Hlen].
  - rewrite <- Hsq. right. field. lra.
  - assert (len = 0) as -> by lra. rewrite <- Hsq. lra.
Qed.

(** The cosine between a normalised direction and a normalised normal is at
    most 1. *)
Lemma normalized_dot_le_1 (a n : XMVECTOR) :
  XMVector3Dot (XMVector3Normalize a) (XMVector3Normalize n) <= 1.
Proof.
  pose proof (XMVector3Dot_cauchy_schwarz (XMVector3Normalize a)
                (XMVector3Normalize n)) as Hcs.
  pose proof (XMVector3Normalize_dot_self a) as Ha.
  pose proof (XMVector3Normalize_dot_self n) as Hn.
  pose proof (XMVector3Dot_self_nonneg (XMVector3Normalize a)) as Ha0.
  pose proof (XMVector3Dot_self_nonneg (XMVector3Normalize n)) as Hn0.
  nra.
Qed.

(** A channel scaled by factors in [0, 1] stays between 0 and itself. *)
Lemma channel_scaled (c f g : R) :
  0 <= c -> 0 <= f <= 1 -> 0 <= g <= 1 -> 0 <= c * f * g <= c.
Proof.
  intros Hc Hf Hg. assert (Hcf : 0 <= c * f <= c) by nra.
  split; nra.
Qed.


Lemma point_light_sample_conserves_energy
    (visible : XMFLOAT4 R -> XMFLOAT4 R -> bool) (maxDistance : R)
    (intersectionPoint rawNormal : XMFLOAT4 R) (light : PointLight)
    (sample base : XMVECTOR) :
  nonnegative_rgb (color light) -> 0 <= intensity light ->
  0 <= radius light ->
  point_light_sample visible maxDistance intersectionPoint
    (XMVector3Normalize rawNormal) light = Some (sample, base) ->
  energy_conserved sample base.
Proof.
  intros (Hx & Hy & Hz) Hi Hr. unfold point_light_sample. cbv zeta.
  destruct (Req_dec_T (intensity light) 0) as [?|_]; [discriminate|].
  destruct (Rgt_dec _ maxDistance) as [?|_]; [discriminate|].
  destruct (Rle_dec _ 0) as [?|Hdot]; [discriminate|].
  destruct (negb _); [discriminate|].
  destruct (Req_dec_T _ 0) as [?|_]; [discriminate|].
  intros [= <- <-].
  pose proof (normalized_dot_le_1
                (XMVectorSubtract (origin light) intersectionPoint)
                rawNormal) as Hle.
  pose proof (CalculateDistanceFalloff_range
                (XMVector3Length
                   (XMVectorSubtract (origin light) intersectionPoint))
                (radius light) maxDistance Hr) as Hf.
  pose proof GetDiffuseBRDF_range as Hb.
  set (dot := XMVector3Dot _ (XMVector3Normalize rawNormal)) in *.
  set (falloff := CalculateDistanceFalloff _ _ _) in *.
  assert (Hbf : 0 <= GetDiffuseBRDF * falloff <= 1) by nra.
  assert (Hd : 0 <= dot <= 1) by lra.
  unfold energy_conserved, XMVectorScale. cbn [xm_x xm_y xm_z].
  split; [|split]; apply channel_scaled; try done; nra.
Qed.



(** What [point_light_sample] returns for a light that passes every test. *)
Lemma point_light_sample_accepted
    (visible : XMFLOAT4 R -> XMFLOAT4 R -> bool) (maxDistance : R)
    (intersectionPoint normal : XMFLOAT4 R) (light : PointLight) :
  intensity light <> 0 ->
  XMVector3Length (XMVectorSubtract (origin light) intersectionPoint)
    <= maxDistance ->
  0 < XMVector3Dot
        (XMVector3Normalize
           (XMVectorSubtract (origin light) intersectionPoint)) normal ->
  visible intersectionPoint (origin light) = true ->
  CalculateDistanceFalloff
    (XMVector3Length (XMVectorSubtract (origin light) intersectionPoint))
    (radius light) maxDistance <> 0 ->
  point_light_sample visible maxDistance intersectionPoint normal light
  = Some (XMVectorScale
            (XMVectorScale
               (XMVectorScale (color light) (intensity light))
               (GetDiffuseBRDF
                * CalculateDistanceFalloff
                    (XMVector3Length
                       (XMVectorSubtract (origin light) intersectionPoint))
                    (radius light) maxDistance))
            (XMVector3Dot
               (XMVector3Normalize
                  (XMVectorSubtract (origin light) intersectionPoint))
               normal),
          XMVectorScale (color light) (intensity light)).
Proof.
  intros Hi Hd Hdot Hv Hf. unfold point_light_sample. cbv zeta.
  destruct (Req_dec_T (intensity light) 0) as [?|_]; [done|].
  destruct (Rgt_dec _ maxDistance) as [?|_]; [lra|].
  destruct (Rle_dec _ 0) as [?|_]; [lra|].
  rewrite Hv. cbn [negb].
  destruct (Req_dec_T _ 0) as [?|_]; [done|]. reflexivity.
Qed.

Lemma XMVector3Length_z (c w : R) :
  0 <= c -> XMVector3Length (MkXMFLOAT4 0 0 c w) = c.
Proof.
  intros Hc. unfold XMVector3Length, XMVector3Dot. cbn [xm_x xm_y xm_z].
  replace (0 * 0 + 0 * 0 + c * c) with (c * c) by ring.
  by apply sqrt_square.
Qed.

Lemma XMVector3Normalize_z (c w : R) :
  0 < c ->
  XMVector3Normalize (MkXMFLOAT4 0 0 c w)
  = MkXMFLOAT4 (0 * (1 / c)) (0 * (1 / c)) (c * (1 / c)) (w * (1 / c)).
Proof.
  intros Hc. unfold XMVector3Normalize. cbv zeta.
  rewrite XMVector3Length_z by lra.
  destruct (Rlt_dec 0 c) as [_|?]; [reflexivity|lra].
Qed.

(** The light of the examples: at height [d] above the intersection point,
    white, of intensity 1, with the given radius. *)
Definition demo_point : XMFLOAT4 R := MkXMFLOAT4 0 0 0 1.
Definition demo_up : XMFLOAT4 R := MkXMFLOAT4 0 0 1 0.
Definition demo_light (d r : R) : PointLight :=
  MkPointLight (MkXMFLOAT4 0 0 d 1) (MkXMFLOAT4 1 1 1 0) 1 r.

Lemma demo_light_distance (d r : R) :
  0 <= d ->
  XMVector3Length (XMVectorSubtract (origin (demo_light d r)) demo_point) = d.
Proof.
  intros Hd. unfold XMVectorSubtract, demo_light, demo_point.
  cbn [origin xm_x xm_y xm_z xm_w].
  replace (0 - 0) with 0 by ring. replace (d - 0) with d by ring.
  by apply XMVector3Length_z.
Qed.

Lemma demo_light_cosine (d r : R) :
  0 < d ->
  XMVector3Dot
    (XMVector3Normalize
       (XMVectorSubtract (origin (demo_light d r)) demo_point))
    (XMVector3Normalize demo_up) = 1.
Proof.
  intros Hd. unfold XMVectorSubtract, demo_light, demo_point, demo_up.
  cbn [origin xm_x xm_y xm_z xm_w].
  replace (0 - 0) with 0 by ring. replace (d - 0) with d by ring.
  rewrite !XMVector3Normalize_z by lra.
  unfold XMVector3Dot. cbn [xm_x xm_y xm_z]. field. lra.
Qed.



(** A light with a positive radius that is accepted: the theorem is about
    samples that exist. *)
Lemma demo_light_is_accepted :
  exists sample base,
    point_light_sample (fun _ _ => true) 10 demo_point
      (XMVector3Normalize demo_up) (demo_light 2 1) = Some (sample, base).
Proof.
  eexists. eexists. apply point_light_sample_accepted.
  - cbn. lra.
  - rewrite demo_light_distance by lra. lra.
  - rewrite demo_light_cosine by lra. lra.
  - reflexivity.
  - rewrite demo_light_distance by lra. cbn [radius demo_light].
    rewrite CalculateDistanceFalloff_between by lra. lra.
Qed.


End EnergyConservation.

(** *** C8: the path tracing loop stops after the guaranteed bounces *)
Section PathTraceFacts.

Context `{env : PathTraceEnv}.

(** Once [rayBounce] has reached [GUARANTEED_BOUNCES_NUM] the body leaves the
    loop at its first statement and changes nothing. *)
Lemma loop_body_after_guaranteed (st : TraceState) :
  GUARANTEED_BOUNCES_NUM <= rayBounce st -> loop_body st = (Break, st).
Proof.
  intros Hge. unfold loop_body, mbind, Body_bind, body_bind, get_state.
  destruct (Z.ltb_spec (rayBounce st) GUARANTEED_BOUNCES_NUM) as [?|_];
    [lia|].
  reflexivity.
Qed.

(** Before that the body is the bounce alone. *)
Lemma loop_body_guaranteed (st : TraceState) :
  rayBounce st < GUARANTEED_BOUNCES_NUM -> loop_body st = bounce st.
Proof.
  intros Hlt. unfold loop_body, mbind, Body_bind, body_bind, get_state.
  destruct (Z.ltb_spec (rayBounce st) GUARANTEED_BOUNCES_NUM) as [_|?];
    [|lia].
  cbn [negb mret Body_ret body_ret]. by destruct (bounce st) as [[[]|] st'].
Qed.

(** A bounce advances [rayBounce] by one when the loop goes on and never
    touches the roulette counters. *)
Lemma bounce_spec (st : TraceState) :
  rouletteDraws (snd (bounce st)) = rouletteDraws st
  /\ rouletteRescales (snd (bounce st)) = rouletteRescales st
  /\ match fst (bounce st) with
     | Next _ => rayBounce (snd (bounce st)) = rayBounce st + 1
     | Break => rayBounce (snd (bounce st)) = rayBounce st
     end.
Proof.
  unfold bounce. destruct (FindClosestRayIntersection _) as [hit|].
  - destruct (GatherDirectIradianceAtInersectionPoint _ _ _) as [[? ?] ?].
    destruct (GenerateCosineWeightedSample _) as [? ?]. by cbn.
  - by cbn.
Qed.

(** With more passes allowed than guaranteed bounces are left, the loop is
    left, [rayBounce] has not passed [GUARANTEED_BOUNCES_NUM], and the
    roulette counters are where they were. *)
Lemma run_loop_terminates (fuel : nat) (st : TraceState) :
  Z.max 0 (GUARANTEED_BOUNCES_NUM - rayBounce st) < Z.of_nat fuel ->
  exists st',
    run_loop fuel st = Some st'
    /\ rayBounce st <= rayBounce st'
    /\ rayBounce st' <= Z.max (rayBounce st) GUARANTEED_BOUNCES_NUM
    /\ rouletteDraws st' = rouletteDraws st
    /\ rouletteRescales st' = rouletteRescales st.
Proof.
  revert st. induction fuel as [|fuel IH]; intros st Hfuel; [lia|].
  - cbn [run_loop].
    destruct (Z_lt_ge_dec (rayBounce st) GUARANTEED_BOUNCES_NUM) as [Hlt|Hge].
    + rewrite loop_body_guaranteed by done.
      destruct (bounce_spec st) as (Hd & Hr & Hb).
      destruct (bounce st) as [[[]|] st1]; cbn [fst snd] in *.
      * destruct (IH st1) as (st' & Hrun & H1 & H2 & H3 & H4); [lia|].
        exists st'. split; [done|]. lia.
      * exists st1. split; [done|]. lia.
    + rewrite loop_body_after_guaranteed by lia.
      exists st. split; [done|]. lia.
Qed.

Lemma initial_state_counters (probeCoord : XMFLOAT4 R) (rng0 : Rng) :
  rayBounce (initial_state probeCoord rng0) = 0
  /\ rouletteDraws (initial_state probeCoord rng0) = 0%nat
  /\ rouletteRescales (initial_state probeCoord rng0) = 0%nat.
Proof.
  unfold initial_state.
  by destruct (GenerateUniformSphereSample rng0) as [? ?].
Qed.

(** C8.  For every probe position and every state of the generator, the loop
    of [PathTraceFromProbe] is left within [GUARANTEED_BOUNCES_NUM + 1]
    passes (and so with any larger bound), after at most
    [GUARANTEED_BOUNCES_NUM] bounces, and neither the roulette draw nor the
    rescaling of the throughput has been executed; a pass that starts with
    [rayBounce] at [GUARANTEED_BOUNCES_NUM] breaks at once. *)
Theorem PathTraceFromProbe_stops_without_roulette
    (probeCoord : XMFLOAT4 R) (rng0 : Rng) (extra : nat) :
  (exists st',
     run_loop (Z.to_nat GUARANTEED_BOUNCES_NUM + 1 + extra)
              (initial_state probeCoord rng0) = Some st'
     /\ 0 <= rayBounce st' <= Z.max 0 GUARANTEED_BOUNCES_NUM
     /\ rouletteDraws st' = 0%nat
     /\ rouletteRescales st' = 0%nat)
  /\ (forall st : TraceState,
        GUARANTEED_BOUNCES_NUM <= rayBounce st ->
        loop_body st = (Break, st)).
Proof.
  split; [|exact loop_body_after_guaranteed].
  destruct (initial_state_counters probeCoord rng0) as (Hb & Hd & Hr).
  destruct (run_loop_terminates
              (Z.to_nat GUARANTEED_BOUNCES_NUM + 1 + extra)
              (initial_state probeCoord rng0))
    as (st' & Hrun & H1 & H2 & H3 & H4); [lia|].
  exists st'. split; [done|]. rewrite Hb in *. split; [lia|].
  split; congruence.
Qed.

End PathTraceFacts.

End LightBaker.

(** ** dx_lightbaker.cpp : the baked-data file *)
Module BakingFile.

Import LightBaker.

(** The text of the file, as the characters written to the stream. *)
Abbreviation text := (list ascii).

Definition lit (s : string) : text := list_ascii_of_string s.
Arguments lit : simpl never.

Definition newline : ascii := ascii_of_nat 10.

(** *** Numbers as the stream writes them *)

Definition digit_char (d : Z) : ascii := ascii_of_nat (48 + Z.to_nat d).

Definition is_digit (c : ascii) : bool :=
  (48 <=? nat_of_ascii c)%nat && (nat_of_ascii c <=? 57)%nat.

Definition digit_value (c : ascii) : Z := Z.of_nat (nat_of_ascii c) - 48.

(** The last [width] decimal digits of [n], most significant first. *)
Fixpoint digits_fixed (width : nat) (n : Z) : text :=
  match width with
  | O => []
  | S width' => digits_fixed width' (n / 10) ++ [digit_char (n mod 10)]
  end.

(** The decimal digits of [n >= 0] without leading zeros; [fuel] bounds the
    number of digits. *)
Fixpoint digits_fuel (fuel : nat) (n : Z) : text :=
  match fuel with
  | O => []
  | S fuel' =>
      if n <? 10 then [digit_char n]
      else digits_fuel fuel' (n / 10) ++ [digit_char (n mod 10)]
  end.

(** [operator<<] for an unsigned integer ([size_t]). *)
Definition show_unsigned (n : Z) : text :=
  digits_fuel (S (Z.to_nat (Z.log2 n))) n.

(** [operator<<] for an [int]. *)
Definition show_int (z : Z) : text :=
  if z <? 0 then "-"%char :: show_unsigned (- z) else show_unsigned z.

(** Rounding to the nearest integer, ties to even, as the conversion of a
    binary floating point number to decimal rounds. *)
Definition round_half_even (x : Q) : Z :=
  let f := Qfloor x in
  let r := (x - inject_Z f)%Q in
  match (r ?= 1 # 2)%Q with
  | Lt => f
  | Gt => f + 1
  | Eq => if Z.even f then f else f + 1
  end.

(** [operator<<] for a [float] under [std::fixed] and [setprecision(9)]: the
    sign, the integer part and nine decimals of the value rounded to a
    multiple of 10^-9. *)
Definition show_fixed9 (x : Q) : text :=
  let m := round_half_even (Qabs x * inject_Z (10 ^ 9)) in
  (if Qlt_le_dec x 0 then ["-"%char] else [])
  ++ show_unsigned (m / 10 ^ 9) ++ "."%char :: digits_fixed 9 (m mod 10 ^ 9).

(** *** Reading numbers *)

(** The value of a run of digits, by Horner's rule. *)
Fixpoint digits_value (acc : Z) (cs : text) : Z :=
  match cs with
  | [] => acc
  | c :: rest => digits_value (10 * acc + digit_value c) rest
  end.

(** The longest prefix of digits, and the rest. *)
Fixpoint span_digits (s : text) : text * text :=
  match s with
  | c :: rest =>
      if is_digit c
      then let '(ds, rest') := span_digits rest in (c :: ds, rest')
      else ([], s)
  | [] => ([], [])
  end.

Definition is_space (c : ascii) : bool :=
  let n := nat_of_ascii c in
  (n =? 32)%nat || (n =? 9)%nat || (n =? 10)%nat || (n =? 13)%nat.

Fixpoint skip_ws (s : text) : text :=
  match s with
  | c :: rest => if is_space c then skip_ws rest else s
  | [] => []
  end.

(** An unsigned run of digits, at least one. *)
Definition parse_unsigned (s : text) : option (Z * text) :=
  let '(ds, rest) := span_digits s in
  match ds with
  | [] => None
  | _ => Some (digits_value 0 ds, rest)
  end.

(** An optional minus sign in front of a number. *)
Definition split_sign (s : text) : bool * text :=
  match s with
  | "-"%char :: s' => (true, s')
  | _ => (false, s)
  end.

(** [std::stoi] on the token of the grammar's [Int] rule: an optional minus
    sign and digits; a value outside [int] throws [std::out_of_range]. *)
Definition parse_Int (s : text) : option (Z * text) :=
  let '(negative, s1) := split_sign (skip_ws s) in
  '(n, rest) ← parse_unsigned s1;
  let v := if negative : bool then - n else n in
  if (- 2 ^ 31 <=? v) && (v <=? 2 ^ 31 - 1) then Some (v, rest) else None.

(** *** Writing the file *)

(** One coefficient line: [coef.x << ", " << coef.y << ", " << coef.z]
    after a line break. *)
Definition write_coefficient (stream : text) (coef : XMFLOAT4 Q) : text :=
  stream ++ [newline] ++ show_fixed9 (xm_x coef) ++ lit ", "
         ++ show_fixed9 (xm_y coef) ++ lit ", " ++ show_fixed9 (xm_z coef).

(** The loop over the probes, [i] being the loop counter. *)
Fixpoint write_probes (stream : text) (i : nat)
    (probes : list (DiffuseProbe Q)) : text :=
  match probes with
  | [] => stream
  | probe :: rest =>
      let stream := stream ++ [newline] ++ lit "Probe "
                           ++ show_int (Z.of_nat i) in
      let stream := foldl write_coefficient stream (radianceSh probe) in
      write_probes stream (S i) rest
  end.

(** [LightBaker::SaveBakingResultsToFile]: the content handed to
    [Utils::WriteFile].  Reading an unset mode, or an unset cluster in the
    mode [CurrentPositionCluster], is [None]. *)
Definition SaveBakingResultsToFile (bakingResult : BakingData Q)
  : option string :=
  mode ← bakingMode bakingResult;
  let stream := lit "BakingMode " ++ lit (BakingModeToStr mode) in
  stream ←
    (if decide (mode = CurrentPositionCluster)
     then cluster ← bakingCluster bakingResult;
          Some (stream ++ [newline] ++ lit "BakingCluster "
                       ++ show_int cluster)
     else Some stream);
  let stream :=
    if decide (mode = AllClusters)
    then
      let stream :=
        stream ++ [newline] ++ lit "ClusterFirstProbeIndices "
               ++ show_unsigned
                    (Z.of_nat (length (clusterFirstProbeIndices bakingResult)))
      in
      foldl (fun stream firstProbeIndex =>
               stream ++ [newline] ++ show_int firstProbeIndex)
            stream (clusterFirstProbeIndices bakingResult)
    else stream in
  let stream :=
    stream ++ [newline] ++ lit "ProbeData "
           ++ show_unsigned (Z.of_nat (length (probes bakingResult))) in
  Some (string_of_list_ascii
          (write_probes stream 0 (probes bakingResult))).

(** *** Reading the file *)
Section Load.

(** The last step of [std::stof]: the decimal value is rounded to a
    [float]. *)
Variable round_to_float : Q -> Q.

Definition is_letter (c : ascii) : bool :=
  let n := nat_of_ascii c in
  ((65 <=? n)%nat && (n <=? 90)%nat) || ((97 <=? n)%nat && (n <=? 122)%nat).

Fixpoint span_letters (s : text) : text * text :=
  match s with
  | c :: rest =>
      if is_letter c
      then let '(w, rest') := span_letters rest in (c :: w, rest')
      else ([], s)
  | [] => ([], [])
  end.

Fixpoint strip_prefix (p s : text) : option text :=
  match p, s with
  | [], _ => Some s
  | c :: p', d :: s' => if Ascii.eqb c d then strip_prefix p' s' else None
  | _ :: _, [] => None
  end.

(** Modelled from the spec: the grammar of the baked-data file, which the
    parser loads from the grammar directory and which is not part of the
    sources at hand.  It follows the file format of the specification:
    the sections in order, tokens separated by blanks and line breaks, the
    three channels of a coefficient separated by commas, counts followed by
    that many entries.  The semantic actions attached to the rules are the
    ones [InitLightBakingResultParser] installs; a failed assertion or cast
    of an action is [None]. *)
Definition expect (keyword : string) (s : text) : option text :=
  strip_prefix (lit keyword) (skip_ws s).

(** Rule [Word], action: the token as a string. *)
Definition parse_Word (s : text) : option (string * text) :=
  let '(w, rest) := span_letters (skip_ws s) in
  match w with
  | [] => None
  | _ => Some (string_of_list_ascii w, rest)
  end.

(** Rule [Float], action [stof(sv.token())]: sign, integer part and
    decimals. *)
Definition parse_Float (s : text) : option (Q * text) :=
  let '(negative, s1) := split_sign (skip_ws s) in
  '(integer, s2) ← parse_unsigned s1;
  let '(value, rest) :=
    match s2 with
    | "."%char :: s3 =>
        let '(ds, rest) := span_digits s3 in
        ((inject_Z integer
          + inject_Z (digits_value 0 ds)
            / inject_Z (10 ^ Z.of_nat (length ds)))%Q, rest)
    | _ => (inject_Z integer, s2)
    end in
  Some (round_to_float (if negative : bool then (- value)%Q else value), rest).

(** Rule [Float3], action: [XMFLOAT4(x, y, z, 0)]. *)
Definition parse_Float3 (s : text) : option (XMFLOAT4 Q * text) :=
  '(x, s) ← parse_Float s;
  s ← expect "," s;
  '(y, s) ← parse_Float s;
  s ← expect "," s;
  '(z, s) ← parse_Float s;
  Some (MkXMFLOAT4 x y z 0%Q, s).

Fixpoint parse_coefficients (n : nat) (s : text)
  : option (list (XMFLOAT4 Q) * text) :=
  match n with
  | O => Some ([], s)
  | S n' =>
      '(coef, s) ← parse_Float3 s;
      '(coefs, s) ← parse_coefficients n' s;
      Some (coef :: coefs, s)
  end.

(** Rule [Probe], action: the probe index and the probe with its nine
    coefficients. *)
Definition parse_Probe (s : text) : option (Z * DiffuseProbe Q * text) :=
  s ← expect "Probe" s;
  '(probeIndex, s) ← parse_Int s;
  '(coefs, s) ← parse_coefficients 9 s;
  Some (probeIndex, MkDiffuseProbe coefs, s).

(** Rule [ProbeSection], action: the probes in order, each index checked
    against the number of probes read so far. *)
Fixpoint parse_probes (n : nat) (size : nat) (s : text)
  : option (list (DiffuseProbe Q) * text) :=
  match n with
  | O => Some ([], s)
  | S n' =>
      '(probeIndex, probe, s) ← parse_Probe s;
      if probeIndex =? Z.of_nat size
      then '(rest, s) ← parse_probes n' (S size) s;
           Some (probe :: rest, s)
      else None
  end.

Definition parse_ProbeSection (s : text)
  : option (list (DiffuseProbe Q) * text) :=
  s ← expect "ProbeData" s;
  '(probesCount, s) ← parse_Int s;
  if probesCount <? 0 then None
  else parse_probes (Z.to_nat probesCount) 0 s.

Fixpoint parse_ints (n : nat) (s : text) : option (list Z * text) :=
  match n with
  | O => Some ([], s)
  | S n' =>
      '(i, s) ← parse_Int s;
      '(rest, s) ← parse_ints n' s;
      Some (i :: rest, s)
  end.

(** The value of the second section: the rule [ClusterFirstProbeIndices]
    yields a vector of [int], the rule [BakingCluster] an [int]. *)
Inductive ClusterData : Type :=
  | FirstProbeIndices (indices : list Z)
  | Cluster (cluster : Z).

Definition parse_ClusterData (s : text) : option (ClusterData * text) :=
  match expect "ClusterFirstProbeIndices" s with
  | Some s =>
      '(sizesCount, s) ← parse_Int s;
      if sizesCount <? 0 then None
      else '(indices, s) ← parse_ints (Z.to_nat sizesCount) s;
           Some (FirstProbeIndices indices, s)
  | None =>
      s ← expect "BakingCluster" s;
      '(cluster, s) ← parse_Int s;
      Some (Cluster cluster, s)
  end.

(** Rule [LightBakingData], action: fill the [BakingData] of the context.
    [any_cast] of the second value to the type the mode asks for fails on
    the other type. *)
Definition parse_LightBakingData (s : text) : option (BakingData Q) :=
  s ← expect "BakingMode" s;
  '(word, s) ← parse_Word s;
  mode ← StrToBakingMode word;
  '(clusterData, s) ← parse_ClusterData s;
  '(probes, s) ← parse_ProbeSection s;
  match skip_ws s with
  | [] =>
      match mode, clusterData with
      | AllClusters, FirstProbeIndices indices =>
          Some (MkBakingData (Some mode) None indices probes)
      | CurrentPositionCluster, Cluster cluster =>
          Some (MkBakingData (Some mode) (Some cluster) [] probes)
      | _, _ => None
      end
  | _ => None
  end.

(** [LightBaker::LoadBakingResultsFromFile] on the content of the file. *)
Definition LoadBakingResultsFromFile (dataFileContent : string)
  : option (BakingData Q) :=
  parse_LightBakingData (list_ascii_of_string dataFileContent).

End Load.

(** A baking result with two probes, for the examples. *)
Definition demo_coefficient (k : Z) : XMFLOAT4 Q :=
  MkXMFLOAT4 (inject_Z k / 8)%Q (- (1 # 1024))%Q (3 # 2)%Q 0%Q.

Definition demo_probe : DiffuseProbe Q :=
  MkDiffuseProbe (demo_coefficient <$> seqZ 0 9).

Definition demo_cluster_result : BakingData Q :=
  MkBakingData (Some CurrentPositionCluster) (Some 1) []
               [demo_probe; demo_probe].

Definition demo_all_result : BakingData Q :=
  MkBakingData (Some AllClusters) None [0; 1; 1] [demo_probe; demo_probe].

(** A number format for the examples: the multiples of 2^-24, with
    rounding to the nearest multiple (ties to even). *)
Definition on_grid (q : Q) : Prop :=
  Qden (Qred (q * inject_Z (2 ^ 24))) = 1%positive.

Definition round_to_grid (q : Q) : Q :=
  (inject_Z (round_half_even (q * inject_Z (2 ^ 24))) / inject_Z (2 ^ 24))%Q.

(** *** Digits *)

Lemma digit_char_spec (d : Z) :
  0 <= d <= 9 ->
  is_digit (digit_char d) = true /\ digit_value (digit_char d) = d.
Proof.
  intros Hd.
  assert (d = 0 \/ d = 1 \/ d = 2 \/ d = 3 \/ d = 4 \/ d = 5 \/ d = 6
          \/ d = 7 \/ d = 8 \/ d = 9) as Hcases by lia.
  repeat (destruct Hcases as [->|Hcases]; [split; reflexivity|]).
  subst. split; reflexivity.
Qed.

Lemma mod10_digit (n : Z) : 0 <= n mod 10 <= 9.
Proof. pose proof (Z.mod_pos_bound n 10). lia. Qed.

Lemma digits_value_app (acc : Z) (l1 l2 : text) :
  digits_value acc (l1 ++ l2) = digits_value (digits_value acc l1) l2.
Proof. revert acc. induction l1 as [|c l1 IH]; intros acc; simpl; auto. Qed.

Lemma digits_fixed_length (width : nat) (n : Z) :
  length (digits_fixed width n) = width.
Proof.
  revert n. induction width as [|w IH]; intros n; simpl; [done|].
  rewrite length_app, IH. simpl. lia.
Qed.

Lemma digits_fixed_digits (width : nat) (n : Z) :
  Forall (fun c => is_digit c = true) (digits_fixed width n).
Proof.
  revert n. induction width as [|w IH]; intros n; simpl; [constructor|].
  apply Forall_app. split; [apply IH|].
  constructor; [|constructor].
  apply digit_char_spec. apply mod10_digit.
Qed.

Lemma digits_fixed_value (width : nat) (n : Z) :
  0 <= n < 10 ^ Z.of_nat width ->
  digits_value 0 (digits_fixed width n) = n.
Proof.
  revert n. induction width as [|w IH]; intros n Hn.
  - simpl in *. lia.
  - simpl. rewrite digits_value_app. simpl.
    rewrite Nat2Z.inj_succ, Z.pow_succ_r in Hn by lia.
    rewrite IH.
    + destruct (digit_char_spec (n mod 10)) as [_ ->];
        [apply mod10_digit|].
      pose proof (Z.div_mod n 10). lia.
    + split; [apply Z.div_pos; lia|].
      apply Z.div_lt_upper_bound; lia.
Qed.

Lemma digits_fuel_digits (fuel : nat) (n : Z) :
  0 <= n -> Forall (fun c => is_digit c = true) (digits_fuel fuel n).
Proof.
  revert n. induction fuel as [|f IH]; intros n Hn; simpl; [constructor|].
  destruct (Z.ltb_spec n 10).
  - constructor; [|constructor]. apply digit_char_spec. lia.
  - apply Forall_app. split; [apply IH; apply Z.div_pos; lia|].
    constructor; [|constructor].
    apply digit_char_spec. apply mod10_digit.
Qed.

Lemma digits_fuel_value (fuel : nat) (n : Z) :
  0 <= n < 2 ^ Z.of_nat fuel -> digits_value 0 (digits_fuel fuel n) = n.
Proof.
  revert n. induction fuel as [|f IH]; intros n Hn.
  - simpl in *. lia.
  - simpl. rewrite Nat2Z.inj_succ, Z.pow_succ_r in Hn by lia.
    destruct (Z.ltb_spec n 10).
    + simpl. destruct (digit_char_spec n) as [_ ->]; lia.
    + rewrite digits_value_app. simpl. rewrite IH.
      * destruct (digit_char_spec (n mod 10)) as [_ ->];
          [apply mod10_digit|].
        pose proof (Z.div_mod n 10). lia.
      * split; [apply Z.div_pos; lia|].
        apply Z.div_lt_upper_bound; lia.
Qed.

Lemma digits_fuel_nonempty (fuel : nat) (n : Z) :
  digits_fuel (S fuel) n <> [].
Proof.
  simpl. destruct (n <? 10); [done|].
  intros H. apply app_eq_nil in H as [_ H]. discriminate.
Qed.

Lemma show_unsigned_digits (n : Z) :
  0 <= n -> Forall (fun c => is_digit c = true) (show_unsigned n).
Proof. apply digits_fuel_digits. Qed.

Lemma show_unsigned_nonempty (n : Z) : show_unsigned n <> [].
Proof. apply digits_fuel_nonempty. Qed.

Lemma show_unsigned_value (n : Z) :
  0 <= n -> digits_value 0 (show_unsigned n) = n.
Proof.
  intros Hn. apply digits_fuel_value. split; [done|].
  rewrite Nat2Z.inj_succ, Z2Nat.id by apply Z.log2_nonneg.
  destruct (Z.eq_dec n 0) as [->|Hne]; [reflexivity|].
  apply Z.log2_spec. lia.
Qed.

(** A text at which a run of digits stops: the end, or a character that is
    no digit. *)
Definition stops_digits (rest : text) : Prop :=
  match rest with
  | [] => True
  | c :: _ => is_digit c = false
  end.

Lemma span_digits_app (ds rest : text) :
  Forall (fun c => is_digit c = true) ds -> stops_digits rest ->
  span_digits (ds ++ rest) = (ds, rest).
Proof.
  intros Hds Hrest. induction Hds as [|c ds Hc _ IH]; simpl.
  - destruct rest as [|c rest]; simpl in *; [done|]. by rewrite Hrest.
  - by rewrite Hc, IH.
Qed.

Lemma parse_unsigned_show (n : Z) (rest : text) :
  0 <= n -> stops_digits rest ->
  parse_unsigned (show_unsigned n ++ rest) = Some (n, rest).
Proof.
  intros Hn Hrest. unfold parse_unsigned.
  rewrite span_digits_app by (by try apply show_unsigned_digits).
  rewrite show_unsigned_value by done.
  pose proof (show_unsigned_nonempty n).
  by destruct (show_unsigned n).
Qed.

(** A text that starts with a character that is no blank. *)
Definition starts_token (s : text) : Prop :=
  match s with
  | [] => False
  | c :: _ => is_space c = false
  end.

Lemma skip_ws_token (s : text) : starts_token s -> skip_ws s = s.
Proof. destruct s as [|c s]; simpl; [done|]. by intros ->. Qed.

Lemma skip_ws_app (ws s : text) :
  Forall (fun c => is_space c = true) ws -> skip_ws (ws ++ s) = skip_ws s.
Proof. intros Hws. induction Hws as [|c ws Hc _ IH]; simpl; [done|]. by rewrite Hc. Qed.

Lemma digit_not_space (c : ascii) : is_digit c = true -> is_space c = false.
Proof.
  unfold is_digit, is_space. intros H.
  apply andb_true_iff in H as [H1 H2].
  apply Nat.leb_le in H1. apply Nat.leb_le in H2.
  repeat (apply orb_false_iff; split); apply Nat.eqb_neq; lia.
Qed.

Lemma show_unsigned_token (n : Z) (rest : text) :
  0 <= n -> starts_token (show_unsigned n ++ rest).
Proof.
  intros Hn. pose proof (show_unsigned_digits n Hn) as Hd.
  pose proof (show_unsigned_nonempty n) as Hne.
  destruct (show_unsigned n) as [|c l]; [done|]. simpl.
  apply digit_not_space. by inversion Hd.
Qed.

Lemma show_int_token (z : Z) (rest : text) : starts_token (show_int z ++ rest).
Proof.
  unfold show_int. destruct (Z.ltb_spec z 0); [reflexivity|].
  by apply show_unsigned_token.
Qed.

Lemma split_sign_digit (c : ascii) (s : text) :
  is_digit c = true -> split_sign (c :: s) = (false, c :: s).
Proof.
  intros Hc. unfold split_sign.
  destruct c as [[] [] [] [] [] [] [] []]; try reflexivity. discriminate.
Qed.

Lemma split_sign_show_unsigned (n : Z) (rest : text) :
  0 <= n ->
  split_sign (show_unsigned n ++ rest) = (false, show_unsigned n ++ rest).
Proof.
  intros Hn. pose proof (show_unsigned_digits n Hn) as Hd.
  pose proof (show_unsigned_nonempty n) as Hne.
  destruct (show_unsigned n) as [|c l]; [done|].
  cbn [app]. apply split_sign_digit. by inversion Hd.
Qed.

(** Reading back an [int] that the stream wrote. *)
Lemma parse_Int_show (z : Z) (ws rest : text) :
  Forall (fun c => is_space c = true) ws ->
  - 2 ^ 31 <= z <= 2 ^ 31 - 1 -> stops_digits rest ->
  parse_Int (ws ++ show_int z ++ rest) = Some (z, rest).
Proof.
  intros Hws Hz Hrest. unfold parse_Int.
  rewrite skip_ws_app, skip_ws_token by (done || apply show_int_token).
  assert (Hrange : (- 2 ^ 31 <=? z) && (z <=? 2 ^ 31 - 1) = true).
  { apply andb_true_iff. split; apply Z.leb_le; lia. }
  unfold show_int. destruct (Z.ltb_spec z 0) as [Hneg|Hpos].
  - cbn [app split_sign]. rewrite parse_unsigned_show by (done || lia).
    cbn. rewrite Z.opp_involutive, Hrange. reflexivity.
  - rewrite split_sign_show_unsigned, parse_unsigned_show by done.
    cbn. rewrite Hrange. reflexivity.
Qed.

(** *** Decimals *)

Lemma round_half_even_error (q : Q) :
  (Qabs (inject_Z (round_half_even q) - q) <= 1 # 2)%Q.
Proof.
  unfold round_half_even. cbv zeta.
  pose proof (Qfloor_le q) as Hlo. pose proof (Qlt_floor q) as Hhi.
  rewrite inject_Z_plus in Hhi. change (inject_Z 1) with 1%Q in Hhi.
  apply Qabs_Qle_condition.
  destruct (q - inject_Z (Qfloor q) ?= 1 # 2)%Q eqn:Hcmp.
  - apply Qeq_alt in Hcmp.
    destruct (Z.even (Qfloor q));
      [|rewrite inject_Z_plus; change (inject_Z 1) with 1%Q]; lra.
  - apply Qlt_alt in Hcmp. lra.
  - apply Qgt_alt in Hcmp.
    rewrite inject_Z_plus. change (inject_Z 1) with 1%Q. lra.
Qed.

Lemma round_half_even_nonneg (q : Q) : (0 <= q)%Q -> 0 <= round_half_even q.
Proof.
  intros Hq. unfold round_half_even. cbv zeta.
  assert (0 <= Qfloor q).
  { change 0 with (Qfloor 0). by apply Qfloor_resp_le. }
  destruct (q - inject_Z (Qfloor q) ?= 1 # 2)%Q; [|lia|lia].
  destruct (Z.even (Qfloor q)); lia.
Qed.

(** The decimal value that [show_fixed9] writes. *)
Definition fixed9_value (x : Q) : Q :=
  let m := round_half_even (Qabs x * inject_Z (10 ^ 9)) in
  let value :=
    (inject_Z (m / 10 ^ 9)
     + inject_Z (digits_value 0 (digits_fixed 9 (m mod 10 ^ 9)))
       / inject_Z (10 ^ Z.of_nat (length (digits_fixed 9 (m mod 10 ^ 9)))))%Q
  in
  if Qlt_le_dec x 0 then (- value)%Q else value.

Lemma fixed9_value_close (x : Q) :
  (Qabs (fixed9_value x - x) <= 1 # 2000000000)%Q.
Proof.
  unfold fixed9_value. cbv zeta.
  set (m := round_half_even (Qabs x * inject_Z (10 ^ 9))).
  pose proof (round_half_even_error (Qabs x * inject_Z (10 ^ 9))) as Herr.
  fold m in Herr. apply Qabs_Qle_condition in Herr.
  assert (Hm : 0 <= m).
  { apply round_half_even_nonneg. apply Qmult_le_0_compat; [|done].
    apply Qabs_nonneg. }
  rewrite digits_fixed_length, digits_fixed_value
    by (apply Z.mod_pos_bound; lia).
  assert (Hsplit : (inject_Z (m / 10 ^ 9)
                    + inject_Z (m mod 10 ^ 9) / inject_Z (10 ^ Z.of_nat 9)
                    == inject_Z m / 1000000000)%Q).
  { rewrite (Z.div_mod m (10 ^ 9)) at 3 by lia.
    rewrite inject_Z_plus, inject_Z_mult.
    change (inject_Z (10 ^ Z.of_nat 9)) with 1000000000%Q.
    change (inject_Z (10 ^ 9)) with 1000000000%Q. field. }
  change (inject_Z (10 ^ 9)) with 1000000000%Q in Herr.
  assert (Hv : (inject_Z m == inject_Z m / 1000000000 * 1000000000)%Q)
    by field.
  set (v := (inject_Z m / 1000000000)%Q) in *.
  apply Qabs_Qle_condition.
  destruct (Qlt_le_dec x 0) as [Hneg|Hpos]; rewrite Hsplit.
  - rewrite Qabs_neg in Herr by lra. lra.
  - rewrite Qabs_pos in Herr by lra. lra.
Qed.

Lemma parse_Float_show (round_to_float : Q -> Q) (x : Q) (ws rest : text) :
  Forall (fun c => is_space c = true) ws -> stops_digits rest ->
  parse_Float round_to_float (ws ++ show_fixed9 x ++ rest)
  = Some (round_to_float (fixed9_value x), rest).
Proof.
  intros Hws Hrest. unfold parse_Float, show_fixed9, fixed9_value. cbv zeta.
  set (m := round_half_even (Qabs x * inject_Z (10 ^ 9))).
  assert (Hm : 0 <= m).
  { apply round_half_even_nonneg. apply Qmult_le_0_compat; [|done].
    apply Qabs_nonneg. }
  assert (Hip : 0 <= m / 10 ^ 9) by (apply Z.div_pos; lia).
  rewrite skip_ws_app by done. rewrite <- !app_assoc.
  assert (Hfrac : span_digits (digits_fixed 9 (m mod 10 ^ 9) ++ rest)
                  = (digits_fixed 9 (m mod 10 ^ 9), rest)).
  { apply span_digits_app; [apply digits_fixed_digits|done]. }
  destruct (Qlt_le_dec x 0) as [Hneg|Hpos]; cbn [app].
  - rewrite skip_ws_token by reflexivity. cbn [split_sign].
    rewrite parse_unsigned_show by done. cbn [mbind option_bind].
    by rewrite Hfrac.
  - rewrite skip_ws_token by (by apply show_unsigned_token).
    rewrite split_sign_show_unsigned, parse_unsigned_show by done.
    cbn [mbind option_bind]. by rewrite Hfrac.
Qed.

(** *** Keywords *)

Lemma expect_comma (rest : text) :
  expect "," (lit ", " ++ rest) = Some (" "%char :: rest).
Proof. reflexivity. Qed.

Lemma expect_Probe (rest : text) :
  expect "Probe" (newline :: lit "Probe " ++ rest) = Some (" "%char :: rest).
Proof. reflexivity. Qed.

Lemma expect_ProbeData (rest : text) :
  expect "ProbeData" (newline :: lit "ProbeData " ++ rest)
  = Some (" "%char :: rest).
Proof. reflexivity. Qed.

Lemma expect_BakingMode (rest : text) :
  expect "BakingMode" (lit "BakingMode " ++ rest) = Some (" "%char :: rest).
Proof. reflexivity. Qed.

Lemma parse_Word_mode (mode : LightBakingMode) (rest : text) :
  parse_Word (" "%char :: lit (BakingModeToStr mode) ++ newline :: rest)
  = Some (BakingModeToStr mode, newline :: rest).
Proof. by destruct mode. Qed.

Lemma expect_ClusterFirstProbeIndices (rest : text) :
  expect "ClusterFirstProbeIndices"
    (newline :: lit "ClusterFirstProbeIndices " ++ rest)
  = Some (" "%char :: rest).
Proof. reflexivity. Qed.

Lemma expect_ClusterFirstProbeIndices_other (rest : text) :
  expect "ClusterFirstProbeIndices" (newline :: lit "BakingCluster " ++ rest)
  = None.
Proof. reflexivity. Qed.

Lemma expect_BakingCluster (rest : text) :
  expect "BakingCluster" (newline :: lit "BakingCluster " ++ rest)
  = Some (" "%char :: rest).
Proof. reflexivity. Qed.

(** From here on the keywords are not unfolded into their characters. *)
Opaque lit.

(** *** The text of the file, piece by piece *)

Definition coefficient_text (coef : XMFLOAT4 Q) : text :=
  newline :: show_fixed9 (xm_x coef) ++ lit ", "
          ++ show_fixed9 (xm_y coef) ++ lit ", " ++ show_fixed9 (xm_z coef).

Definition coefficients_text (coefs : list (XMFLOAT4 Q)) : text :=
  concat (coefficient_text <$> coefs).

Fixpoint probes_text (i : nat) (probes : list (DiffuseProbe Q)) : text :=
  match probes with
  | [] => []
  | probe :: rest =>
      (newline :: lit "Probe " ++ show_int (Z.of_nat i)
               ++ coefficients_text (radianceSh probe))
      ++ probes_text (S i) rest
  end.

Definition indices_text (indices : list Z) : text :=
  concat ((fun i => newline :: show_int i) <$> indices).

(** Appends in right-nested form. *)
Ltac norm_text :=
  repeat first [ rewrite <- app_assoc
               | rewrite <- app_comm_cons
               | rewrite app_nil_l ].

Lemma foldl_write_coefficient (stream : text) (coefs : list (XMFLOAT4 Q)) :
  foldl write_coefficient stream coefs = stream ++ coefficients_text coefs.
Proof.
  revert stream. induction coefs as [|coef coefs IH]; intros stream.
  - by rewrite app_nil_r.
  - cbn [foldl]. rewrite IH. unfold write_coefficient, coefficients_text.
    cbn [fmap list_fmap concat]. unfold coefficient_text.
    norm_text. reflexivity.
Qed.

Lemma write_probes_text (stream : text) (i : nat)
    (probes : list (DiffuseProbe Q)) :
  write_probes stream i probes = stream ++ probes_text i probes.
Proof.
  revert stream i. induction probes as [|probe probes IH]; intros stream i.
  - by rewrite app_nil_r.
  - cbn [write_probes probes_text]. rewrite foldl_write_coefficient, IH.
    norm_text. reflexivity.
Qed.

Lemma foldl_write_index (stream : text) (indices : list Z) :
  foldl (fun stream firstProbeIndex =>
           stream ++ [newline] ++ show_int firstProbeIndex) stream indices
  = stream ++ indices_text indices.
Proof.
  revert stream. induction indices as [|i indices IH]; intros stream.
  - by rewrite app_nil_r.
  - cbn [foldl]. rewrite IH. unfold indices_text.
    cbn [fmap list_fmap concat]. norm_text. reflexivity.
Qed.

(** The second section of the file for a mode. *)
Definition cluster_text (mode : LightBakingMode)
    (bakingResult : BakingData Q) : option text :=
  match mode with
  | CurrentPositionCluster =>
      cluster ← bakingCluster bakingResult;
      Some (newline :: lit "BakingCluster " ++ show_int cluster)
  | AllClusters =>
      Some (newline :: lit "ClusterFirstProbeIndices "
              ++ show_unsigned
                   (Z.of_nat (length (clusterFirstProbeIndices bakingResult)))
              ++ indices_text (clusterFirstProbeIndices bakingResult))
  end.

(** The file is the mode line, the cluster section, the probe count and the
    probes. *)
Lemma SaveBakingResultsToFile_text (bakingResult : BakingData Q)
    (content : string) :
  SaveBakingResultsToFile bakingResult = Some content ->
  exists mode clusterSection,
    bakingMode bakingResult = Some mode
    /\ cluster_text mode bakingResult = Some clusterSection
    /\ list_ascii_of_string content
       = lit "BakingMode " ++ lit (BakingModeToStr mode) ++ clusterSection
         ++ newline :: lit "ProbeData "
         ++ show_unsigned (Z.of_nat (length (probes bakingResult)))
         ++ probes_text 0 (probes bakingResult).
Proof.
  unfold SaveBakingResultsToFile. intros Hsave.
  destruct (bakingMode bakingResult) as [mode|]; [|discriminate].
  cbn [mbind option_bind] in Hsave. exists mode.
  destruct mode.
  - cbn in Hsave. injection Hsave as <-.
    eexists. split; [done|]. split; [reflexivity|].
    rewrite list_ascii_of_string_of_list_ascii, write_probes_text.
    rewrite foldl_write_index. norm_text. reflexivity.
  - cbn [decide decide_rel LightBakingMode_eq_dec] in Hsave.
    cbn [cluster_text].
    destruct (bakingCluster bakingResult) as [cluster|]; [|discriminate].
    cbn in Hsave. injection Hsave as <-.
    eexists. split; [done|]. split; [reflexivity|].
    rewrite list_ascii_of_string_of_list_ascii, write_probes_text.
    norm_text. reflexivity.
Qed.

(** *** Reading the text back *)

(** The end of the text or a line break: where every number of the file
    stops. *)
Definition line_start (rest : text) : Prop :=
  rest = [] \/ exists rest', rest = newline :: rest'.

Lemma line_start_stops (rest : text) : line_start rest -> stops_digits rest.
Proof. by intros [->|[rest' ->]]. Qed.

Lemma line_start_cons (rest : text) : line_start (newline :: rest).
Proof. right. by exists rest. Qed.

Lemma parse_Int_space (z : Z) (rest : text) :
  - 2 ^ 31 <= z <= 2 ^ 31 - 1 -> stops_digits rest ->
  parse_Int (" "%char :: show_int z ++ rest) = Some (z, rest).
Proof.
  intros Hz Hrest.
  apply (parse_Int_show z [" "%char] rest); [|done|done].
  by constructor.
Qed.

Lemma parse_Int_line (z : Z) (rest : text) :
  - 2 ^ 31 <= z <= 2 ^ 31 - 1 -> stops_digits rest ->
  parse_Int (newline :: show_int z ++ rest) = Some (z, rest).
Proof.
  intros Hz Hrest.
  apply (parse_Int_show z [newline] rest); [|done|done].
  by constructor.
Qed.

Lemma show_int_nonneg (z : Z) : 0 <= z -> show_int z = show_unsigned z.
Proof. intros Hz. unfold show_int. by destruct (Z.ltb_spec z 0); [lia|]. Qed.

Section ReadBack.

Variable round_to_float : Q -> Q.

(** What the parser makes of a coefficient, a probe and a baking result that
    the writer wrote. *)
Definition read_coefficient (coef : XMFLOAT4 Q) : XMFLOAT4 Q :=
  MkXMFLOAT4 (round_to_float (fixed9_value (xm_x coef)))
             (round_to_float (fixed9_value (xm_y coef)))
             (round_to_float (fixed9_value (xm_z coef))) 0%Q.

Definition read_probe (probe : DiffuseProbe Q) : DiffuseProbe Q :=
  MkDiffuseProbe (read_coefficient <$> radianceSh probe).

Definition read_back (mode : LightBakingMode) (bakingResult : BakingData Q)
  : BakingData Q :=
  match mode with
  | AllClusters =>
      MkBakingData (Some mode) None (clusterFirstProbeIndices bakingResult)
                   (read_probe <$> probes bakingResult)
  | CurrentPositionCluster =>
      MkBakingData (Some mode) (bakingCluster bakingResult) []
                   (read_probe <$> probes bakingResult)
  end.

Lemma parse_Float_line (x : Q) (rest : text) :
  stops_digits rest ->
  parse_Float round_to_float (newline :: show_fixed9 x ++ rest)
  = Some (round_to_float (fixed9_value x), rest).
Proof.
  intros Hrest.
  apply (parse_Float_show round_to_float x [newline] rest); [|done].
  by constructor.
Qed.

Lemma parse_Float_space (x : Q) (rest : text) :
  stops_digits rest ->
  parse_Float round_to_float (" "%char :: show_fixed9 x ++ rest)
  = Some (round_to_float (fixed9_value x), rest).
Proof.
  intros Hrest.
  apply (parse_Float_show round_to_float x [" "%char] rest); [|done].
  by constructor.
Qed.

Lemma parse_Float3_text (coef : XMFLOAT4 Q) (rest : text) :
  stops_digits rest ->
  parse_Float3 round_to_float (coefficient_text coef ++ rest)
  = Some (read_coefficient coef, rest).
Proof.
  intros Hrest. unfold parse_Float3, coefficient_text. norm_text.
  rewrite parse_Float_line by done.
  cbn [mbind option_bind]. rewrite expect_comma. cbn [mbind option_bind].
  rewrite parse_Float_space by done.
  cbn [mbind option_bind]. rewrite expect_comma. cbn [mbind option_bind].
  rewrite parse_Float_space by done.
  reflexivity.
Qed.

Lemma line_start_coefficients (coefs : list (XMFLOAT4 Q)) (rest : text) :
  line_start rest -> line_start (coefficients_text coefs ++ rest).
Proof.
  intros Hrest. destruct coefs as [|coef coefs]; [done|].
  unfold coefficients_text, coefficient_text. cbn [fmap list_fmap concat].
  norm_text. apply line_start_cons.
Qed.

Lemma parse_coefficients_text (coefs : list (XMFLOAT4 Q)) (rest : text) :
  line_start rest ->
  parse_coefficients round_to_float (length coefs)
    (coefficients_text coefs ++ rest)
  = Some (read_coefficient <$> coefs, rest).
Proof.
  intros Hrest. induction coefs as [|coef coefs IH]; [done|].
  cbn [length parse_coefficients].
  change (coefficients_text (coef :: coefs))
    with (coefficient_text coef ++ coefficients_text coefs).
  rewrite <- app_assoc.
  rewrite parse_Float3_text
    by (apply line_start_stops, line_start_coefficients, Hrest).
  cbn [mbind option_bind]. rewrite IH. reflexivity.
Qed.

Lemma line_start_probes (i : nat) (probes : list (DiffuseProbe Q))
    (rest : text) :
  line_start rest -> line_start (probes_text i probes ++ rest).
Proof.
  intros Hrest. destruct probes as [|probe probes]; [done|].
  cbn [probes_text]. norm_text. apply line_start_cons.
Qed.

Lemma parse_probes_text (probes : list (DiffuseProbe Q)) (i : nat)
    (rest : text) :
  Forall (fun probe => length (radianceSh probe) = 9%nat) probes ->
  Z.of_nat (i + length probes) <= 2 ^ 31 ->
  line_start rest ->
  parse_probes round_to_float (length probes) i
    (probes_text i probes ++ rest)
  = Some (read_probe <$> probes, rest).
Proof.
  intros Hnine. revert i.
  induction Hnine as [|probe probes Hlen _ IH]; intros i Hi Hrest; [done|].
  cbn [length parse_probes probes_text]. unfold parse_Probe. norm_text.
  rewrite expect_Probe. cbn [mbind option_bind].
  cbn [length] in Hi.
  rewrite parse_Int_space;
    [|lia|apply line_start_stops, line_start_coefficients,
            line_start_probes, Hrest].
  cbn [mbind option_bind]. rewrite <- Hlen.
  rewrite parse_coefficients_text by apply line_start_probes, Hrest.
  cbn [mbind option_bind]. rewrite Z.eqb_refl.
  rewrite IH by (done || lia). reflexivity.
Qed.

Lemma parse_ProbeSection_text (probes : list (DiffuseProbe Q)) (rest : text) :
  Forall (fun probe => length (radianceSh probe) = 9%nat) probes ->
  Z.of_nat (length probes) <= 2 ^ 31 - 1 ->
  line_start rest ->
  parse_ProbeSection round_to_float
    (newline :: lit "ProbeData "
       ++ show_unsigned (Z.of_nat (length probes))
       ++ probes_text 0 probes ++ rest)
  = Some (read_probe <$> probes, rest).
Proof.
  intros Hnine Hlen Hrest. unfold parse_ProbeSection.
  rewrite expect_ProbeData. cbn [mbind option_bind].
  rewrite <- show_int_nonneg by lia.
  rewrite parse_Int_space
    by (lia || apply line_start_stops, line_start_probes, Hrest).
  cbn [mbind option_bind].
  destruct (Z.ltb_spec (Z.of_nat (length probes)) 0) as [?|_]; [lia|].
  rewrite Nat2Z.id. by apply parse_probes_text; [|lia|].
Qed.

Lemma line_start_indices (indices : list Z) (rest : text) :
  line_start rest -> line_start (indices_text indices ++ rest).
Proof.
  intros Hrest. destruct indices as [|i indices]; [done|].
  unfold indices_text. cbn [fmap list_fmap concat]. norm_text.
  apply line_start_cons.
Qed.

Lemma parse_ints_text (indices : list Z) (rest : text) :
  Forall (fun i => - 2 ^ 31 <= i <= 2 ^ 31 - 1) indices ->
  line_start rest ->
  parse_ints (length indices) (indices_text indices ++ rest)
  = Some (indices, rest).
Proof.
  intros Hrange Hrest. induction Hrange as [|i indices Hi _ IH]; [done|].
  cbn [length parse_ints].
  change (indices_text (i :: indices))
    with ((newline :: show_int i) ++ indices_text indices).
  norm_text.
  rewrite parse_Int_line
    by (done || apply line_start_stops, line_start_indices, Hrest).
  cbn [mbind option_bind]. rewrite IH. reflexivity.
Qed.

End ReadBack.

(** *** C2: the token of the mode line *)

Lemma cluster_text_line (mode : LightBakingMode) (bakingResult : BakingData Q)
    (clusterSection : text) :
  cluster_text mode bakingResult = Some clusterSection ->
  exists rest, clusterSection = newline :: rest.
Proof.
  destruct mode; cbn [cluster_text].
  - intros [= <-]. by eexists.
  - destruct (bakingCluster bakingResult); [|done].
    cbn. intros [= <-]. by eexists.
Qed.

Lemma StrToBakingMode_BakingModeToStr (mode : LightBakingMode) :
  StrToBakingMode (BakingModeToStr mode) = Some mode.
Proof. by destruct mode. Qed.

(** The file starts with the line [BakingMode <token>], where the token is
    the entry of [LightBakingMode_Str] for the mode: [AllCluster] (without a
    final s) for the mode [AllClusters] and [CurrentPositionCluster] for the
    mode [CurrentPositionCluster]; the reader maps the token back to the
    mode. *)
Theorem BakingMode_section_token (bakingResult : BakingData Q)
    (content : string) :
  SaveBakingResultsToFile bakingResult = Some content ->
  exists (mode : LightBakingMode) (rest : text),
    bakingMode bakingResult = Some mode
    /\ list_ascii_of_string content
       = lit "BakingMode "
         ++ lit (match mode with
                 | AllClusters => "AllCluster"
                 | CurrentPositionCluster => "CurrentPositionCluster"
                 end)
         ++ newline :: rest
    /\ StrToBakingMode (match mode with
                        | AllClusters => "AllCluster"
                        | CurrentPositionCluster => "CurrentPositionCluster"
                        end) = Some mode.
Proof.
  intros Hsave.
  destruct (SaveBakingResultsToFile_text _ _ Hsave)
    as (mode & clusterSection & Hmode & Hcluster & Htext).
  destruct (cluster_text_line _ _ _ Hcluster) as [rest' ->].
  exists mode. eexists. split; [done|]. split.
  - rewrite Htext. destruct mode; norm_text; reflexivity.
  - by destruct mode.
Qed.

Lemma BakingMode_section_token_witness :
  exists (content : string) (mode : LightBakingMode) (rest : text),
    SaveBakingResultsToFile demo_all_result = Some content
    /\ bakingMode demo_all_result = Some mode
    /\ list_ascii_of_string content
       = lit "BakingMode "
         ++ lit (match mode with
                 | AllClusters => "AllCluster"
                 | CurrentPositionCluster => "CurrentPositionCluster"
                 end)
         ++ newline :: rest
    /\ StrToBakingMode (match mode with
                        | AllClusters => "AllCluster"
                        | CurrentPositionCluster => "CurrentPositionCluster"
                        end) = Some mode.
Proof.
  destruct (SaveBakingResultsToFile demo_all_result) as [content|] eqn:Hsave;
    [|vm_compute in Hsave; discriminate].
  destruct (BakingMode_section_token demo_all_result content Hsave)
    as (mode & rest & H).
  exists content, mode, rest. split; [reflexivity|exact H].
Defined.

(** C2 (code defect).  The claim says the mode line carries the token
    [AllClusters] for the mode [AllClusters].  The first entry of
    [LightBakingMode_Str] is spelled [AllCluster]: for a result baked in the
    mode [AllClusters] the first line of the file is [BakingMode AllCluster],
    the token ends before the line break and is not [AllClusters]. *)
Theorem AllClusters_token_is_AllCluster :
  BakingModeToStr AllClusters = "AllCluster"
  /\ String.eqb (BakingModeToStr AllClusters) "AllClusters" = false
  /\ exists rest,
       list_ascii_of_string <$> SaveBakingResultsToFile demo_all_result
       = Some (lit "BakingMode AllCluster" ++ newline :: rest).
Proof.
  split; [reflexivity|]. split; [reflexivity|].
  eexists. vm_compute. reflexivity.
Qed.

(** *** C1: writing a baking result and reading it back *)

Definition int_range (z : Z) : Prop := - 2 ^ 31 <= z <= 2 ^ 31 - 1.

(** A completed baking result: the mode is set, the data of the mode is
    there and consists of [int] values, the probe count fits an [int],
    every probe has its nine coefficients, and the colour channels are
    [float] values. *)
Definition completed (is_float : Q -> Prop) (bakingResult : BakingData Q)
  : Prop :=
  match bakingMode bakingResult with
  | Some CurrentPositionCluster =>
      exists cluster,
        bakingCluster bakingResult = Some cluster /\ int_range cluster
  | Some AllClusters =>
      Forall int_range (clusterFirstProbeIndices bakingResult)
      /\ Z.of_nat (length (clusterFirstProbeIndices bakingResult))
         <= 2 ^ 31 - 1
  | None => False
  end
  /\ Z.of_nat (length (probes bakingResult)) <= 2 ^ 31 - 1
  /\ Forall (fun probe => length (radianceSh probe) = 9%nat)
            (probes bakingResult)
  /\ Forall (fun probe =>
               Forall (fun coef => is_float (xm_x coef)
                                   /\ is_float (xm_y coef)
                                   /\ is_float (xm_z coef))
                      (radianceSh probe))
            (probes bakingResult).

Lemma parse_ClusterData_text (mode : LightBakingMode)
    (bakingResult : BakingData Q) (clusterSection rest : text) :
  cluster_text mode bakingResult = Some clusterSection ->
  match mode with
  | CurrentPositionCluster =>
      exists cluster,
        bakingCluster bakingResult = Some cluster /\ int_range cluster
  | AllClusters =>
      Forall int_range (clusterFirstProbeIndices bakingResult)
      /\ Z.of_nat (length (clusterFirstProbeIndices bakingResult))
         <= 2 ^ 31 - 1
  end ->
  line_start rest ->
  parse_ClusterData (clusterSection ++ rest)
  = Some (match mode with
          | AllClusters =>
              FirstProbeIndices (clusterFirstProbeIndices bakingResult)
          | CurrentPositionCluster =>
              Cluster (default 0 (bakingCluster bakingResult))
          end, rest).
Proof.
  intros Hsection Hdata Hrest. unfold parse_ClusterData.
  destruct mode; cbn [cluster_text] in Hsection.
  - injection Hsection as <-. destruct Hdata as [Hrange Hlen]. norm_text.
    rewrite expect_ClusterFirstProbeIndices.
    rewrite <- show_int_nonneg by lia.
    rewrite parse_Int_space
      by (unfold int_range in *; lia
          || apply line_start_stops, line_start_indices, Hrest).
    cbn [mbind option_bind].
    destruct (Z.ltb_spec
                (Z.of_nat (length (clusterFirstProbeIndices bakingResult))) 0)
      as [?|_]; [lia|].
    rewrite Nat2Z.id, parse_ints_text by done. reflexivity.
  - destruct Hdata as (cluster & Hcluster & Hrange).
    rewrite Hcluster in Hsection |- *. cbn in Hsection.
    injection Hsection as <-. norm_text.
    rewrite expect_ClusterFirstProbeIndices_other, expect_BakingCluster.
    cbn [mbind option_bind].
    rewrite parse_Int_space by (done || by apply line_start_stops).
    reflexivity.
Qed.

(** What the writer wrote is read back as [read_back] of the result. *)
Lemma LoadBakingResultsFromFile_SaveBakingResultsToFile
    (round_to_float : Q -> Q) (is_float : Q -> Prop)
    (bakingResult : BakingData Q) :
  completed is_float bakingResult ->
  exists (content : string) (mode : LightBakingMode),
    bakingMode bakingResult = Some mode
    /\ SaveBakingResultsToFile bakingResult = Some content
    /\ LoadBakingResultsFromFile round_to_float content
       = Some (read_back round_to_float mode bakingResult).
Proof.
  intros (Hdata & Hcount & Hnine & _).
  destruct (bakingMode bakingResult) as [mode|] eqn:Hmode; [|done].
  assert (exists content, SaveBakingResultsToFile bakingResult = Some content)
    as [content Hsave].
  { unfold SaveBakingResultsToFile. rewrite Hmode. destruct mode.
    - cbn. by eexists.
    - destruct Hdata as (cluster & -> & _). cbn. by eexists. }
  exists content, mode. split; [done|]. split; [done|].
  destruct (SaveBakingResultsToFile_text _ _ Hsave)
    as (mode' & clusterSection & Hmode' & Hcluster & Htext).
  assert (mode' = mode) as -> by congruence.
  destruct (cluster_text_line _ _ _ Hcluster) as [section' Hsection].
  unfold LoadBakingResultsFromFile, parse_LightBakingData. rewrite Htext.
  rewrite expect_BakingMode. cbn [mbind option_bind].
  rewrite Hsection. norm_text. rewrite parse_Word_mode.
  cbn [mbind option_bind]. rewrite StrToBakingMode_BakingModeToStr.
  cbn [mbind option_bind].
  rewrite <- (app_nil_r (probes_text 0 (probes bakingResult))).
  change (newline :: section' ++ ?t) with ((newline :: section') ++ t).
  rewrite <- Hsection.
  rewrite (parse_ClusterData_text mode bakingResult clusterSection);
    [|done|by destruct mode|apply line_start_cons].
  cbn [mbind option_bind].
  rewrite parse_ProbeSection_text by (done || by left).
  cbn [mbind option_bind skip_ws].
  destruct mode; cbn [read_back]; [done|].
  destruct Hdata as (cluster & -> & _). reflexivity.
Qed.

(** Rounding the written decimal to the nearest [float] lands within 10^-9
    of the [float] that was written. *)
Lemma read_coefficient_close (round_to_float : Q -> Q) (is_float : Q -> Prop)
    (x : Q) :
  (forall y f, is_float f ->
     (Qabs (round_to_float y - y) <= Qabs (f - y))%Q) ->
  is_float x ->
  (Qabs (round_to_float (fixed9_value x) - x) <= 1 # 1000000000)%Q.
Proof.
  intros Hnearest Hx.
  pose proof (Hnearest (fixed9_value x) x Hx) as Hround.
  pose proof (fixed9_value_close x) as Hclose.
  rewrite (Qabs_Qminus x (fixed9_value x)) in Hround.
  assert (Hround' : (Qabs (round_to_float (fixed9_value x) - fixed9_value x)
                     <= 1 # 2000000000)%Q)
    by (eapply Qle_trans; [exact Hround|exact Hclose]).
  apply Qabs_Qle_condition in Hround', Hclose.
  apply Qabs_Qle_condition. lra.
Qed.

(** C1.  A completed baking result that is written with
    [SaveBakingResultsToFile] and read with [LoadBakingResultsFromFile] comes
    back with the same mode, the same cluster (mode
    [CurrentPositionCluster]) or first-probe indices (mode [AllClusters]),
    the same number of probes, and every colour channel of every SH
    coefficient within 10^-6 of the original.  The reader rounds each
    decimal to a nearest [float]. *)
Theorem SaveLoad_roundtrip (round_to_float : Q -> Q) (is_float : Q -> Prop)
    (bakingResult : BakingData Q) :
  (forall y f, is_float f ->
     (Qabs (round_to_float y - y) <= Qabs (f - y))%Q) ->
  completed is_float bakingResult ->
  exists (content : string) (loaded : BakingData Q) (mode : LightBakingMode),
    SaveBakingResultsToFile bakingResult = Some content
    /\ LoadBakingResultsFromFile round_to_float content = Some loaded
    /\ bakingMode bakingResult = Some mode
    /\ bakingMode loaded = Some mode
    /\ match mode with
       | CurrentPositionCluster =>
           bakingCluster loaded = bakingCluster bakingResult
       | AllClusters =>
           clusterFirstProbeIndices loaded
           = clusterFirstProbeIndices bakingResult
       end
    /\ length (probes loaded) = length (probes bakingResult)
    /\ forall (i k : nat) (probe : DiffuseProbe Q) (coef : XMFLOAT4 Q),
         probes bakingResult !! i = Some probe ->
         radianceSh probe !! k = Some coef ->
         exists (probe' : DiffuseProbe Q) (coef' : XMFLOAT4 Q),
           probes loaded !! i = Some probe'
           /\ radianceSh probe' !! k = Some coef'
           /\ (Qabs (xm_x coef' - xm_x coef) <= 1 # 1000000)%Q
           /\ (Qabs (xm_y coef' - xm_y coef) <= 1 # 1000000)%Q
           /\ (Qabs (xm_z coef' - xm_z coef) <= 1 # 1000000)%Q.
Proof.
  intros Hnearest Hcompleted.
  destruct (LoadBakingResultsFromFile_SaveBakingResultsToFile round_to_float
              is_float bakingResult Hcompleted)
    as (content & mode & Hmode & Hsave & Hload).
  destruct Hcompleted as (_ & _ & _ & Hfloat).
  exists content, (read_back round_to_float mode bakingResult), mode.
  split; [done|]. split; [done|]. split; [done|].
  split; [by destruct mode|]. split; [by destruct mode|].
  split; [destruct mode; cbn; by rewrite length_fmap|].
  intros i k probe coef Hprobe Hcoef.
  exists (read_probe round_to_float probe),
         (read_coefficient round_to_float coef).
  split; [|split].
  - destruct mode; cbn [read_back probes];
      by rewrite list_lookup_fmap, Hprobe.
  - cbn. by rewrite list_lookup_fmap, Hcoef.
  - rewrite Forall_forall in Hfloat.
    specialize (Hfloat probe (list_elem_of_lookup_2 _ _ _ Hprobe)).
    rewrite Forall_forall in Hfloat.
    destruct (Hfloat coef (list_elem_of_lookup_2 _ _ _ Hcoef))
      as (Hx & Hy & Hz).
    cbn [read_coefficient xm_x xm_y xm_z].
    repeat split;
      (eapply Qle_trans;
       [by eapply read_coefficient_close|by vm_compute]).
Qed.

(** Rounding to the grid picks a nearest grid point. *)
Lemma round_half_even_nearest (q : Q) (n : Z) :
  (Qabs (inject_Z (round_half_even q) - q) <= Qabs (inject_Z n - q))%Q.
Proof.
  pose proof (round_half_even_error q) as Herr.
  destruct (Qlt_le_dec (Qabs (inject_Z n - q))
              (Qabs (inject_Z (round_half_even q) - q))) as [Hlt|Hle];
    [|done].
  assert (Hn : (Qabs (inject_Z n - q) < 1 # 2)%Q)
    by (eapply Qlt_le_trans; [exact Hlt|exact Herr]).
  apply Qabs_Qle_condition in Herr.
  apply Qabs_Qlt_condition in Hn.
  assert (Heq : n = round_half_even q).
  { assert (inject_Z n - inject_Z (round_half_even q) < 1)%Q as H1 by lra.
    assert (inject_Z (round_half_even q) - inject_Z n < 1)%Q as H2 by lra.
    unfold Qminus in H1, H2.
    rewrite <- inject_Z_opp, <- inject_Z_plus in H1, H2.
    change 1%Q with (inject_Z 1) in H1, H2.
    rewrite <- Zlt_Qlt in H1, H2. lia. }
  rewrite Heq in Hlt. by apply Qlt_irrefl in Hlt.
Qed.

Lemma round_to_grid_nearest (y f : Q) :
  on_grid f -> (Qabs (round_to_grid y - y) <= Qabs (f - y))%Q.
Proof.
  unfold on_grid, round_to_grid. intros Hgrid.
  pose proof (Qred_correct (f * inject_Z (2 ^ 24))) as Hred.
  destruct (Qred (f * inject_Z (2 ^ 24))) as [n d]. cbn in Hgrid. subst d.
  change (n # 1) with (inject_Z n) in Hred.
  pose proof (round_half_even_nearest (y * inject_Z (2 ^ 24)) n) as Hnear.
  change (inject_Z (2 ^ 24)) with 16777216%Q in *.
  set (r := inject_Z (round_half_even (y * 16777216))) in *.
  assert (Hr : (r == r / 16777216 * 16777216)%Q) by field.
  set (g := (r / 16777216)%Q) in *.
  apply Qabs_Qle_condition.
  destruct (Qabs_Qle_condition (r - y * 16777216)
              (Qabs (inject_Z n - y * 16777216))) as [Hbound _].
  specialize (Hbound Hnear).
  revert Hbound. apply Qabs_case; intros Hsign Hbound;
    apply Qabs_case; intros Hsign'; lra.
Qed.

Lemma SaveLoad_roundtrip_witness :
  exists (content : string) (loaded : BakingData Q) (mode : LightBakingMode),
    SaveBakingResultsToFile demo_all_result = Some content
    /\ LoadBakingResultsFromFile round_to_grid content = Some loaded
    /\ bakingMode demo_all_result = Some mode
    /\ bakingMode loaded = Some mode
    /\ match mode with
       | CurrentPositionCluster =>
           bakingCluster loaded = bakingCluster demo_all_result
       | AllClusters =>
           clusterFirstProbeIndices loaded
           = clusterFirstProbeIndices demo_all_result
       end
    /\ length (probes loaded) = length (probes demo_all_result)
    /\ forall (i k : nat) (probe : DiffuseProbe Q) (coef : XMFLOAT4 Q),
         probes demo_all_result !! i = Some probe ->
         radianceSh probe !! k = Some coef ->
         exists (probe' : DiffuseProbe Q) (coef' : XMFLOAT4 Q),
           probes loaded !! i = Some probe'
           /\ radianceSh probe' !! k = Some coef'
           /\ (Qabs (xm_x coef' - xm_x coef) <= 1 # 1000000)%Q
           /\ (Qabs (xm_y coef' - xm_y coef) <= 1 # 1000000)%Q
           /\ (Qabs (xm_z coef' - xm_z coef) <= 1 # 1000000)%Q.
Proof.
  apply (SaveLoad_roundtrip round_to_grid on_grid demo_all_result).
  - exact round_to_grid_nearest.
  - unfold completed. cbn [bakingMode demo_all_result].
    split; [|split; [|split]].
    + split; [|vm_compute; discriminate].
      repeat constructor; vm_compute; discriminate.
    + vm_compute. discriminate.
    + repeat constructor.
    + repeat constructor; vm_compute; reflexivity.
Defined.

(** The same file in the mode [CurrentPositionCluster], read back with the
    grid rounding: the cluster and both probes return. *)
Lemma SaveLoad_demo_cluster :
  (fun loaded => (bakingMode loaded, bakingCluster loaded,
                  length (probes loaded)))
  <$> (SaveBakingResultsToFile demo_cluster_result
       ≫= LoadBakingResultsFromFile round_to_grid)
  = Some (Some CurrentPositionCluster, Some 1, 2%nat).
Proof. vm_compute. reflexivity. Qed.

End BakingFile.

(** ** ref_dx12/dx_buffer.h : the paths of [Allocate] and [Delete] that keep
    the allocator's invariant, and [HandlerBuffer] *)
Module BufferFacts.

Import BufferAllocator.

(** [HandlerBuffer<BUFFER_SIZE, HANDLERS_NUM>]: the allocator of
    [allocBuffer] and the table [m_handlers], one offset per handler. *)
Record HandlerBuffer : Type := MkHandlerBuffer {
  allocations : list Allocation;
  m_handlers : list Z
}.

Section Handlers.

Variable BUFFER_SIZE : Z.
Variable HANDLERS_NUM : nat.

(** [Const::INVALID_BUFFER_HANDLER], as a handler number. *)
Variable INVALID_BUFFER_HANDLER : nat.

(** The constructor: every handler is free. *)
Definition HandlerBuffer_new : HandlerBuffer :=
  MkHandlerBuffer [] (replicate HANDLERS_NUM INVALID_OFFSET).

(** The loop of [Allocate] that looks for a free handler slot: the first
    [currentH] with [m_handlers[currentH] == INVALID_OFFSET]. *)
Fixpoint find_free_handler (handlers : list Z) (currentH : nat) : option nat :=
  match handlers with
  | [] => None
  | h :: rest =>
      if h =? INVALID_OFFSET then Some currentH
      else find_free_handler rest (S currentH)
  end.

(** [BufferHandler Allocate(int size)]: [None] when the assertion
    [handler != INVALID_BUFFER_HANDLER] fails. *)
Definition HandlerBuffer_Allocate (sz : Z) (buffer : HandlerBuffer)
  : option (nat * HandlerBuffer) :=
  match find_free_handler (m_handlers buffer) 0 with
  | None => None
  | Some handler =>
      if decide (handler = INVALID_BUFFER_HANDLER) then None
      else
        let '(off, allocations') :=
          Allocate BUFFER_SIZE sz (allocations buffer) in
        Some (handler,
              MkHandlerBuffer allocations'
                              (<[handler := off]> (m_handlers buffer)))
  end.

(** [int GetOffset(BufferHandler handler)]: [None] when the handler is
    outside the table or the assertion on [INVALID_OFFSET] fails. *)
Definition HandlerBuffer_GetOffset (handler : nat) (buffer : HandlerBuffer)
  : option Z :=
  off ← m_handlers buffer !! handler;
  if off =? INVALID_OFFSET then None else Some off.

(** [void Delete(BufferHandler handler)] *)
Definition HandlerBuffer_Delete (handler : nat) (buffer : HandlerBuffer)
  : option HandlerBuffer :=
  off ← HandlerBuffer_GetOffset handler buffer;
  Some (MkHandlerBuffer (Delete off (allocations buffer))
                        (<[handler := INVALID_OFFSET]> (m_handlers buffer))).

End Handlers.

(** The end of an allocation's range. *)
Definition range_end (a : Allocation) : Z := offset a + size a.

(** [nextOffset] of the first block of [Allocate]: the room in front of the
    first allocation. *)
Definition front_gap (SIZE : Z) (l : list Allocation) : Z :=
  match l with
  | [] => SIZE
  | a :: _ => offset a
  end.

(** No gap between two neighbours of the list takes [sz] bytes. *)
Definition no_gap_between (sz : Z) (l : list Allocation) : Prop :=
  forall (k : nat) (a b : Allocation),
    l !! k = Some a -> l !! S k = Some b -> offset b - range_end a < sz.

(** *** Facts about well formed lists *)

Lemma well_formed_from_elem (SIZE lo : Z) (l : list Allocation)
    (a : Allocation) :
  well_formed_from SIZE lo l -> a ∈ l ->
  lo <= offset a /\ 0 < size a /\ range_end a <= SIZE.
Proof.
  revert lo. induction l as [|b tl IH]; intros lo Hwf Hin.
  - inversion Hin.
  - destruct Hwf as (H1 & H2 & H3).
    apply elem_of_cons in Hin as [->|Hin].
    + split; [done|]. split; [done|].
      by apply well_formed_from_bound in H3.
    + destruct (IH _ H3 Hin) as (? & ? & ?). unfold range_end in *. lia.
Qed.

Lemma well_formed_from_app (SIZE lo : Z) (l1 l2 : list Allocation) :
  well_formed_from SIZE lo (l1 ++ l2) ->
  forall a b, a ∈ l1 -> b ∈ l2 -> range_end a <= offset b.
Proof.
  revert lo. induction l1 as [|c tl IH]; intros lo Hwf a b Ha Hb.
  - inversion Ha.
  - destruct Hwf as (H1 & H2 & H3).
    apply elem_of_cons in Ha as [->|Ha].
    + assert (Hin : b ∈ tl ++ l2) by (apply elem_of_app; by right).
      by destruct (well_formed_from_elem _ _ _ _ H3 Hin) as (? & _).
    + by eapply IH.
Qed.

Lemma well_formed_from_snoc (SIZE lo : Z) (l : list Allocation)
    (a : Allocation) :
  well_formed_from SIZE lo l -> 0 < size a -> range_end a <= SIZE ->
  lo <= offset a ->
  (forall b, b ∈ l -> range_end b <= offset a) ->
  well_formed_from SIZE lo (l ++ [a]).
Proof.
  revert lo. induction l as [|b tl IH]; intros lo Hwf Hs He Hlo Hall.
  - simpl. unfold range_end in He. lia.
  - destruct Hwf as (H1 & H2 & H3). simpl. split; [done|]. split; [done|].
    apply IH; try done.
    + apply (Hall b). apply elem_of_cons. by left.
    + intros c Hc. apply Hall. apply elem_of_cons. by right.
Qed.

Lemma well_formed_from_last (SIZE lo : Z) (l : list Allocation)
    (d : Allocation) :
  well_formed_from SIZE lo l -> last l = Some d ->
  forall b, b ∈ l -> range_end b <= range_end d.
Proof.
  revert lo. induction l as [|c tl IH]; intros lo Hwf Hlast b Hb.
  - inversion Hb.
  - destruct Hwf as (H1 & H2 & H3).
    destruct tl as [|c' tl'].
    + injection Hlast as <-. apply elem_of_cons in Hb as [->|Hb]; [lia|].
      inversion Hb.
    + rewrite last_cons_cons in Hlast.
      apply elem_of_cons in Hb as [->|Hb].
      * assert (Hd : d ∈ c' :: tl') by (by apply last_Some_elem_of).
        destruct (well_formed_from_elem _ _ _ _ H3 Hd) as (? & ? & _).
        unfold range_end in *. lia.
      * by eapply IH.
Qed.

Lemma find_interval_None (sz : Z) (l : list Allocation) (i : nat) :
  no_gap_between sz l -> find_interval sz l i = None.
Proof.
  revert i. induction l as [|a tl IH]; intros i Hgap; [reflexivity|].
  destruct tl as [|b tl']; [reflexivity|].
  cbn [find_interval].
  pose proof (Hgap 0%nat a b eq_refl eq_refl) as H0. unfold range_end in H0.
  destruct (Z.geb_spec (offset b - (offset a + size a)) sz) as [?|_]; [lia|].
  apply IH. intros k c d Hc Hd. apply (Hgap (S k) c d); done.
Qed.

Lemma find_interval_Some (sz : Z) (l : list Allocation) (i j : nat) (e : Z) :
  find_interval sz l i = Some (j, e) ->
  exists (k : nat) (curr next : Allocation),
    j = (i + k)%nat /\ l !! k = Some curr /\ l !! S k = Some next
    /\ e = range_end curr /\ sz <= offset next - e.
Proof.
  revert i. induction l as [|a tl IH]; intros i Hf; [discriminate|].
  destruct tl as [|b tl']; [discriminate|].
  cbn [find_interval] in Hf.
  destruct (Z.geb_spec (offset b - (offset a + size a)) sz) as [Hge|_].
  - injection Hf as <- <-. exists 0%nat, a, b.
    repeat split; [lia|unfold range_end; lia].
  - destruct (IH _ Hf) as (k & curr & next & -> & Hc & Hn & He & Hs).
    exists (S k), curr, next. repeat split; [lia|done..].
Qed.

Lemma check_before_well_formed (SIZE sz : Z) (l : list Allocation) :
  0 < sz -> well_formed SIZE l -> well_formed SIZE (check_before SIZE sz l).
Proof.
  intros Hsz Hwf. unfold check_before.
  destruct l as [|a tl].
  - destruct (Z.geb_spec SIZE sz); [|done].
    unfold well_formed. simpl. lia.
  - destruct (Z.geb_spec (offset a) sz); [|done].
    unfold well_formed in *. simpl in *. destruct Hwf as (? & ? & ?).
    repeat split; try lia; done.
Qed.

Lemma check_before_elem (SIZE sz : Z) (l : list Allocation) (a : Allocation) :
  a ∈ l -> a ∈ check_before SIZE sz l.
Proof.
  intros Hin. unfold check_before.
  destruct (_ >=? _); [by apply elem_of_cons; right|done].
Qed.

Lemma Delete_not_elem (off : Z) (l : list Allocation) :
  (forall a, a ∈ l -> offset a <> off) -> Delete off l = l.
Proof.
  induction l as [|a tl IH]; intros Hno; [reflexivity|].
  simpl. destruct (Z.eqb_spec (offset a) off) as [He|_].
  - exfalso. apply (Hno a); [apply elem_of_cons; by left|done].
  - f_equal. apply IH. intros b Hb. apply Hno. apply elem_of_cons. by right.
Qed.

Lemma Delete_snoc (off sz : Z) (l : list Allocation) :
  (forall a, a ∈ l -> offset a <> off) ->
  Delete off (l ++ [MkAllocation off sz]) = l.
Proof.
  induction l as [|a tl IH]; intros Hno.
  - simpl. by rewrite Z.eqb_refl.
  - simpl. destruct (Z.eqb_spec (offset a) off) as [He|_].
    + exfalso. apply (Hno a); [apply elem_of_cons; by left|done].
    + f_equal. apply IH. intros b Hb. apply Hno. apply elem_of_cons. by right.
Qed.

Lemma well_formed_from_app_r (SIZE lo : Z) (l1 l2 : list Allocation) :
  well_formed_from SIZE lo (l1 ++ l2) ->
  exists lo', well_formed_from SIZE lo' l2.
Proof.
  revert lo. induction l1 as [|c tl IH]; intros lo Hwf.
  - by exists lo.
  - destruct Hwf as (_ & _ & H3). by eapply IH.
Qed.

Lemma well_formed_from_head (SIZE lo : Z) (n a : Allocation)
    (rest : list Allocation) :
  well_formed_from SIZE lo (n :: rest) -> a ∈ n :: rest ->
  offset n <= offset a.
Proof.
  intros (H1 & H2 & H3) Hin. apply elem_of_cons in Hin as [->|Hin]; [lia|].
  destruct (well_formed_from_elem _ _ _ _ H3 Hin) as (? & _). lia.
Qed.

Lemma check_before_small_gap (SIZE sz : Z) (l : list Allocation) :
  front_gap SIZE l < sz -> check_before SIZE sz l = l.
Proof.
  intros Hgap. unfold check_before, front_gap in *.
  destruct l as [|a tl].
  - destruct (Z.geb_spec SIZE sz); [lia|done].
  - destruct (Z.geb_spec (offset a) sz); [lia|done].
Qed.

(** *** [Delete] *)

(** X1.  On a well formed allocation list [Delete(offset)] frees exactly the
    allocation that starts at [offset]: the list stays well formed, no
    allocation with that offset is left, every other allocation is kept,
    and when no allocation starts at [offset] the list is unchanged. *)
Theorem Delete_frees_exactly_that_offset (SIZE off : Z)
    (l : list Allocation) :
  well_formed SIZE l ->
  well_formed SIZE (Delete off l)
  /\ (forall a, a ∈ Delete off l -> a ∈ l /\ offset a <> off)
  /\ (forall a, a ∈ l -> offset a <> off -> a ∈ Delete off l)
  /\ ((forall a, a ∈ l -> offset a <> off) -> Delete off l = l).
Proof.
  intros Hwf. split; [by apply Delete_well_formed_from|].
  split; [|split; [|apply Delete_not_elem]].
  - unfold well_formed in Hwf. revert Hwf. generalize 0.
    induction l as [|b tl IH]; intros lo Hwf a Hin; [inversion Hin|].
    destruct Hwf as (H1 & H2 & H3). simpl in Hin.
    destruct (Z.eqb_spec (offset b) off) as [He|Hne].
    + split; [apply elem_of_cons; by right|].
      destruct (well_formed_from_elem _ _ _ _ H3 Hin) as (? & _). lia.
    + apply elem_of_cons in Hin as [->|Hin].
      * split; [apply elem_of_cons; by left|done].
      * destruct (IH _ H3 _ Hin) as (? & ?).
        split; [apply elem_of_cons; by right|done].
  - induction l as [|b tl IH]; intros a Hin Hne; [inversion Hin|].
    unfold well_formed in Hwf. simpl.
    destruct (Z.eqb_spec (offset b) off) as [He|Hne'].
    + apply elem_of_cons in Hin as [->|Hin]; [done|done].
    + apply elem_of_cons in Hin as [->|Hin].
      * apply elem_of_cons. by left.
      * apply elem_of_cons. right. apply IH; [|done..].
        destruct Hwf as (H1 & H2 & H3).
        eapply well_formed_from_lower; [|exact H3]. lia.
Qed.

Lemma Delete_frees_exactly_that_offset_witness :
  well_formed 100 (Delete 10 [MkAllocation 0 10; MkAllocation 10 20;
                               MkAllocation 50 10])
  /\ (forall a, a ∈ Delete 10 [MkAllocation 0 10; MkAllocation 10 20;
                               MkAllocation 50 10] ->
        a ∈ [MkAllocation 0 10; MkAllocation 10 20; MkAllocation 50 10]
        /\ offset a <> 10)
  /\ (forall a, a ∈ [MkAllocation 0 10; MkAllocation 10 20;
                     MkAllocation 50 10] ->
        offset a <> 10 ->
        a ∈ Delete 10 [MkAllocation 0 10; MkAllocation 10 20;
                       MkAllocation 50 10])
  /\ ((forall a, a ∈ [MkAllocation 0 10; MkAllocation 10 20;
                      MkAllocation 50 10] -> offset a <> 10) ->
      Delete 10 [MkAllocation 0 10; MkAllocation 10 20; MkAllocation 50 10]
      = [MkAllocation 0 10; MkAllocation 10 20; MkAllocation 50 10]).
Proof.
  apply (Delete_frees_exactly_that_offset 100 10).
  apply well_formedb_spec. reflexivity.
Defined.

(** *** [Allocate] *)

(** X2.  Whenever [Allocate(size)] on a well formed list returns an offset
    other than [INVALID_OFFSET], the range [offset, offset + size) lies
    inside the buffer, is recorded in the list, and overlaps no allocation
    that was recorded before the call. *)
Theorem Allocate_returns_free_range (SIZE sz : Z) (l : list Allocation) :
  0 < sz -> well_formed SIZE l ->
  fst (Allocate SIZE sz l) <> INVALID_OFFSET ->
  0 <= fst (Allocate SIZE sz l)
  /\ fst (Allocate SIZE sz l) + sz <= SIZE
  /\ MkAllocation (fst (Allocate SIZE sz l)) sz ∈ snd (Allocate SIZE sz l)
  /\ (forall a, a ∈ l ->
        range_end a <= fst (Allocate SIZE sz l)
        \/ fst (Allocate SIZE sz l) + sz <= offset a).
Proof.
  intros Hsz Hwf0. unfold Allocate.
  pose proof (check_before_well_formed SIZE sz l Hsz Hwf0) as Hwf.
  pose proof (check_before_elem SIZE sz l) as Hsub.
  set (L := check_before SIZE sz l) in *. clearbody L.
  destruct (find_interval sz L 0) as [[i e]|] eqn:Hfind.
  - cbn [fst snd]. intros _.
    destruct (find_interval_Some _ _ _ _ _ Hfind)
      as (k & curr & next & -> & Hc & Hn & -> & Hroom).
    simpl. unfold well_formed in Hwf.
    assert (Hsplit : L = take (S k) L ++ drop (S k) L)
      by (by rewrite take_drop).
    assert (Hcin : curr ∈ take (S k) L).
    { apply (list_elem_of_lookup_2 _ k). rewrite lookup_take_lt by lia. done. }
    assert (Hnd : drop (S k) L = next :: drop (S (S k)) L).
    { by apply drop_S. }
    assert (Hnin : next ∈ drop (S k) L).
    { rewrite Hnd. apply elem_of_cons. by left. }
    assert (HcL : curr ∈ L) by (by eapply list_elem_of_lookup_2).
    assert (HnL : next ∈ L) by (by eapply list_elem_of_lookup_2).
    destruct (well_formed_from_elem _ _ _ _ Hwf HcL) as (? & ? & ?).
    destruct (well_formed_from_elem _ _ _ _ Hwf HnL) as (? & ? & ?).
    unfold range_end in *.
    split; [lia|]. split; [lia|]. split.
    + unfold list_insert_before. apply elem_of_app. right.
      apply elem_of_cons. by left.
    + intros a Ha. apply Hsub in Ha. rewrite Hsplit in Ha.
      apply elem_of_app in Ha as [Ha|Ha].
      * left. rewrite (take_S_r _ _ _ Hc) in Ha.
        apply elem_of_app in Ha as [Ha|Ha].
        -- assert (Hk : L = take k L ++ drop k L) by (by rewrite take_drop).
           rewrite Hk in Hwf.
           assert (Hcd : curr ∈ drop k L).
           { rewrite (drop_S _ _ _ Hc). apply elem_of_cons. by left. }
           pose proof (well_formed_from_app _ _ _ _ Hwf a curr Ha Hcd) as Hle.
           unfold range_end in Hle. lia.
        -- apply list_elem_of_singleton in Ha as ->. lia.
      * right. rewrite Hsplit in Hwf.
        destruct (well_formed_from_app_r _ _ _ _ Hwf) as (lo' & Hwf').
        rewrite Hnd in Hwf', Ha.
        pose proof (well_formed_from_head _ _ _ _ _ Hwf' Ha). lia.
  - destruct (last L) as [lastAlloc|] eqn:Hlast; [|cbn; done].
    destruct (Z.geb_spec (SIZE - (offset lastAlloc + size lastAlloc)) sz)
      as [Hroom|_]; [|cbn; done].
    cbn [fst snd]. intros _.
    assert (HlL : lastAlloc ∈ L) by (by apply last_Some_elem_of).
    destruct (well_formed_from_elem _ _ _ _ Hwf HlL) as (? & ? & ?).
    unfold range_end in *.
    split; [lia|]. split; [lia|]. split.
    + apply elem_of_app. right. by apply list_elem_of_singleton.
    + intros a Ha. left. apply Hsub in Ha.
      pose proof (well_formed_from_last _ _ _ _ Hwf Hlast a Ha) as Hle.
      unfold range_end in Hle. lia.
Qed.

Lemma Allocate_returns_free_range_witness :
  0 <= fst (Allocate 100 10 [MkAllocation 0 10; MkAllocation 50 10])
  /\ fst (Allocate 100 10 [MkAllocation 0 10; MkAllocation 50 10]) + 10
     <= 100
  /\ MkAllocation
       (fst (Allocate 100 10 [MkAllocation 0 10; MkAllocation 50 10])) 10
     ∈ snd (Allocate 100 10 [MkAllocation 0 10; MkAllocation 50 10])
  /\ (forall a, a ∈ [MkAllocation 0 10; MkAllocation 50 10] ->
        range_end a
        <= fst (Allocate 100 10 [MkAllocation 0 10; MkAllocation 50 10])
        \/ fst (Allocate 100 10 [MkAllocation 0 10; MkAllocation 50 10])
           + 10 <= offset a).
Proof.
  apply (Allocate_returns_free_range 100 10).
  - lia.
  - apply well_formedb_spec. reflexivity.
  - vm_compute. discriminate.
Defined.

(** The third block of [Allocate]: with no room in front and in between,
    the allocation goes behind the last one. *)
Lemma Allocate_behind_last (SIZE sz : Z) (l : list Allocation)
    (lastAlloc : Allocation) :
  front_gap SIZE l < sz -> no_gap_between sz l ->
  last l = Some lastAlloc -> range_end lastAlloc + sz <= SIZE ->
  Allocate SIZE sz l
  = (range_end lastAlloc, l ++ [MkAllocation (range_end lastAlloc) sz]).
Proof.
  intros Hfront Hgap Hlast Hroom.
  unfold Allocate. rewrite (check_before_small_gap _ _ _ Hfront).
  rewrite (find_interval_None _ _ _ Hgap), Hlast.
  unfold range_end in *.
  destruct (Z.geb_spec (SIZE - (offset lastAlloc + size lastAlloc)) sz);
    [done|lia].
Qed.

(** X3.  When the room in front of the first allocation and every gap
    between neighbours is smaller than [size] and the room behind the last
    allocation is large enough, [Allocate(size)] appends exactly one
    allocation behind the last one, returns its offset, and the list stays
    well formed. *)
Theorem Allocate_appends_behind_last (SIZE sz : Z) (l : list Allocation)
    (lastAlloc : Allocation) :
  0 < sz -> well_formed SIZE l ->
  front_gap SIZE l < sz -> no_gap_between sz l ->
  last l = Some lastAlloc -> range_end lastAlloc + sz <= SIZE ->
  Allocate SIZE sz l
  = (range_end lastAlloc, l ++ [MkAllocation (range_end lastAlloc) sz])
  /\ well_formed SIZE (l ++ [MkAllocation (range_end lastAlloc) sz]).
Proof.
  intros Hsz Hwf Hfront Hgap Hlast Hroom. split.
  - by apply Allocate_behind_last.
  - assert (Hin : lastAlloc ∈ l) by (by apply last_Some_elem_of).
    destruct (well_formed_from_elem _ _ _ _ Hwf Hin) as (? & ? & ?).
    apply well_formed_from_snoc; try done; unfold range_end in *; cbn; try lia.
    intros b Hb.
    pose proof (well_formed_from_last _ _ _ _ Hwf Hlast b Hb) as Hle.
    unfold range_end in Hle. lia.
Qed.

Lemma Allocate_appends_behind_last_witness :
  Allocate 100 20 [MkAllocation 0 10; MkAllocation 15 10]
  = (range_end (MkAllocation 15 10),
     [MkAllocation 0 10; MkAllocation 15 10]
     ++ [MkAllocation (range_end (MkAllocation 15 10)) 20])
  /\ well_formed 100
       ([MkAllocation 0 10; MkAllocation 15 10]
        ++ [MkAllocation (range_end (MkAllocation 15 10)) 20]).
Proof.
  apply (Allocate_appends_behind_last 100 20).
  - lia.
  - apply well_formedb_spec. reflexivity.
  - cbn. lia.
  - intros [|[|k]] a b Ha Hb; try discriminate.
    injection Ha as <-. injection Hb as <-. unfold range_end. cbn. lia.
  - reflexivity.
  - unfold range_end. cbn. lia.
Defined.

(** X4.  When neither the room in front of the first allocation, nor a gap
    between neighbours, nor the room behind the last allocation takes
    [size] bytes, [Allocate(size)] returns [INVALID_OFFSET] and records
    nothing. *)
Theorem Allocate_without_room_records_nothing (SIZE sz : Z)
    (l : list Allocation) :
  front_gap SIZE l < sz -> no_gap_between sz l ->
  (forall lastAlloc, last l = Some lastAlloc ->
     SIZE - range_end lastAlloc < sz) ->
  Allocate SIZE sz l = (INVALID_OFFSET, l).
Proof.
  intros Hfront Hgap Hroom. unfold Allocate.
  rewrite (check_before_small_gap _ _ _ Hfront).
  rewrite (find_interval_None _ _ _ Hgap).
  destruct (last l) as [lastAlloc|]; [|done].
  specialize (Hroom lastAlloc eq_refl). unfold range_end in Hroom.
  destruct (Z.geb_spec (SIZE - (offset lastAlloc + size lastAlloc)) sz);
    [lia|done].
Qed.

Lemma Allocate_without_room_records_nothing_witness :
  Allocate 100 30 [MkAllocation 0 40; MkAllocation 60 20]
  = (INVALID_OFFSET, [MkAllocation 0 40; MkAllocation 60 20]).
Proof.
  apply (Allocate_without_room_records_nothing 100 30).
  - cbn. lia.
  - intros [|[|k]] a b Ha Hb; try discriminate.
    injection Ha as <-. injection Hb as <-. unfold range_end. cbn. lia.
  - intros lastAlloc [= <-]. unfold range_end. cbn. lia.
Defined.

(** *** [HandlerBuffer] *)

Lemma find_free_handler_spec (handlers : list Z) (i handler : nat) :
  find_free_handler handlers i = Some handler ->
  exists k : nat,
    handler = (i + k)%nat /\ handlers !! k = Some INVALID_OFFSET
    /\ forall j off, (j < k)%nat -> handlers !! j = Some off ->
                     off <> INVALID_OFFSET.
Proof.
  revert i. induction handlers as [|h rest IH]; intros i Hf; [discriminate|].
  simpl in Hf. destruct (Z.eqb_spec h INVALID_OFFSET) as [->|Hne].
  - injection Hf as <-. exists 0%nat. split; [lia|]. split; [done|].
    intros j off Hj. lia.
  - destruct (IH _ Hf) as (k & -> & Hk & Hlow).
    exists (S k). split; [lia|]. split; [done|].
    intros [|j] off Hj Hoff.
    + injection Hoff as <-. done.
    + apply (Hlow j); [lia|done].
Qed.

(** X5.  [HandlerBuffer::Allocate] hands out the lowest free handler: the
    slot of the returned handler was free, every lower handler is in use,
    the slot now holds the offset the allocator returned, and the offset of
    every other handler is unchanged. *)
Theorem HandlerBuffer_Allocate_lowest_free (BUFFER_SIZE : Z)
    (INVALID_BUFFER_HANDLER : nat) (sz : Z) (buffer buffer' : HandlerBuffer)
    (handler : nat) :
  HandlerBuffer_Allocate BUFFER_SIZE INVALID_BUFFER_HANDLER sz buffer
  = Some (handler, buffer') ->
  m_handlers buffer !! handler = Some INVALID_OFFSET
  /\ (forall h off, (h < handler)%nat -> m_handlers buffer !! h = Some off ->
        off <> INVALID_OFFSET)
  /\ m_handlers buffer' !! handler
     = Some (fst (Allocate BUFFER_SIZE sz (allocations buffer)))
  /\ allocations buffer'
     = snd (Allocate BUFFER_SIZE sz (allocations buffer))
  /\ (forall h, h <> handler ->
        m_handlers buffer' !! h = m_handlers buffer !! h).
Proof.
  unfold HandlerBuffer_Allocate. intros Halloc.
  destruct (find_free_handler (m_handlers buffer) 0) as [h|] eqn:Hfree;
    [|discriminate].
  destruct (decide (h = INVALID_BUFFER_HANDLER)); [discriminate|].
  destruct (Allocate BUFFER_SIZE sz (allocations buffer)) as [off l'].
  injection Halloc as <- <-. cbn [m_handlers allocations fst snd].
  destruct (find_free_handler_spec _ _ _ Hfree) as (k & -> & Hk & Hlow).
  simpl. split; [done|]. split; [exact Hlow|]. split.
  - apply list_lookup_insert_eq. by eapply lookup_lt_Some.
  - split; [done|]. intros j Hj. by apply list_lookup_insert_ne.
Qed.

Lemma HandlerBuffer_Allocate_lowest_free_witness :
  m_handlers (MkHandlerBuffer [MkAllocation 0 10]
                              [0; INVALID_OFFSET; INVALID_OFFSET]) !! 1%nat
  = Some INVALID_OFFSET
  /\ (forall h off, (h < 1)%nat ->
        m_handlers (MkHandlerBuffer [MkAllocation 0 10]
                      [0; INVALID_OFFSET; INVALID_OFFSET]) !! h = Some off ->
        off <> INVALID_OFFSET)
  /\ m_handlers (MkHandlerBuffer [MkAllocation 0 10; MkAllocation 10 10]
                                 [0; 10; INVALID_OFFSET]) !! 1%nat
     = Some (fst (Allocate 100 10 [MkAllocation 0 10]))
  /\ allocations (MkHandlerBuffer [MkAllocation 0 10; MkAllocation 10 10]
                                  [0; 10; INVALID_OFFSET])
     = snd (Allocate 100 10 [MkAllocation 0 10])
  /\ (forall h, h <> 1%nat ->
        m_handlers (MkHandlerBuffer [MkAllocation 0 10; MkAllocation 10 10]
                                    [0; 10; INVALID_OFFSET]) !! h
        = m_handlers (MkHandlerBuffer [MkAllocation 0 10]
                        [0; INVALID_OFFSET; INVALID_OFFSET]) !! h).
Proof.
  apply (HandlerBuffer_Allocate_lowest_free 100 1000 10
           (MkHandlerBuffer [MkAllocation 0 10]
                            [0; INVALID_OFFSET; INVALID_OFFSET])
           (MkHandlerBuffer [MkAllocation 0 10; MkAllocation 10 10]
                            [0; 10; INVALID_OFFSET])
           1%nat).
  reflexivity.
Defined.

(** X6.  On the appending path of the allocator an [Allocate] followed by
    [Delete] of the returned handler is a round trip: in between
    [GetOffset] gives the offset behind the last allocation, and afterwards
    the allocation list and the handler table are what they were. *)
Theorem HandlerBuffer_Allocate_Delete_roundtrip (BUFFER_SIZE : Z)
    (INVALID_BUFFER_HANDLER : nat) (sz : Z) (buffer : HandlerBuffer)
    (lastAlloc : Allocation) (handler : nat) :
  0 < sz -> well_formed BUFFER_SIZE (allocations buffer) ->
  front_gap BUFFER_SIZE (allocations buffer) < sz ->
  no_gap_between sz (allocations buffer) ->
  last (allocations buffer) = Some lastAlloc ->
  range_end lastAlloc + sz <= BUFFER_SIZE ->
  find_free_handler (m_handlers buffer) 0 = Some handler ->
  handler <> INVALID_BUFFER_HANDLER ->
  exists buffer',
    HandlerBuffer_Allocate BUFFER_SIZE INVALID_BUFFER_HANDLER sz buffer
    = Some (handler, buffer')
    /\ HandlerBuffer_GetOffset handler buffer' = Some (range_end lastAlloc)
    /\ HandlerBuffer_Delete handler buffer' = Some buffer.
Proof.
  intros Hsz Hwf Hfront Hgap Hlast Hroom Hfree Hvalid.
  pose proof (Allocate_behind_last _ _ _ _ Hfront Hgap Hlast Hroom)
    as Halloc.
  destruct (find_free_handler_spec _ _ _ Hfree) as (k & -> & Hk & _).
  simpl in *.
  assert (Hin : lastAlloc ∈ allocations buffer)
    by (by apply last_Some_elem_of).
  destruct (well_formed_from_elem _ _ _ _ Hwf Hin) as (Ho & Hs & _).
  assert (Hne : range_end lastAlloc <> INVALID_OFFSET)
    by (unfold range_end, INVALID_OFFSET; lia).
  assert (Hget : HandlerBuffer_GetOffset k
                   (MkHandlerBuffer
                      (allocations buffer
                       ++ [MkAllocation (range_end lastAlloc) sz])
                      (<[k := range_end lastAlloc]> (m_handlers buffer)))
                 = Some (range_end lastAlloc)).
  { unfold HandlerBuffer_GetOffset. cbn [m_handlers].
    rewrite list_lookup_insert_eq by (by eapply lookup_lt_Some). simpl.
    by destruct (Z.eqb_spec (range_end lastAlloc) INVALID_OFFSET). }
  eexists. split; [|split].
  - unfold HandlerBuffer_Allocate. rewrite Hfree.
    destruct (decide (k = INVALID_BUFFER_HANDLER)); [done|].
    rewrite Halloc. reflexivity.
  - exact Hget.
  - unfold HandlerBuffer_Delete. rewrite Hget. simpl.
    rewrite list_insert_insert_eq, (list_insert_id _ _ _ Hk).
    rewrite Delete_snoc.
    + by destruct buffer.
    + intros a Ha.
      pose proof (well_formed_from_last _ _ _ _ Hwf Hlast a Ha) as Hle.
      destruct (well_formed_from_elem _ _ _ _ Hwf Ha) as (? & ? & _).
      unfold range_end in *. lia.
Qed.

Lemma HandlerBuffer_Allocate_Delete_roundtrip_witness :
  exists buffer',
    HandlerBuffer_Allocate 100 1000 20
      (MkHandlerBuffer [MkAllocation 0 10; MkAllocation 15 10]
                       [0; 15; INVALID_OFFSET])
    = Some (2%nat, buffer')
    /\ HandlerBuffer_GetOffset 2 buffer'
       = Some (range_end (MkAllocation 15 10))
    /\ HandlerBuffer_Delete 2 buffer'
       = Some (MkHandlerBuffer [MkAllocation 0 10; MkAllocation 15 10]
                               [0; 15; INVALID_OFFSET]).
Proof.
  apply (HandlerBuffer_Allocate_Delete_roundtrip 100 1000 20
           (MkHandlerBuffer [MkAllocation 0 10; MkAllocation 15 10]
                            [0; 15; INVALID_OFFSET])).
  - lia.
  - apply well_formedb_spec. reflexivity.
  - cbn. lia.
  - intros [|[|k]] a b Ha Hb; try discriminate.
    injection Ha as <-. injection Hb as <-. unfold range_end. cbn. lia.
  - reflexivity.
  - unfold range_end. cbn. lia.
  - reflexivity.
  - lia.
Defined.

(** X7.  When the allocator has no room and returns [INVALID_OFFSET],
    [HandlerBuffer::Allocate] still returns a handler, but the handler's
    slot stays free: the handler table is unchanged, the assertions of
    [GetOffset] and [Delete] do not hold for the handler, and the next
    [Allocate] finds the same handler again. *)
Theorem HandlerBuffer_Allocate_without_room (BUFFER_SIZE : Z)
    (INVALID_BUFFER_HANDLER : nat) (sz : Z) (buffer buffer' : HandlerBuffer)
    (handler : nat) :
  HandlerBuffer_Allocate BUFFER_SIZE INVALID_BUFFER_HANDLER sz buffer
  = Some (handler, buffer') ->
  fst (Allocate BUFFER_SIZE sz (allocations buffer)) = INVALID_OFFSET ->
  HandlerBuffer_GetOffset handler buffer' = None
  /\ HandlerBuffer_Delete handler buffer' = None
  /\ m_handlers buffer' = m_handlers buffer
  /\ find_free_handler (m_handlers buffer') 0 = Some handler.
Proof.
  unfold HandlerBuffer_Allocate. intros Halloc Hfail.
  destruct (find_free_handler (m_handlers buffer) 0) as [h|] eqn:Hfree;
    [|discriminate].
  destruct (decide (h = INVALID_BUFFER_HANDLER)); [discriminate|].
  destruct (Allocate BUFFER_SIZE sz (allocations buffer)) as [off l'].
  injection Halloc as <- <-. cbn [fst] in Hfail. subst off.
  destruct (find_free_handler_spec _ _ _ Hfree) as (k & Hh & Hk & _).
  simpl in Hh. subst h.
  assert (Hsame : <[k := INVALID_OFFSET]> (m_handlers buffer)
                  = m_handlers buffer) by (by apply list_insert_id).
  unfold HandlerBuffer_Delete, HandlerBuffer_GetOffset. cbn [m_handlers].
  rewrite Hsame, Hk. simpl. done.
Qed.

Lemma HandlerBuffer_Allocate_without_room_witness :
  HandlerBuffer_GetOffset 1
    (MkHandlerBuffer [MkAllocation 0 40; MkAllocation 60 20]
                     [0; INVALID_OFFSET])
  = None
  /\ HandlerBuffer_Delete 1
       (MkHandlerBuffer [MkAllocation 0 40; MkAllocation 60 20]
                        [0; INVALID_OFFSET])
     = None
  /\ m_handlers (MkHandlerBuffer [MkAllocation 0 40; MkAllocation 60 20]
                                 [0; INVALID_OFFSET])
     = m_handlers (MkHandlerBuffer [MkAllocation 0 40; MkAllocation 60 20]
                                   [0; INVALID_OFFSET])
  /\ find_free_handler
       (m_handlers (MkHandlerBuffer [MkAllocation 0 40; MkAllocation 60 20]
                                    [0; INVALID_OFFSET])) 0
     = Some 1%nat.
Proof.
  apply (HandlerBuffer_Allocate_without_room 100 1000 30
           (MkHandlerBuffer [MkAllocation 0 40; MkAllocation 60 20]
                            [0; INVALID_OFFSET])).
  - reflexivity.
  - reflexivity.
Defined.

End BufferFacts.

(** ** ref_dx12/dx_objects.cpp : [StaticObject::GenerateBoundingBox] *)
Module StaticObject.

Import LightBaker.

#[local] Open Scope Q_scope.

(** [std::max(a, b)] is [(a < b) ? b : a] and [std::min(a, b)] is
    [(b < a) ? b : a]. *)
Definition std_max (a b : Q) : Q := if Qlt_le_dec a b then b else a.
Definition std_min (a b : Q) : Q := if Qlt_le_dec b a then b else a.

(** [std::numeric_limits<float>::min()], the smallest positive normal
    [float] 2^-126, and [std::numeric_limits<float>::max()],
    (2^24 - 1) * 2^104. *)
Definition minFloat : Q := 1 # (2 ^ 126).
Definition maxFloat : Q := inject_Z ((2 ^ 24 - 1) * 2 ^ 104).

(** The two corners that [GenerateBoundingBox] writes. *)
Record BoundingBox : Type :=
  MkBoundingBox { bbMin : XMFLOAT4 Q; bbMax : XMFLOAT4 Q }.

(** The body of the loop over the vertices. *)
Definition grow (box : BoundingBox) (vertex : XMFLOAT4 Q) : BoundingBox :=
  MkBoundingBox
    (MkXMFLOAT4 (std_min (xm_x (bbMin box)) (xm_x vertex))
                (std_min (xm_y (bbMin box)) (xm_y vertex))
                (std_min (xm_z (bbMin box)) (xm_z vertex))
                (xm_w (bbMin box)))
    (MkXMFLOAT4 (std_max (xm_x (bbMax box)) (xm_x vertex))
                (std_max (xm_y (bbMax box)) (xm_y vertex))
                (std_max (xm_z (bbMax box)) (xm_z vertex))
                (xm_w (bbMax box))).

(** [void StaticObject::GenerateBoundingBox(const std::vector<XMFLOAT4>&)] *)
Definition GenerateBoundingBox (vertices : list (XMFLOAT4 Q)) : BoundingBox :=
  foldl grow
    (MkBoundingBox (MkXMFLOAT4 maxFloat maxFloat maxFloat 1)
                   (MkXMFLOAT4 minFloat minFloat minFloat 1))
    vertices.

(** A point lies in a box, axis by axis. *)
Definition inside (box : BoundingBox) (p : XMFLOAT4 Q) : Prop :=
  xm_x (bbMin box) <= xm_x p <= xm_x (bbMax box)
  /\ xm_y (bbMin box) <= xm_y p <= xm_y (bbMax box)
  /\ xm_z (bbMin box) <= xm_z p <= xm_z (bbMax box).

(** A box lies in another one. *)
Definition box_le (small large : BoundingBox) : Prop :=
  xm_x (bbMin large) <= xm_x (bbMin small)
  /\ xm_y (bbMin large) <= xm_y (bbMin small)
  /\ xm_z (bbMin large) <= xm_z (bbMin small)
  /\ xm_x (bbMax small) <= xm_x (bbMax large)
  /\ xm_y (bbMax small) <= xm_y (bbMax large)
  /\ xm_z (bbMax small) <= xm_z (bbMax large).

Lemma std_max_l (a b : Q) : a <= std_max a b.
Proof. unfold std_max. destruct (Qlt_le_dec a b); lra. Qed.

Lemma std_max_r (a b : Q) : b <= std_max a b.
Proof. unfold std_max. destruct (Qlt_le_dec a b); lra. Qed.

Lemma std_min_l (a b : Q) : std_min a b <= a.
Proof. unfold std_min. destruct (Qlt_le_dec b a); lra. Qed.

Lemma std_min_r (a b : Q) : std_min a b <= b.
Proof. unfold std_min. destruct (Qlt_le_dec b a); lra. Qed.

Lemma std_max_keep (a b : Q) : b <= a -> std_max a b = a.
Proof. intros H. unfold std_max. destruct (Qlt_le_dec a b); [lra|done]. Qed.

Lemma box_le_refl (box : BoundingBox) : box_le box box.
Proof. unfold box_le. repeat split; lra. Qed.

Lemma grow_box_le (box : BoundingBox) (vertex : XMFLOAT4 Q) :
  box_le box (grow box vertex).
Proof.
  unfold box_le, grow. cbn.
  repeat split; first [apply std_min_l | apply std_max_l].
Qed.

Lemma grow_inside (box : BoundingBox) (vertex : XMFLOAT4 Q) :
  inside (grow box vertex) vertex.
Proof.
  unfold inside, grow. cbn.
  repeat split; first [apply std_min_r | apply std_max_r].
Qed.

Lemma box_le_inside (small large : BoundingBox) (p : XMFLOAT4 Q) :
  box_le small large -> inside small p -> inside large p.
Proof. unfold box_le, inside. intros H1 H2. repeat split; lra. Qed.

Lemma box_le_trans (a b c : BoundingBox) :
  box_le a b -> box_le b c -> box_le a c.
Proof. unfold box_le. intros H1 H2. repeat split; lra. Qed.

Lemma foldl_grow_box_le (vertices : list (XMFLOAT4 Q)) (box : BoundingBox) :
  box_le box (foldl grow box vertices).
Proof.
  revert box. induction vertices as [|v tl IH]; intros box.
  - apply box_le_refl.
  - simpl. eapply box_le_trans; [apply grow_box_le|apply IH].
Qed.

Lemma foldl_grow_inside (vertices : list (XMFLOAT4 Q)) (box : BoundingBox)
    (vertex : XMFLOAT4 Q) :
  vertex ∈ vertices -> inside (foldl grow box vertices) vertex.
Proof.
  revert box. induction vertices as [|v tl IH]; intros box Hin.
  - inversion Hin.
  - simpl. apply elem_of_cons in Hin as [->|Hin].
    + eapply box_le_inside; [apply foldl_grow_box_le|apply grow_inside].
    + by apply IH.
Qed.

Lemma foldl_grow_max_keep (vertices : list (XMFLOAT4 Q)) (box : BoundingBox) :
  (forall v, v ∈ vertices ->
     xm_x v <= xm_x (bbMax box) /\ xm_y v <= xm_y (bbMax box)
     /\ xm_z v <= xm_z (bbMax box)) ->
  bbMax (foldl grow box vertices) = bbMax box.
Proof.
  revert box. induction vertices as [|v tl IH]; intros box Hall; [done|].
  simpl.
  destruct (Hall v ltac:(apply elem_of_cons; by left)) as (Hx & Hy & Hz).
  assert (Hg : bbMax (grow box v) = bbMax box).
  { unfold grow. cbn. rewrite !std_max_keep by done. by destruct (bbMax box). }
  rewrite IH; [done|]. rewrite Hg. intros u Hu. apply Hall.
  apply elem_of_cons. by right.
Qed.

(** X8.  The box that [GenerateBoundingBox] computes contains every vertex
    it was given, on each of the three axes. *)
Theorem GenerateBoundingBox_contains_vertices
    (vertices : list (XMFLOAT4 Q)) (vertex : XMFLOAT4 Q) :
  vertex ∈ vertices -> inside (GenerateBoundingBox vertices) vertex.
Proof. apply foldl_grow_inside. Qed.

Lemma GenerateBoundingBox_contains_vertices_witness :
  inside (GenerateBoundingBox [MkXMFLOAT4 1 2 3 1; MkXMFLOAT4 (-4) 5 0 1])
         (MkXMFLOAT4 (-4) 5 0 1).
Proof.
  apply (GenerateBoundingBox_contains_vertices
           [MkXMFLOAT4 1 2 3 1; MkXMFLOAT4 (-4) 5 0 1]).
  apply elem_of_cons. right. apply elem_of_cons. by left.
Defined.

(** X9.  [bbMax] starts from [std::numeric_limits<float>::min()], which is
    the smallest positive [float] and not the most negative one: for a mesh
    none of whose coordinates exceeds that value (a mesh in the negative
    octant, say) the maximal corner is (2^-126, 2^-126, 2^-126) whatever the
    vertices are, and so is not a vertex coordinate. *)
Theorem GenerateBoundingBox_max_of_negative_mesh
    (vertices : list (XMFLOAT4 Q)) :
  (forall v, v ∈ vertices ->
     xm_x v <= minFloat /\ xm_y v <= minFloat /\ xm_z v <= minFloat) ->
  bbMax (GenerateBoundingBox vertices) = MkXMFLOAT4 minFloat minFloat minFloat 1
  /\ 0 < minFloat.
Proof.
  intros Hall. split; [|reflexivity].
  unfold GenerateBoundingBox. by rewrite foldl_grow_max_keep.
Qed.

Lemma GenerateBoundingBox_max_of_negative_mesh_witness :
  bbMax (GenerateBoundingBox [MkXMFLOAT4 (-1) (-2) (-3) 1;
                              MkXMFLOAT4 (-4) (-5) (-6) 1])
  = MkXMFLOAT4 minFloat minFloat minFloat 1
  /\ 0 < minFloat.
Proof.
  apply (GenerateBoundingBox_max_of_negative_mesh
           [MkXMFLOAT4 (-1) (-2) (-3) 1; MkXMFLOAT4 (-4) (-5) (-6) 1]).
  intros v Hv.
  apply elem_of_cons in Hv as [->|Hv];
    [|apply elem_of_cons in Hv as [->|Hv]; [|inversion Hv]];
    repeat split; discriminate.
Defined.

End StaticObject.

(** ** ref_dx12/dx_light.cpp : [SurfaceLight] *)
Module SurfaceLight.

Import LightBaker.

(** What [Init] reads of a [SourceStaticObject]. *)
Record StaticMesh : Type := MkStaticMesh {
  mesh_vertices : list (XMFLOAT4 R);
  mesh_indices : list Z;
  mesh_textureKey : string
}.

(** What [CalculateIrradiance] reads of the light's texture:
    [desc.reflectivity] and [desc.radiance]. *)
Record TextureDesc : Type := MkTextureDesc {
  desc_reflectivity : XMFLOAT4 R;
  desc_radiance : R
}.

(** [struct SurfaceLight] *)
Record SurfaceLight : Type := MkSurfaceLight {
  surfaceIndex : Z;
  light_area : R;
  light_trianglesPDF : list R;
  light_irradiance : XMFLOAT4 R
}.

Section Light.

#[local] Open Scope R_scope.

(** [Renderer::Inst().sourceStaticObjects] and
    [ResourceManager::Inst().FindResource]. *)
Variable sourceStaticObjects : list StaticMesh.
Variable FindResource : string -> option TextureDesc.

(** [XMVector3Cross] *)
Definition XMVector3Cross (a b : XMVECTOR) : XMVECTOR :=
  MkXMFLOAT4 (xm_y a * xm_z b - xm_z a * xm_y b)
             (xm_z a * xm_x b - xm_x a * xm_z b)
             (xm_x a * xm_y b - xm_y a * xm_x b)
             0.

(** The body of the loop over the triangles: the vertices
    [triangleInd * 3 + 0 .. 2] are read from [object.vertices] directly;
    [None] when one of them is outside the vector. *)
Definition triangle_area (vertices : list (XMFLOAT4 R)) (triangleInd : nat)
  : option R :=
  sseV0 ← vertices !! (triangleInd * 3 + 0)%nat;
  sseV1 ← vertices !! (triangleInd * 3 + 1)%nat;
  sseV2 ← vertices !! (triangleInd * 3 + 2)%nat;
  Some (XMVector3Length
          (XMVector3Cross (XMVectorSubtract sseV1 sseV0)
                          (XMVectorSubtract sseV2 sseV0)) / 2).

Fixpoint triangle_areas (vertices : list (XMFLOAT4 R))
    (triangleInd count : nat) : option (list R) :=
  match count with
  | O => Some []
  | S count' =>
      triangleArea ← triangle_area vertices triangleInd;
      rest ← triangle_areas vertices (S triangleInd) count';
      Some (triangleArea :: rest)
  end.

(** [std::accumulate(..., 0.0f)] *)
Definition accumulate (l : list R) : R := foldl Rplus 0 l.

(** The [std::transform] that fills [trianglesPDF]: [currentSum] grows by
    each area and the entry is [currentSum / light.area]. *)
Fixpoint cumulative (triangleAreas : list R) (currentSum area : R) : list R :=
  match triangleAreas with
  | [] => []
  | triangleArea :: rest =>
      let currentSum' := currentSum + triangleArea in
      currentSum' / area :: cumulative rest currentSum' area
  end.

(** [SurfaceLight::CalculateIrradiance]; [None] when an assertion fails. *)
Definition CalculateIrradiance (light : SurfaceLight) : option (XMFLOAT4 R) :=
  if decide (surfaceIndex light = FrameGraphArgs.INVALID_INDEX) then None
  else if Req_dec_T (light_area light) 0 then None
  else if decide (surfaceIndex light < 0)%Z then None
  else
    object ← sourceStaticObjects !! Z.to_nat (surfaceIndex light);
    lightTexture ← FindResource (mesh_textureKey object);
    Some (XMVectorScale
            (XMVectorScale (desc_reflectivity lightTexture)
                           (desc_radiance lightTexture))
            (1 / light_area light)).

(** [SurfaceLight::Init]; [None] when an assertion fails or an index leaves
    its vector. *)
Definition Init (light : SurfaceLight) : option SurfaceLight :=
  if decide (surfaceIndex light = FrameGraphArgs.INVALID_INDEX) then None
  else if decide (surfaceIndex light < 0)%Z then None
  else
    object ← sourceStaticObjects !! Z.to_nat (surfaceIndex light);
    let trianglesNum := (length (mesh_indices object) / 3)%nat in
    if decide (trianglesNum = 0%nat) then None
    else
      triangleAreas ← triangle_areas (mesh_vertices object) 0 trianglesNum;
      let area := accumulate triangleAreas in
      match light_trianglesPDF light with
      | _ :: _ => None
      | [] =>
          let trianglesPDF := cumulative triangleAreas 0 area in
          match last trianglesPDF with
          | None => None
          | Some back =>
              if Req_dec_T back 1 then
                let light' :=
                  MkSurfaceLight (surfaceIndex light) area trianglesPDF
                                 (light_irradiance light) in
                irradiance ← CalculateIrradiance light';
                Some (MkSurfaceLight (surfaceIndex light) area trianglesPDF
                                     irradiance)
              else None
          end
      end.

(** [SurfaceLight::GetUniformSamplePDF] *)
Definition GetUniformSamplePDF (light : SurfaceLight) : R :=
  1 / light_area light.

End Light.

(** A list of numbers that never decreases. *)
Fixpoint nondecreasing (l : list R) : Prop :=
  match l with
  | a :: (b :: _) as tl => (a <= b)%R /\ nondecreasing tl
  | _ => True
  end.

(** A mesh of two triangles in the plane z = 0, of areas 1 and 3, and its
    texture. *)
Definition demo_mesh : StaticMesh :=
  MkStaticMesh
    [ MkXMFLOAT4 0 0 0 1; MkXMFLOAT4 2 0 0 1; MkXMFLOAT4 0 1 0 1;
      MkXMFLOAT4 0 0 0 1; MkXMFLOAT4 2 0 0 1; MkXMFLOAT4 0 3 0 1 ]%R
    [0; 1; 2; 3; 4; 5] "light".

Definition demo_FindResource (key : string) : option TextureDesc :=
  if decide (key = "light")
  then Some (MkTextureDesc (MkXMFLOAT4 1 (1 / 2) 0 0)%R 8%R)
  else None.

Definition demo_surface_light : SurfaceLight :=
  MkSurfaceLight 0 0%R [] (MkXMFLOAT4 0 0 0 0)%R.

Section Facts.

#[local] Open Scope R_scope.

Lemma triangle_area_nonneg (vertices : list (XMFLOAT4 R)) (triangleInd : nat)
    (a : R) :
  triangle_area vertices triangleInd = Some a -> 0 <= a.
Proof.
  unfold triangle_area. intros H.
  destruct (vertices !! (triangleInd * 3 + 0)%nat) as [v0|];
    simpl in H; [|discriminate].
  destruct (vertices !! (triangleInd * 3 + 1)%nat) as [v1|];
    simpl in H; [|discriminate].
  destruct (vertices !! (triangleInd * 3 + 2)%nat) as [v2|];
    simpl in H; [|discriminate].
  injection H as <-. unfold XMVector3Length.
  pose proof (sqrt_pos (XMVector3Dot
    (XMVector3Cross (XMVectorSubtract v1 v0) (XMVectorSubtract v2 v0))
    (XMVector3Cross (XMVectorSubtract v1 v0) (XMVectorSubtract v2 v0)))).
  lra.
Qed.

Lemma triangle_areas_spec (vertices : list (XMFLOAT4 R))
    (triangleInd count : nat) (areas : list R) :
  triangle_areas vertices triangleInd count = Some areas ->
  length areas = count /\ Forall (fun a => 0 <= a) areas.
Proof.
  revert triangleInd areas.
  induction count as [|count IH]; intros i areas H.
  - injection H as <-. by split.
  - simpl in H.
    destruct (triangle_area vertices i) as [a|] eqn:Ha; [|discriminate].
    destruct (triangle_areas vertices (S i) count) as [rest|] eqn:Hr;
      [|discriminate].
    injection H as <-. destruct (IH _ _ Hr) as (Hlen & Hall).
    split; [simpl; by rewrite Hlen|].
    constructor; [by eapply triangle_area_nonneg|done].
Qed.

Lemma foldl_Rplus (l : list R) (s : R) :
  foldl Rplus s l = s + foldl Rplus 0 l.
Proof.
  revert s. induction l as [|a tl IH]; intros s; simpl; [lra|].
  rewrite (IH (s + a)), (IH (0 + a)). lra.
Qed.

Lemma accumulate_nonneg (l : list R) :
  Forall (fun a => 0 <= a) l -> 0 <= accumulate l.
Proof.
  unfold accumulate. induction 1 as [|a tl Ha _ IH]; simpl; [lra|].
  rewrite foldl_Rplus. lra.
Qed.

(** The entries of [cumulative] for a positive total [area]. *)
Lemma cumulative_spec (triangleAreas : list R) (currentSum area : R) :
  0 < area -> Forall (fun a => 0 <= a) triangleAreas ->
  length (cumulative triangleAreas currentSum area) = length triangleAreas
  /\ nondecreasing (cumulative triangleAreas currentSum area)
  /\ Forall (fun p => currentSum / area <= p
                      <= (currentSum + accumulate triangleAreas) / area)
            (cumulative triangleAreas currentSum area)
  /\ (triangleAreas <> [] ->
      last (cumulative triangleAreas currentSum area)
      = Some ((currentSum + accumulate triangleAreas) / area)).
Proof.
  intros Harea Hall. revert currentSum.
  induction Hall as [|a tl Ha Htl IH]; intros s.
  - simpl. repeat split; [constructor|done].
  - destruct (IH (s + a)) as (Hlen & Hnd & Hrange & Hlast).
    pose proof (accumulate_nonneg tl Htl) as Hsum.
    assert (Hacc : accumulate (a :: tl) = a + accumulate tl).
    { unfold accumulate. simpl. rewrite foldl_Rplus. lra. }
    assert (Hdiv : forall x y, x <= y -> x / area <= y / area).
    { intros x y Hxy. unfold Rdiv. apply Rmult_le_compat_r; [|done].
      left. by apply Rinv_0_lt_compat. }
    cbn [cumulative]. cbv zeta. split; [simpl; by rewrite Hlen|].
    split; [|split].
    + destruct tl as [|b tl']; [done|].
      cbn [cumulative] in *. cbv zeta in *. split; [|exact Hnd].
      apply Hdiv. inversion Htl; subst. lra.
    + constructor.
      * rewrite Hacc. split; apply Hdiv; lra.
      * eapply Forall_impl; [exact Hrange|]. cbv beta. intros p [Hp1 Hp2].
        rewrite Hacc. split.
        -- etrans; [|exact Hp1]. apply Hdiv. lra.
        -- etrans; [exact Hp2|]. apply Hdiv. lra.
    + intros _. destruct tl as [|b tl'].
      * simpl. rewrite Hacc. unfold accumulate. simpl. do 2 f_equal. lra.
      * cbn [cumulative] in *. cbv zeta in *. rewrite last_cons_cons.
        rewrite Hlast by done. rewrite Hacc. do 2 f_equal. lra.
Qed.

Lemma cumulative_area_0 (triangleAreas : list R) (currentSum : R) :
  Forall (fun p => p = 0) (cumulative triangleAreas currentSum 0).
Proof.
  revert currentSum. induction triangleAreas as [|a tl IH]; intros s.
  - constructor.
  - cbn [cumulative]. cbv zeta. constructor; [|apply IH].
    unfold Rdiv. rewrite Rinv_0. lra.
Qed.

(** X10.  When [SurfaceLight::Init] succeeds, the light's area is positive
    and [trianglesPDF] is a cumulative distribution over the triangles of
    the mesh: one entry per triangle, never decreasing, every entry between
    0 and 1, and the last entry equal to 1. *)
Theorem Init_builds_cumulative_distribution
    (sourceStaticObjects : list StaticMesh)
    (FindResource : string -> option TextureDesc)
    (light light' : SurfaceLight) (object : StaticMesh) :
  Init sourceStaticObjects FindResource light = Some light' ->
  sourceStaticObjects !! Z.to_nat (surfaceIndex light) = Some object ->
  0 < light_area light'
  /\ length (light_trianglesPDF light')
     = (length (mesh_indices object) / 3)%nat
  /\ nondecreasing (light_trianglesPDF light')
  /\ Forall (fun p => 0 <= p <= 1) (light_trianglesPDF light')
  /\ last (light_trianglesPDF light') = Some 1.
Proof.
  unfold Init. intros Hinit Hobj.
  destruct (decide (surfaceIndex light = FrameGraphArgs.INVALID_INDEX));
    [discriminate|].
  destruct (decide (surfaceIndex light < 0)%Z); [discriminate|].
  rewrite Hobj in Hinit. cbn [mbind option_bind] in Hinit.
  destruct (decide (_ = 0%nat)) as [|Hnum]; [discriminate|].
  destruct (triangle_areas (mesh_vertices object) 0 _) as [areas|] eqn:Hareas;
    [|discriminate].
  cbn [mbind option_bind] in Hinit.
  destruct (light_trianglesPDF light); [|discriminate].
  destruct (triangle_areas_spec _ _ _ _ Hareas) as (Hlen & Hpos).
  pose proof (accumulate_nonneg areas Hpos) as Hsum.
  destruct (last (cumulative areas 0 (accumulate areas))) as [back|] eqn:Hback;
    [|discriminate].
  destruct (Req_dec_T back 1) as [->|]; [|discriminate].
  assert (Hne : areas <> []).
  { intros ->. apply Hnum. by rewrite <- Hlen. }
  assert (Harea : 0 < accumulate areas).
  { destruct (Req_dec (accumulate areas) 0) as [Hz|Hnz]; [|lra].
    exfalso. rewrite Hz in Hback. apply last_Some_elem_of in Hback.
    pose proof (cumulative_area_0 areas 0) as Hall.
    rewrite Forall_forall in Hall. specialize (Hall _ Hback). lra. }
  destruct (CalculateIrradiance _ _ _) as [irradiance|]; [|discriminate].
  injection Hinit as <-. cbn [light_area light_trianglesPDF].
  destruct (cumulative_spec areas 0 _ Harea Hpos)
    as (Hclen & Hnd & Hrange & Hlast).
  split; [done|]. split; [by rewrite Hclen|]. split; [done|].
  split; [|done].
  eapply Forall_impl; [exact Hrange|]. cbv beta. intros p [Hp1 Hp2].
  unfold Rdiv in Hp1, Hp2. rewrite Rmult_0_l in Hp1.
  rewrite Rplus_0_l, Rinv_r in Hp2 by lra. done.
Qed.

Lemma demo_triangle_areas :
  exists a1 a2,
    triangle_areas (mesh_vertices demo_mesh) 0 2 = Some [a1; a2]
    /\ 0 < a1 /\ 0 <= a2.
Proof.
  eexists _, _. split; [reflexivity|]. split.
  - apply Rdiv_lt_0_compat; [|lra]. apply sqrt_lt_R0.
    unfold XMVector3Dot, XMVector3Cross, XMVectorSubtract.
    cbn [xm_x xm_y xm_z]. lra.
  - apply Rmult_le_pos; [apply sqrt_pos|]. lra.
Qed.

Lemma demo_Init :
  exists light',
    Init [demo_mesh] demo_FindResource demo_surface_light = Some light'.
Proof.
  unfold Init.
  destruct (decide (surfaceIndex demo_surface_light = FrameGraphArgs.INVALID_INDEX));
    [discriminate|].
  destruct (decide (surfaceIndex demo_surface_light < 0)%Z); [done|].
  change ([demo_mesh] !! Z.to_nat (surfaceIndex demo_surface_light))
    with (Some demo_mesh).
  cbn [mbind option_bind].
  destruct (decide ((length (mesh_indices demo_mesh) / 3)%nat = 0%nat));
    [discriminate|].
  change (length (mesh_indices demo_mesh) / 3)%nat with 2%nat.
  destruct demo_triangle_areas as (a1 & a2 & -> & Ha1 & Ha2).
  cbn [mbind option_bind light_trianglesPDF demo_surface_light cumulative].
  cbv zeta. rewrite last_cons_cons. cbn [last].
  assert (Hacc : accumulate [a1; a2] = 0 + a1 + a2) by reflexivity.
  destruct (Req_dec_T _ 1) as [_|Hne].
  - unfold CalculateIrradiance. cbn [surfaceIndex light_area].
    destruct (decide (0%Z = FrameGraphArgs.INVALID_INDEX)); [discriminate|].
    destruct (Req_dec_T (accumulate [a1; a2]) 0) as [Hz|_];
      [rewrite Hacc in Hz; lra|].
    destruct (decide (0 < 0)%Z); [done|].
    eexists. reflexivity.
  - exfalso. apply Hne. rewrite Hacc. field. lra.
Qed.

Lemma Init_builds_cumulative_distribution_witness :
  exists light',
    Init [demo_mesh] demo_FindResource demo_surface_light = Some light'
    /\ 0 < light_area light'
    /\ length (light_trianglesPDF light')
       = (length (mesh_indices demo_mesh) / 3)%nat
    /\ nondecreasing (light_trianglesPDF light')
    /\ Forall (fun p => 0 <= p <= 1) (light_trianglesPDF light')
    /\ last (light_trianglesPDF light') = Some 1.
Proof.
  destruct demo_Init as (light' & Hinit). exists light'.
  split; [exact Hinit|].
  apply (Init_builds_cumulative_distribution [demo_mesh] demo_FindResource
           demo_surface_light light' demo_mesh Hinit).
  reflexivity.
Defined.

End Facts.

End SurfaceLight.

(** ** ref_dx12/dx_light.cpp : [SurfaceLight::CalculateReflectivity] *)
Module Reflectivity.

Import LightBaker StaticObject.

#[local] Open Scope Q_scope.

(** What [CalculateReflectivity] reads of the texture's [desc]: the size
    and whether the dimension and the format are the ones it asserts. *)
Record TextureDesc : Type := MkTextureDesc {
  desc_width : Z;
  desc_height : Z;
  is_TEXTURE2D : bool;
  is_R8G8B8A8_UNORM : bool
}.

(** An [XMVECTOR] times and over a scalar, lane by lane. *)
Definition scale4 (v : XMFLOAT4 Q) (s : Q) : XMFLOAT4 Q :=
  MkXMFLOAT4 (xm_x v * s) (xm_y v * s) (xm_z v * s) (xm_w v * s).

Definition div4 (v : XMFLOAT4 Q) (s : Q) : XMFLOAT4 Q :=
  MkXMFLOAT4 (xm_x v / s) (xm_y v / s) (xm_z v / s) (xm_w v / s).

(** The largest colour channel, [std::max(std::max(in.x, in.y), in.z)]. *)
Definition max_channel (v : XMFLOAT4 Q) : Q :=
  std_max (std_max (xm_x v) (xm_y v)) (xm_z v).

(** [ColorNormalize(in, out)]: the returned maximum and the new [out]. *)
Definition ColorNormalize (inp out : XMFLOAT4 Q) : Q * XMFLOAT4 Q :=
  let max := max_channel inp in
  (max, if Qeq_dec max 0 then out else div4 inp max).

(** [std::to_integer<int>] of a [std::byte]. *)
Definition to_integer (b : Byte.byte) : Z := Z.of_N (Byte.to_N b).

(** The loop over the texels, [count] texels from [texelInd] on; [None]
    when a read leaves the data. *)
Fixpoint texel_loop (textureData : list Byte.byte) (texelInd count : nat)
    (reflectivity : XMFLOAT4 Q) : option (XMFLOAT4 Q) :=
  match count with
  | O => Some reflectivity
  | S count' =>
      r ← textureData !! (texelInd * 4 + 0)%nat;
      g ← textureData !! (texelInd * 4 + 1)%nat;
      b ← textureData !! (texelInd * 4 + 2)%nat;
      texel_loop textureData (S texelInd) count'
        (MkXMFLOAT4 (xm_x reflectivity + inject_Z (to_integer r))
                    (xm_y reflectivity + inject_Z (to_integer g))
                    (xm_z reflectivity + inject_Z (to_integer b))
                    (xm_w reflectivity))
  end.

(** The first half of [CalculateReflectivity]: the assertions, the sum over
    the texels, and "find average and then normalize".  [None] when an
    assertion fails or a read leaves the data, and for a texture without
    texels, where the division is 0/0. *)
Definition average_color (texture : TextureDesc)
    (textureData : option (list Byte.byte)) : option (XMFLOAT4 Q) :=
  data ← textureData;
  if negb (is_TEXTURE2D texture) then None
  else if negb (is_R8G8B8A8_UNORM texture) then None
  else
    let numTexels := (desc_height texture * desc_width texture)%Z in
    if (numTexels =? 0)%Z then None
    else
      sums ← texel_loop data 0 (Z.to_nat numTexels) (MkXMFLOAT4 0 0 0 0);
      Some (div4 (div4 sums (inject_Z numTexels)) 255).

(** [SurfaceLight::CalculateReflectivity] *)
Definition CalculateReflectivity (texture : TextureDesc)
    (textureData : option (list Byte.byte)) : option (XMFLOAT4 Q) :=
  reflectivity ← average_color texture textureData;
  let '(scale, reflectivity) := ColorNormalize reflectivity reflectivity in
  if Qlt_le_dec scale (1 # 2)
  then Some (scale4 reflectivity (scale * 2))
  else Some reflectivity.

(** A 2 x 1 texture: a dim red texel and a dim green one. *)
Definition demo_texture : TextureDesc := MkTextureDesc 2 1 true true.

Definition demo_textureData : list Byte.byte :=
  [ Byte.x40; Byte.x00; Byte.x00; Byte.xff;
    Byte.x00; Byte.x20; Byte.x00; Byte.xff ].

Lemma to_integer_range (b : Byte.byte) : (0 <= to_integer b <= 255)%Z.
Proof.
  unfold to_integer. pose proof (Byte.to_N_bounded b) as H.
  lia.
Qed.

(** Every channel grows by at most 255 per texel. *)
Lemma texel_loop_bounds (textureData : list Byte.byte)
    (texelInd count : nat) (r r' : XMFLOAT4 Q) :
  texel_loop textureData texelInd count r = Some r' ->
  xm_x r <= xm_x r' <= xm_x r + 255 * inject_Z (Z.of_nat count)
  /\ xm_y r <= xm_y r' <= xm_y r + 255 * inject_Z (Z.of_nat count)
  /\ xm_z r <= xm_z r' <= xm_z r + 255 * inject_Z (Z.of_nat count)
  /\ xm_w r' = xm_w r.
Proof.
  revert texelInd r. induction count as [|count IH]; intros i r H.
  - injection H as <-. change (inject_Z (Z.of_nat 0)) with 0.
    repeat split; lra.
  - cbn [texel_loop] in H.
    destruct (textureData !! (i * 4 + 0)%nat) as [cr|]; simpl in H;
      [|discriminate].
    destruct (textureData !! (i * 4 + 1)%nat) as [cg|]; simpl in H;
      [|discriminate].
    destruct (textureData !! (i * 4 + 2)%nat) as [cb|]; simpl in H;
      [|discriminate].
    apply IH in H. cbn [xm_x xm_y xm_z xm_w] in H.
    destruct H as (Hx & Hy & Hz & Hw).
    pose proof (to_integer_range cr) as [Hr0 Hr1].
    pose proof (to_integer_range cg) as [Hg0 Hg1].
    pose proof (to_integer_range cb) as [Hb0 Hb1].
    rewrite Zle_Qle in Hr0, Hr1, Hg0, Hg1, Hb0, Hb1.
    rewrite Nat2Z.inj_succ. unfold Z.succ. rewrite inject_Z_plus.
    change (inject_Z 0) with 0 in *. change (inject_Z 255) with 255 in *.
    change (inject_Z 1) with 1.
    repeat split; try lra. exact Hw.
Qed.

Lemma average_color_range (texture : TextureDesc)
    (textureData : option (list Byte.byte)) (avg : XMFLOAT4 Q) :
  average_color texture textureData = Some avg ->
  (0 < desc_height texture * desc_width texture)%Z ->
  0 <= xm_x avg <= 1 /\ 0 <= xm_y avg <= 1 /\ 0 <= xm_z avg <= 1.
Proof.
  unfold average_color. intros H Hn.
  destruct textureData as [data|]; simpl in H; [|discriminate].
  destruct (is_TEXTURE2D texture); simpl in H; [|discriminate].
  destruct (is_R8G8B8A8_UNORM texture); simpl in H; [|discriminate].
  set (numTexels := (desc_height texture * desc_width texture)%Z) in *.
  destruct (Z.eqb_spec numTexels 0) as [|_]; [lia|].
  destruct (texel_loop data 0 (Z.to_nat numTexels) _) as [sums|] eqn:Hs;
    simpl in H; [|discriminate].
  injection H as <-. apply texel_loop_bounds in Hs.
  cbn [xm_x xm_y xm_z xm_w] in Hs. rewrite Z2Nat.id in Hs by lia.
  destruct Hs as (Hx & Hy & Hz & _).
  assert (Hpos : 0 < inject_Z numTexels).
  { change 0 with (inject_Z 0). by rewrite <- Zlt_Qlt. }
  assert (Hdiv : forall s, 0 <= s <= 0 + 255 * inject_Z numTexels ->
                           0 <= s / inject_Z numTexels / 255 <= 1).
  { intros s [Hs0 Hs1]. split.
    - apply Qle_shift_div_l; [reflexivity|].
      apply Qle_shift_div_l; [done|]. lra.
    - apply Qle_shift_div_r; [reflexivity|].
      apply Qle_shift_div_r; [done|]. lra. }
  cbn [div4 xm_x xm_y xm_z]. auto.
Qed.

Lemma max_channel_range (v : XMFLOAT4 Q) (lo hi : Q) :
  lo <= xm_x v <= hi -> lo <= xm_y v <= hi -> lo <= xm_z v <= hi ->
  lo <= max_channel v <= hi.
Proof.
  intros Hx Hy Hz. unfold max_channel, std_max.
  repeat destruct (Qlt_le_dec _ _); lra.
Qed.

Lemma max_channel_ge (v : XMFLOAT4 Q) :
  xm_x v <= max_channel v /\ xm_y v <= max_channel v
  /\ xm_z v <= max_channel v.
Proof.
  unfold max_channel, std_max. repeat destruct (Qlt_le_dec _ _);
    repeat split; lra.
Qed.

(** The largest channel of a scaled colour, for a nonnegative factor. *)
Lemma max_channel_scale (v : XMFLOAT4 Q) (s : Q) :
  0 <= s -> max_channel (scale4 v s) == max_channel v * s.
Proof.
  intros Hs. unfold max_channel, std_max, scale4. cbn [xm_x xm_y xm_z].
  repeat destruct (Qlt_le_dec _ _); try reflexivity; nra.
Qed.

(** X11.  For a texture with at least one texel the reflectivity that
    [CalculateReflectivity] returns has every colour channel between 0 and
    1, and its brightest channel is 1 when the brightest channel [m] of the
    average texel colour is at least 1/2 and is [2 * m] otherwise. *)
Theorem CalculateReflectivity_range (texture : TextureDesc)
    (textureData : option (list Byte.byte)) (avg reflectivity : XMFLOAT4 Q) :
  (0 < desc_height texture * desc_width texture)%Z ->
  average_color texture textureData = Some avg ->
  CalculateReflectivity texture textureData = Some reflectivity ->
  (0 <= xm_x reflectivity <= 1 /\ 0 <= xm_y reflectivity <= 1
   /\ 0 <= xm_z reflectivity <= 1)
  /\ max_channel reflectivity
     == (if Qlt_le_dec (max_channel avg) (1 # 2)
         then 2 * max_channel avg else 1).
Proof.
  intros Hn Havg Hcalc. unfold CalculateReflectivity in Hcalc.
  rewrite Havg in Hcalc. simpl in Hcalc.
  destruct (average_color_range _ _ _ Havg Hn) as (Hx & Hy & Hz).
  pose proof (max_channel_range avg 0 1 Hx Hy Hz) as Hm.
  pose proof (max_channel_ge avg) as (Hgx & Hgy & Hgz).
  set (m := max_channel avg) in *.
  assert (Hdivm : ~ m == 0 -> forall c, 0 <= c -> c <= m ->
                  0 <= c / m /\ c / m <= 1).
  { intros Hm0 c Hc0 Hc1. assert (0 < m) by lra. split.
    - apply Qle_shift_div_l; [done|]. lra.
    - apply Qle_shift_div_r; [done|]. lra. }
  assert (Hmaxdiv : ~ m == 0 -> max_channel (div4 avg m) == 1).
  { intros Hm0. assert (0 < m) by lra.
    assert (Hd : div4 avg m = scale4 avg (/ m)) by reflexivity.
    rewrite Hd, max_channel_scale.
    - fold m. field. done.
    - apply Qlt_le_weak. by apply Qinv_lt_0_compat. }
  destruct (Qeq_dec m 0) as [Hm0|Hm0].
  - (* a black texture *)
    destruct (Qlt_le_dec m (1 # 2)) as [_|?]; [|lra].
    injection Hcalc as <-. cbn [scale4 xm_x xm_y xm_z]. split.
    + repeat split; nra.
    + rewrite max_channel_scale by lra. fold m. nra.
  - destruct (Qlt_le_dec m (1 # 2)) as [Hlt|Hge].
    + injection Hcalc as <-. split.
      * destruct (Hdivm Hm0 _ (proj1 Hx) Hgx).
        destruct (Hdivm Hm0 _ (proj1 Hy) Hgy).
        destruct (Hdivm Hm0 _ (proj1 Hz) Hgz).
        cbn [scale4 div4 xm_x xm_y xm_z]. repeat split; nra.
      * rewrite max_channel_scale by lra. rewrite (Hmaxdiv Hm0). lra.
    + injection Hcalc as <-. split.
      * destruct (Hdivm Hm0 _ (proj1 Hx) Hgx).
        destruct (Hdivm Hm0 _ (proj1 Hy) Hgy).
        destruct (Hdivm Hm0 _ (proj1 Hz) Hgz).
        cbn [div4 xm_x xm_y xm_z]. repeat split; done.
      * by apply Hmaxdiv.
Qed.

Lemma CalculateReflectivity_range_witness :
  exists avg reflectivity,
    average_color demo_texture (Some demo_textureData) = Some avg
    /\ CalculateReflectivity demo_texture (Some demo_textureData)
       = Some reflectivity
    /\ (0 <= xm_x reflectivity <= 1 /\ 0 <= xm_y reflectivity <= 1
        /\ 0 <= xm_z reflectivity <= 1)
    /\ max_channel reflectivity
       == (if Qlt_le_dec (max_channel avg) (1 # 2)
           then 2 * max_channel avg else 1).
Proof.
  eexists _, _. split; [reflexivity|]. split; [reflexivity|].
  apply (CalculateReflectivity_range demo_texture (Some demo_textureData)).
  - reflexivity.
  - reflexivity.
  - reflexivity.
Defined.

End Reflectivity.

(** ** ref_dx12/dx_framegraphbuilder.cpp : further behaviour of
    [PreprocessPassFiles] *)
Module PreprocessorFacts.

Import Preprocessor.

Lemma substring_all (s : string) : substring 0 (String.length s) s = s.
Proof.
  induction s as [|c s IH]; [reflexivity|]. simpl. by rewrite IH.
Qed.

(** X12.  A pass file without include directives goes through the loop
    unchanged, except for a file of exactly one byte: there the guard
    [currentPos + 1 != currentFile.size()] is false and the file is replaced
    by the empty string. *)
Theorem PreprocessPassFile_without_includes
    (ReadFile GenPathToFile : string -> string) (DIR file : string) :
  strlen file < 2 ^ 64 ->
  PreprocessPassFile ReadFile GenPathToFile DIR file []
  = Some (if decide (strlen file = 1) then "" else file).
Proof.
  intros Hsz. unfold PreprocessPassFile. simpl.
  assert (Hlen : 0 <= strlen file) by (unfold strlen; lia).
  change (0 + 1) with 1. rewrite (to_size_t_small 1) by lia.
  destruct (decide (1 ≠ strlen file)) as [Hne|Heq].
  - rewrite substr_in_range by (unfold npos; lia). simpl.
    destruct (decide (strlen file = 1)) as [|_]; [lia|].
    rewrite Z.min_r by (unfold npos; lia). unfold strlen.
    rewrite Z.sub_0_r, Nat2Z.id, substring_all. reflexivity.
  - destruct (decide (strlen file = 1)) as [_|]; [reflexivity|lia].
Qed.

Lemma PreprocessPassFile_without_includes_witness :
  PreprocessPassFile (λ _, "") (λ s, s) "fg" ";" []
  = Some (if decide (strlen ";" = 1) then "" else ";")
  /\ (if decide (strlen ";" = 1) then "" else ";") = "".
Proof.
  split; [|reflexivity].
  apply (PreprocessPassFile_without_includes (λ _, "") (λ s, s) "fg" ";").
  vm_compute. reflexivity.
Defined.

(** X13.  With one include directive that is followed by at least two more
    bytes, the new content of the pass file is the text in front of the
    directive, the content of the included file, and the text behind the
    directive. *)
Theorem PreprocessPassFile_one_include
    (ReadFile GenPathToFile : string -> string) (DIR file : string)
    (i : Include) :
  0 <= pos i -> 0 <= len i ->
  pos i + len i + 1 < strlen file -> strlen file < 2 ^ 64 ->
  PreprocessPassFile ReadFile GenPathToFile DIR file [i]
  = Some (substring 0 (Z.to_nat (pos i)) file
          +:+ ReadFile (GenPathToFile (DIR +:+ "/" +:+ name i))
          +:+ substring (Z.to_nat (pos i + len i))
                        (String.length file - Z.to_nat (pos i + len i)) file).
Proof.
  intros Hp Hl Hlt Hsz.
  rewrite PreprocessPassFile_single by done.
  unfold spec_PreprocessPassFile. rewrite sort_includes_single.
  cbn [spec_splice]. rewrite Nat.sub_0_r. reflexivity.
Qed.

Lemma PreprocessPassFile_one_include_witness :
  PreprocessPassFile (λ _, "<A>") (λ s, s) "fg" "pre;#include a.h;post"
                     [MkInclude "a.h" 4 12]
  = Some ("pre;" +:+ "<A>" +:+ ";post").
Proof.
  apply (PreprocessPassFile_one_include (λ _, "<A>") (λ s, s) "fg"
           "pre;#include a.h;post" (MkInclude "a.h" 4 12)).
  - simpl. lia.
  - simpl. lia.
  - vm_compute. reflexivity.
  - vm_compute. reflexivity.
Defined.

(** X14.  [PreprocessPassFiles] rewrites only the pass files whose names
    have an entry in [context.includes]: every other pass file is left as
    it was, and every name with an entry is a key of the map afterwards
    (a missing one is created by [passFiles[name]]). *)
Theorem PreprocessPassFiles_touches_listed_files
    (ReadFile GenPathToFile : string -> string) (DIR : string)
    (passFiles passFiles' : gmap string string)
    (includes : list (string * list Include)) :
  PreprocessPassFiles ReadFile GenPathToFile DIR passFiles includes
  = Some passFiles' ->
  (forall file, file ∉ includes.*1 -> passFiles' !! file = passFiles !! file)
  /\ (forall file, file ∈ includes.*1 -> is_Some (passFiles' !! file)).
Proof.
  revert passFiles. induction includes as [|[file incs] rest IH];
    intros passFiles H.
  - injection H as <-. split; [done|]. intros file Hin. inversion Hin.
  - cbn [PreprocessPassFiles] in H.
    destruct (PreprocessPassFile _ _ _ _ incs) as [processed|];
      simpl in H; [|discriminate].
    destruct (IH _ H) as (Hother & Hlisted). split.
    + intros f Hf. rewrite fmap_cons in Hf. apply not_elem_of_cons in Hf.
      destruct Hf as [Hne Hf]. rewrite (Hother f Hf).
      by apply lookup_insert_ne.
    + intros f Hf. rewrite fmap_cons in Hf.
      destruct (decide (f ∈ rest.*1)) as [Hin|Hnin]; [by apply Hlisted|].
      apply elem_of_cons in Hf as [->|Hf]; [|done].
      rewrite (Hother _ Hnin). simpl. rewrite lookup_insert_eq. by eexists.
Qed.

Lemma PreprocessPassFiles_touches_listed_files_witness :
  (forall file, file ∉ [("a.pass", [MkInclude "a.h" 4 12])].*1 ->
     ({[ "a.pass" := "pre;<A>;post"; "b.pass" := "other" ]}
        : gmap string string) !! file
     = ({[ "a.pass" := "pre;#include a.h;post"; "b.pass" := "other" ]}
          : gmap string string) !! file)
  /\ (forall file, file ∈ [("a.pass", [MkInclude "a.h" 4 12])].*1 ->
        is_Some (({[ "a.pass" := "pre;<A>;post"; "b.pass" := "other" ]}
                    : gmap string string) !! file)).
Proof.
  apply (PreprocessPassFiles_touches_listed_files (λ _, "<A>") (λ s, s) "fg"
           {[ "a.pass" := "pre;#include a.h;post"; "b.pass" := "other" ]}
           {[ "a.pass" := "pre;<A>;post"; "b.pass" := "other" ]}
           [("a.pass", [MkInclude "a.h" 4 12])]).
  vm_compute. reflexivity.
Defined.

End PreprocessorFacts.

(** ** ref_dx12/dx_framegraphbuilder.cpp : [ValidateResources] *)
Module ResourceValidation.

Import FrameGraphArgs.

(** What [ValidateResources] reads of a [PassParametersSource]. *)
Record PassParametersSource (Resource_t : Type) : Type :=
  MkPassParametersSource {
    source_input : option PassInputType;
    source_resources : list Resource_t
  }.
Arguments MkPassParametersSource {Resource_t}.
Arguments source_input {Resource_t}.
Arguments source_resources {Resource_t}.

(** The two tables of the function: [perObjectGlobalResources], one vector
    per input type, and [perPassGlobalResources]. *)
Record Tables (Resource_t : Type) : Type := MkTables {
  perObjectGlobalResources : PassInputType -> list Resource_t;
  perPassGlobalResources : list Resource_t
}.
Arguments MkTables {Resource_t}.
Arguments perObjectGlobalResources {Resource_t}.
Arguments perPassGlobalResources {Resource_t}.

Section Validate.

(** [Parsing::Resource_t] with the accessors and the comparison of the
    [Parsing] namespace. *)
Context {Resource_t : Type}.
Variable GetResourceName : Resource_t -> string.
Variable GetResourceScope : Resource_t -> ResourceScope.
Variable GetResourceBindFrequency : Resource_t -> ResourceBindFrequency.
Variable IsEqual : Resource_t -> Resource_t -> bool.

Definition same_name (currentResName : string) (res : Resource_t) : bool :=
  bool_decide (currentResName = GetResourceName res).

(** [std::find_if] and [std::count_if] with the name comparison. *)
Definition find_by_name (currentResName : string) (l : list Resource_t)
  : option Resource_t :=
  List.find (same_name currentResName) l.

Definition count_by_name (currentResName : string) (l : list Resource_t)
  : nat :=
  length (List.filter (same_name currentResName) l).

(** "Make sure content is equal" when a resource of that name is in the
    table, add the resource otherwise. *)
Definition equal_or_add (table : list Resource_t) (currentRes : Resource_t)
  : option (list Resource_t) :=
  match find_by_name (GetResourceName currentRes) table with
  | Some res => if IsEqual res currentRes then Some table else None
  | None => Some (table ++ [currentRes])
  end.

(** The assertion that no resource of that name is in the table. *)
Definition absent (table : list Resource_t) (currentRes : Resource_t) : bool :=
  match find_by_name (GetResourceName currentRes) table with
  | Some _ => false
  | None => true
  end.

Definition set_table (t : PassInputType -> list Resource_t)
    (i : PassInputType) (v : list Resource_t)
  : PassInputType -> list Resource_t :=
  fun j => if decide (j = i) then v else t j.

(** The body of the inner loop for [currentRes]; [None] when an assertion
    fails. *)
Definition check_resource (paramSource : PassParametersSource Resource_t)
    (tables : Tables Resource_t) (currentRes : Resource_t)
  : option (Tables Resource_t) :=
  (* In pass collision check *)
  if negb (count_by_name (GetResourceName currentRes)
                         (source_resources paramSource) =? 1)%nat
  then None
  else
    (* Global pass collision check *)
    perPass ←
      (if decide (GetResourceScope currentRes = Global
                  /\ GetResourceBindFrequency currentRes = PerPass)
       then equal_or_add (perPassGlobalResources tables) currentRes
       else if absent (perPassGlobalResources tables) currentRes
            then Some (perPassGlobalResources tables) else None);
    (* Global per object collision check *)
    match GetResourceBindFrequency currentRes with
    | PerObject =>
        input ← source_input paramSource;
        let objTypeGlobalResource := perObjectGlobalResources tables input in
        match GetResourceScope currentRes with
        | Global =>
            table ← equal_or_add objTypeGlobalResource currentRes;
            Some (MkTables
                    (set_table (perObjectGlobalResources tables) input table)
                    perPass)
        | Local =>
            if absent objTypeGlobalResource currentRes
            then Some (MkTables (perObjectGlobalResources tables) perPass)
            else None
        end
    | PerPass =>
        if forallb (fun input =>
                      absent (perObjectGlobalResources tables input)
                             currentRes)
                   [UI; Static; Dynamic; Particles]
        then Some (MkTables (perObjectGlobalResources tables) perPass)
        else None
    end.

Fixpoint check_resources (paramSource : PassParametersSource Resource_t)
    (tables : Tables Resource_t) (resources : list Resource_t)
  : option (Tables Resource_t) :=
  match resources with
  | [] => Some tables
  | currentRes :: rest =>
      tables' ← check_resource paramSource tables currentRes;
      check_resources paramSource tables' rest
  end.

Fixpoint check_passes (tables : Tables Resource_t)
    (passesParametersSources : list (PassParametersSource Resource_t))
  : option (Tables Resource_t) :=
  match passesParametersSources with
  | [] => Some tables
  | paramSource :: rest =>
      tables' ← check_resources paramSource tables
                                (source_resources paramSource);
      check_passes tables' rest
  end.

(** [FrameGraphBuilder::ValidateResources] in a debug build: the tables at
    the end, or [None] when an assertion fails. *)
Definition ValidateResources
    (passesParametersSources : list (PassParametersSource Resource_t))
  : option (Tables Resource_t) :=
  check_passes (MkTables (fun _ => []) []) passesParametersSources.

(** A resource is Global and PerPass. *)
Definition global_per_pass (res : Resource_t) : Prop :=
  GetResourceScope res = Global /\ GetResourceBindFrequency res = PerPass.

(** The resource is represented in the table: the table holds a resource
    of its name that is the resource itself or compares equal to it. *)
Definition represented (table : list Resource_t) (res : Resource_t) : Prop :=
  exists first,
    first ∈ table /\ GetResourceName first = GetResourceName res
    /\ (first = res \/ IsEqual first res = true).

End Validate.

(** A resource for the examples: name, scope, bind frequency and register. *)
Record DemoResource : Type := MkDemoResource {
  demo_name : string;
  demo_scope : ResourceScope;
  demo_frequency : ResourceBindFrequency;
  demo_register : Z
}.

#[global] Instance DemoResource_eq_dec : EqDecision DemoResource.
Proof. solve_decision. Defined.

Definition demo_IsEqual (a b : DemoResource) : bool := bool_decide (a = b).

Definition demo_camera : DemoResource :=
  MkDemoResource "Camera" Global PerPass 0.

Definition demo_passes : list (PassParametersSource DemoResource) :=
  [ MkPassParametersSource (Some UI)
      [demo_camera; MkDemoResource "Font" Local PerObject 1];
    MkPassParametersSource (Some Static)
      [MkDemoResource "Albedo" Global PerObject 1; demo_camera] ].

Section ValidateFacts.

Context {Resource_t : Type}.
Variable GetResourceName : Resource_t -> string.
Variable GetResourceScope : Resource_t -> ResourceScope.
Variable GetResourceBindFrequency : Resource_t -> ResourceBindFrequency.
Variable IsEqual : Resource_t -> Resource_t -> bool.

#[local] Abbreviation same_name := (same_name GetResourceName).
#[local] Abbreviation find_by_name := (find_by_name GetResourceName).
#[local] Abbreviation count_by_name := (count_by_name GetResourceName).
#[local] Abbreviation equal_or_add := (equal_or_add GetResourceName IsEqual).
#[local] Abbreviation check_resource :=
  (check_resource GetResourceName GetResourceScope GetResourceBindFrequency
                  IsEqual).
#[local] Abbreviation check_resources :=
  (check_resources GetResourceName GetResourceScope GetResourceBindFrequency
                   IsEqual).
#[local] Abbreviation check_passes :=
  (check_passes GetResourceName GetResourceScope GetResourceBindFrequency
                IsEqual).
#[local] Abbreviation represented := (represented GetResourceName IsEqual).
#[local] Abbreviation global_per_pass :=
  (global_per_pass GetResourceScope GetResourceBindFrequency).

Lemma find_by_name_Some (n : string) (l : list Resource_t) (r : Resource_t) :
  find_by_name n l = Some r -> r ∈ l /\ GetResourceName r = n.
Proof.
  unfold find_by_name. intros H. apply find_some in H as [Hin Hn].
  split; [by apply list_elem_of_In|].
  unfold same_name in Hn. by apply bool_decide_eq_true in Hn.
Qed.

Lemma find_by_name_None (n : string) (l : list Resource_t) (r : Resource_t) :
  find_by_name n l = None -> r ∈ l -> GetResourceName r <> n.
Proof.
  unfold find_by_name. intros H Hin Hn.
  apply list_elem_of_In in Hin.
  pose proof (find_none _ _ H r Hin) as Hf.
  unfold same_name in Hf. apply bool_decide_eq_false in Hf. congruence.
Qed.

(** Two occurrences of a name make [count_if] count at least two. *)
Lemma count_by_name_two (n : string) (l : list Resource_t) (i j : nat)
    (a b : Resource_t) :
  (i < j)%nat -> l !! i = Some a -> l !! j = Some b ->
  GetResourceName a = n -> GetResourceName b = n ->
  (2 <= count_by_name n l)%nat.
Proof.
  unfold count_by_name. revert i j.
  induction l as [|c tl IH]; intros i j Hij Ha Hb Hna Hnb; [done|].
  destruct i as [|i].
  - injection Ha as ->. destruct j as [|j]; [lia|]. simpl in Hb.
    cbn [List.filter]. unfold same_name at 1.
    rewrite bool_decide_eq_true_2 by done. cbn [length].
    assert (Hin : In b (List.filter (same_name n) tl)).
    { apply filter_In. split.
      - apply list_elem_of_In. by eapply list_elem_of_lookup_2.
      - unfold same_name. by apply bool_decide_eq_true_2. }
    destruct (List.filter _ tl); [done|]. simpl. lia.
  - destruct j as [|j]; [lia|]. simpl in Ha, Hb.
    assert (2 <= length (List.filter (same_name n) tl))%nat
      by (apply (IH i j); [lia|done..]).
    cbn [List.filter]. destruct (same_name n c); simpl; lia.
Qed.

Lemma check_resources_counts (paramSource : PassParametersSource Resource_t)
    (tables tables' : Tables Resource_t) (resources : list Resource_t) :
  check_resources paramSource tables resources = Some tables' ->
  forall res, res ∈ resources ->
    count_by_name (GetResourceName res) (source_resources paramSource)
    = 1%nat.
Proof.
  revert tables. induction resources as [|c rest IH]; intros tables H res Hin.
  - inversion Hin.
  - cbn [check_resources] in H.
    destruct (check_resource paramSource tables c) as [t1|] eqn:Hc;
      simpl in H; [|discriminate].
    apply elem_of_cons in Hin as [->|Hin]; [|by eapply IH].
    unfold ResourceValidation.check_resource in Hc.
    destruct (Nat.eqb_spec (count_by_name (GetResourceName c)
                              (source_resources paramSource)) 1);
      [done|discriminate].
Qed.

(** Case analysis on the test that guards an optional result. *)
Ltac branch H :=
  match type of H with
  | (if ?c then _ else _) = Some _ =>
      destruct c; simpl in H; try discriminate
  | (match ?c with _ => _ end) = Some _ =>
      destruct c; simpl in H; try discriminate
  | (?c ≫= _) = Some _ =>
      destruct c; simpl in H; try discriminate
  end.

(** What one resource does to [perPassGlobalResources]. *)
Lemma check_resource_perPass (paramSource : PassParametersSource Resource_t)
    (tables tables' : Tables Resource_t) (currentRes : Resource_t) :
  check_resource paramSource tables currentRes = Some tables' ->
  (if decide (global_per_pass currentRes)
   then equal_or_add (perPassGlobalResources tables) currentRes
        = Some (perPassGlobalResources tables')
   else perPassGlobalResources tables' = perPassGlobalResources tables
        /\ find_by_name (GetResourceName currentRes)
                        (perPassGlobalResources tables) = None).
Proof.
  unfold ResourceValidation.check_resource, ResourceValidation.global_per_pass.
  intros H.
  destruct (negb _); [discriminate|].
  destruct (decide (GetResourceScope currentRes = Global
                    /\ GetResourceBindFrequency currentRes = PerPass))
    as [Hg|Hg].
  - destruct (equal_or_add (perPassGlobalResources tables) currentRes)
      as [perPass|]; simpl in H; [|discriminate].
    repeat branch H; by injection H as <-.
  - unfold absent in H.
    destruct (find_by_name (GetResourceName currentRes)
                (perPassGlobalResources tables)) eqn:Hfind; simpl in H;
      [discriminate|].
    repeat branch H; by injection H as <-.
Qed.

(** The invariant of [perPassGlobalResources]: its names are distinct. *)
Definition distinct_names (table : list Resource_t) : Prop :=
  forall i j a b,
    table !! i = Some a -> table !! j = Some b ->
    GetResourceName a = GetResourceName b -> i = j.

Lemma equal_or_add_spec (table table' : list Resource_t)
    (currentRes : Resource_t) :
  distinct_names table ->
  equal_or_add table currentRes = Some table' ->
  distinct_names table' /\ table `prefix_of` table'
  /\ represented table' currentRes.
Proof.
  unfold ResourceValidation.equal_or_add. intros Hd H.
  destruct (find_by_name (GetResourceName currentRes) table) as [res|]
    eqn:Hfind.
  - destruct (IsEqual res currentRes) eqn:Heq; [|discriminate].
    injection H as <-. apply find_by_name_Some in Hfind as [Hin Hn].
    split; [done|]. split; [done|]. exists res. auto.
  - injection H as <-. split; [|split].
    + intros i j a b Ha Hb Hn.
      destruct (decide (i < length table)%nat) as [Hi|Hi];
        destruct (decide (j < length table)%nat) as [Hj|Hj].
      * rewrite lookup_app_l in Ha, Hb by done. by eapply Hd.
      * rewrite lookup_app_l in Ha by done.
        rewrite lookup_app_r in Hb by lia.
        apply list_lookup_singleton_Some in Hb as [_ <-].
        exfalso. eapply find_by_name_None; [exact Hfind| |exact Hn].
        by eapply list_elem_of_lookup_2.
      * rewrite lookup_app_l in Hb by done.
        rewrite lookup_app_r in Ha by lia.
        apply list_lookup_singleton_Some in Ha as [_ <-].
        exfalso. eapply find_by_name_None; [exact Hfind| |symmetry; exact Hn].
        by eapply list_elem_of_lookup_2.
      * apply lookup_lt_Some in Ha, Hb. rewrite length_app in Ha, Hb.
        simpl in Ha, Hb. lia.
    + by apply prefix_app_r.
    + exists currentRes. split; [|auto].
      apply elem_of_app. right. by apply list_elem_of_singleton.
Qed.

Lemma represented_mono (table table' : list Resource_t) (res : Resource_t) :
  table `prefix_of` table' -> represented table res -> represented table' res.
Proof.
  intros [k ->] (first & Hin & Hn & Heq). exists first.
  split; [apply elem_of_app; by left|done].
Qed.

Lemma check_resources_perPass (paramSource : PassParametersSource Resource_t)
    (tables tables' : Tables Resource_t) (resources : list Resource_t) :
  distinct_names (perPassGlobalResources tables) ->
  check_resources paramSource tables resources = Some tables' ->
  distinct_names (perPassGlobalResources tables')
  /\ perPassGlobalResources tables `prefix_of` perPassGlobalResources tables'
  /\ forall res, res ∈ resources -> global_per_pass res ->
       represented (perPassGlobalResources tables') res.
Proof.
  revert tables. induction resources as [|c rest IH]; intros tables Hd H.
  - injection H as <-. split; [done|]. split; [done|].
    intros res Hin. inversion Hin.
  - cbn [check_resources] in H.
    destruct (check_resource paramSource tables c) as [t1|] eqn:Hc;
      simpl in H; [|discriminate].
    apply check_resource_perPass in Hc.
    destruct (decide (global_per_pass c)) as [Hg|Hg].
    + destruct (equal_or_add_spec _ _ _ Hd Hc) as (Hd1 & Hp1 & Hr1).
      destruct (IH _ Hd1 H) as (Hd2 & Hp2 & Hr2).
      split; [done|]. split; [by etrans|].
      intros res Hin Hres. apply elem_of_cons in Hin as [->|Hin].
      * by eapply represented_mono.
      * by apply Hr2.
    + destruct Hc as [Heq _]. rewrite <- Heq in Hd.
      destruct (IH _ Hd H) as (Hd2 & Hp2 & Hr2). rewrite Heq in Hp2.
      split; [done|]. split; [done|].
      intros res Hin Hres. apply elem_of_cons in Hin as [->|Hin]; [done|].
      by apply Hr2.
Qed.

Lemma check_passes_perPass (tables tables' : Tables Resource_t)
    (passes : list (PassParametersSource Resource_t)) :
  distinct_names (perPassGlobalResources tables) ->
  check_passes tables passes = Some tables' ->
  distinct_names (perPassGlobalResources tables')
  /\ perPassGlobalResources tables `prefix_of` perPassGlobalResources tables'
  /\ forall pass res, pass ∈ passes -> res ∈ source_resources pass ->
       global_per_pass res ->
       represented (perPassGlobalResources tables') res.
Proof.
  revert tables. induction passes as [|p rest IH]; intros tables Hd H.
  - injection H as <-. split; [done|]. split; [done|].
    intros pass res Hin. inversion Hin.
  - cbn [check_passes] in H.
    destruct (check_resources p tables (source_resources p)) as [t1|] eqn:Hc;
      simpl in H; [|discriminate].
    destruct (check_resources_perPass _ _ _ _ Hd Hc) as (Hd1 & Hp1 & Hr1).
    destruct (IH _ Hd1 H) as (Hd2 & Hp2 & Hr2).
    split; [done|]. split; [by etrans|].
    intros pass res Hin Hres Hg. apply elem_of_cons in Hin as [->|Hin].
    + eapply represented_mono; [exact Hp2|]. by apply Hr1.
    + by eapply Hr2.
Qed.

(** X15.  When [ValidateResources] passes (no assertion fails), the
    resources of every pass have pairwise different names. *)
Theorem ValidateResources_names_unique_in_pass
    (passes : list (PassParametersSource Resource_t))
    (tables : Tables Resource_t) (pass : PassParametersSource Resource_t) :
  ValidateResources GetResourceName GetResourceScope
    GetResourceBindFrequency IsEqual passes = Some tables ->
  pass ∈ passes ->
  NoDup (GetResourceName <$> source_resources pass).
Proof.
  unfold ValidateResources. generalize (MkTables (fun _ => []) []
                                          : Tables Resource_t).
  induction passes as [|p rest IH]; intros t0 H Hin; [inversion Hin|].
  cbn [ResourceValidation.check_passes] in H.
  destruct (check_resources p t0 (source_resources p)) as [t1|] eqn:Hc;
    simpl in H; [|discriminate].
  apply elem_of_cons in Hin as [->|Hin]; [|by eapply IH].
  pose proof (check_resources_counts _ _ _ _ Hc) as Hcount.
  apply NoDup_alt. intros i j n Hi Hj.
  rewrite list_lookup_fmap in Hi, Hj.
  destruct (source_resources p !! i) as [a|] eqn:Ha; [|discriminate].
  destruct (source_resources p !! j) as [b|] eqn:Hb; [|discriminate].
  injection Hi as Hna. injection Hj as Hnb.
  assert (Hone : count_by_name n (source_resources p) = 1%nat).
  { rewrite <- Hna. apply Hcount. by eapply list_elem_of_lookup_2. }
  destruct (Nat.lt_trichotomy i j) as [Hlt|[->|Hgt]]; [|done|].
  - pose proof (count_by_name_two n _ i j a b Hlt Ha Hb Hna Hnb). lia.
  - pose proof (count_by_name_two n _ j i b a Hgt Hb Ha Hnb Hna). lia.
Qed.

(** X16.  When [ValidateResources] passes and [IsEqual] is an equivalence,
    any two Global PerPass resources of the same name, in whichever passes
    they are declared, compare equal: a global name stands for one
    resource. *)
Theorem ValidateResources_global_names_agree
    (passes : list (PassParametersSource Resource_t))
    (tables : Tables Resource_t)
    (pass1 pass2 : PassParametersSource Resource_t) (res1 res2 : Resource_t) :
  (forall a, IsEqual a a = true) ->
  (forall a b, IsEqual a b = true -> IsEqual b a = true) ->
  (forall a b c, IsEqual a b = true -> IsEqual b c = true ->
                 IsEqual a c = true) ->
  ValidateResources GetResourceName GetResourceScope
    GetResourceBindFrequency IsEqual passes = Some tables ->
  pass1 ∈ passes -> res1 ∈ source_resources pass1 ->
  pass2 ∈ passes -> res2 ∈ source_resources pass2 ->
  global_per_pass res1 -> global_per_pass res2 ->
  GetResourceName res1 = GetResourceName res2 ->
  IsEqual res1 res2 = true.
Proof.
  intros Hrefl Hsym Htrans H Hp1 Hr1 Hp2 Hr2 Hg1 Hg2 Hname.
  unfold ValidateResources in H.
  assert (Hd0 : distinct_names
                  (perPassGlobalResources
                     (MkTables (fun _ => []) [] : Tables Resource_t))).
  { intros i j a b Ha. inversion Ha. }
  destruct (check_passes_perPass _ _ _ Hd0 H) as (Hd & _ & Hrep).
  destruct (Hrep pass1 res1 Hp1 Hr1 Hg1) as (f1 & Hin1 & Hn1 & He1).
  destruct (Hrep pass2 res2 Hp2 Hr2 Hg2) as (f2 & Hin2 & Hn2 & He2).
  apply list_elem_of_lookup in Hin1 as [i Hi].
  apply list_elem_of_lookup in Hin2 as [j Hj].
  assert (i = j) as -> by (eapply Hd; [done..|congruence]).
  assert (f1 = f2) as -> by congruence.
  assert (H1 : IsEqual f2 res1 = true) by (destruct He1 as [->|?]; auto).
  assert (H2 : IsEqual f2 res2 = true) by (destruct He2 as [->|?]; auto).
  eapply Htrans; [apply Hsym; exact H1|exact H2].
Qed.

End ValidateFacts.

Lemma ValidateResources_demo :
  perPassGlobalResources
  <$> ValidateResources demo_name demo_scope demo_frequency demo_IsEqual
        demo_passes
  = Some [demo_camera].
Proof. vm_compute. reflexivity. Qed.

Lemma ValidateResources_names_unique_in_pass_witness :
  NoDup (demo_name <$> [demo_camera; MkDemoResource "Font" Local PerObject 1]).
Proof.
  destruct (ValidateResources demo_name demo_scope demo_frequency
              demo_IsEqual demo_passes) as [tables|] eqn:Hv;
    [|vm_compute in Hv; discriminate].
  apply (ValidateResources_names_unique_in_pass demo_name demo_scope
           demo_frequency demo_IsEqual demo_passes tables
           (MkPassParametersSource (Some UI)
              [demo_camera; MkDemoResource "Font" Local PerObject 1]) Hv).
  apply elem_of_cons. by left.
Defined.

Lemma ValidateResources_global_names_agree_witness :
  demo_IsEqual demo_camera demo_camera = true.
Proof.
  destruct (ValidateResources demo_name demo_scope demo_frequency
              demo_IsEqual demo_passes) as [tables|] eqn:Hv;
    [|vm_compute in Hv; discriminate].
  apply (ValidateResources_global_names_agree demo_name demo_scope
           demo_frequency demo_IsEqual demo_passes tables
           (MkPassParametersSource (Some UI)
              [demo_camera; MkDemoResource "Font" Local PerObject 1])
           (MkPassParametersSource (Some Static)
              [MkDemoResource "Albedo" Global PerObject 1; demo_camera])
           demo_camera demo_camera).
  - intros a. by apply bool_decide_eq_true_2.
  - intros a b Hab. apply bool_decide_eq_true in Hab.
    by apply bool_decide_eq_true_2.
  - intros a b c Hab Hbc. apply bool_decide_eq_true in Hab, Hbc.
    apply bool_decide_eq_true_2. congruence.
  - exact Hv.
  - apply elem_of_cons. by left.
  - apply elem_of_cons. by left.
  - apply elem_of_cons. right. apply elem_of_cons. by left.
  - apply elem_of_cons. right. apply elem_of_cons. by left.
  - split; reflexivity.
  - split; reflexivity.
  - reflexivity.
Defined.

End ResourceValidation.

(** ** ref_dx12/dx_framegraphbuilder.cpp : [GenerateInputLayout] *)
Module InputLayout.

(** [Parsing::VertAttrField], [Parsing::VertAttr] and what the function
    reads of the [PassParametersSource]; [DataType] is
    [Parsing::DataType]. *)
Record VertAttrField (DataType : Type) : Type := MkVertAttrField {
  field_type : DataType;
  field_hashedName : Z;
  field_semanticName : string;
  field_semanticIndex : Z;
  field_name : string
}.
Arguments MkVertAttrField {DataType}.
Arguments field_type {DataType}.
Arguments field_hashedName {DataType}.
Arguments field_semanticName {DataType}.
Arguments field_semanticIndex {DataType}.
Arguments field_name {DataType}.

Record VertAttr (DataType : Type) : Type := MkVertAttr {
  attr_name : string;
  attr_content : list (VertAttrField DataType);
  attr_rawView : string
}.
Arguments MkVertAttr {DataType}.
Arguments attr_name {DataType}.
Arguments attr_content {DataType}.
Arguments attr_rawView {DataType}.

Record PassParametersSource (DataType : Type) : Type :=
  MkPassParametersSource {
    inputVertAttr : string;
    vertAttr : list (VertAttr DataType);
    vertAttrSlots : list (Z * Z)
  }.
Arguments MkPassParametersSource {DataType}.
Arguments inputVertAttr {DataType}.
Arguments vertAttr {DataType}.
Arguments vertAttrSlots {DataType}.

(** [D3D12_INPUT_ELEMENT_DESC]; [InputSlotClass] is always
    [D3D12_INPUT_CLASSIFICATION_PER_VERTEX_DATA]. *)
Record D3D12_INPUT_ELEMENT_DESC (DXGI_FORMAT : Type) : Type :=
  MkInputElementDesc {
    SemanticName : string;
    SemanticIndex : Z;
    Format : DXGI_FORMAT;
    InputSlot : Z;
    AlignedByteOffset : Z;
    InstanceDataStepRate : Z
  }.
Arguments MkInputElementDesc {DXGI_FORMAT}.
Arguments SemanticName {DXGI_FORMAT}.
Arguments SemanticIndex {DXGI_FORMAT}.
Arguments Format {DXGI_FORMAT}.
Arguments InputSlot {DXGI_FORMAT}.
Arguments AlignedByteOffset {DXGI_FORMAT}.
Arguments InstanceDataStepRate {DXGI_FORMAT}.

(** Arithmetic of [unsigned int]. *)
Definition to_unsigned (z : Z) : Z := z mod 2 ^ 32.

Section Layout.

Context {DataType DXGI_FORMAT : Type}.

(** [Parsing::GetParseDataTypeSize], [Parsing::GetParseDataTypeDXGIFormat] *)
Variable GetParseDataTypeSize : DataType -> Z.
Variable GetParseDataTypeDXGIFormat : DataType -> DXGI_FORMAT.

(** [FrameGraphBuilder::GetPassInputVertAttr]: the first attribute whose
    name is the pass's input name; [None] when the assertion fails. *)
Definition GetPassInputVertAttr (pass : PassParametersSource DataType)
  : option (VertAttr DataType) :=
  List.find (fun attr => bool_decide (inputVertAttr pass = attr_name attr))
            (vertAttr pass).

(** The input slot of a field: the slot of the first entry of
    [vertAttrSlots] with the field's hashed name, 0 when there is none. *)
Definition slot_of (pass : PassParametersSource DataType)
    (field : VertAttrField DataType) : Z :=
  match List.find (fun slot => bool_decide (field_hashedName field = fst slot))
                  (vertAttrSlots pass) with
  | Some slot => snd slot
  | None => 0
  end.

(** The loop over [vertAttr.content]; [inputSlotOffset] is the array of 16
    running offsets.  [None] when the slot is outside the array. *)
Fixpoint layout_loop (pass : PassParametersSource DataType)
    (fields : list (VertAttrField DataType)) (inputSlotOffset : list Z)
  : option (list (D3D12_INPUT_ELEMENT_DESC DXGI_FORMAT)) :=
  match fields with
  | [] => Some []
  | field :: rest =>
      let inputSlot := slot_of pass field in
      if (inputSlot <? 0) || (16 <=? inputSlot) then None
      else
        offset ← inputSlotOffset !! Z.to_nat inputSlot;
        inputLayout ←
          layout_loop pass rest
            (<[Z.to_nat inputSlot :=
                 to_unsigned (offset + GetParseDataTypeSize (field_type field))]>
               inputSlotOffset);
        Some (MkInputElementDesc (field_semanticName field)
                (field_semanticIndex field)
                (GetParseDataTypeDXGIFormat (field_type field))
                inputSlot offset 0
              :: inputLayout)
  end.

(** [FrameGraphBuilder::GenerateInputLayout] *)
Definition GenerateInputLayout (pass : PassParametersSource DataType)
  : option (list (D3D12_INPUT_ELEMENT_DESC DXGI_FORMAT)) :=
  vertAttr ← GetPassInputVertAttr pass;
  if negb (bool_decide (vertAttrSlots pass = [])
           || (length (vertAttrSlots pass) =? length (attr_content vertAttr))%nat)
  then None
  else layout_loop pass (attr_content vertAttr) (replicate 16 0).

(** The sizes of the fields among [fields] that go to the slot [slot]. *)
Definition sizes_in_slot (pass : PassParametersSource DataType) (slot : Z)
    (fields : list (VertAttrField DataType)) : list Z :=
  (fun field => GetParseDataTypeSize (field_type field))
  <$> List.filter (fun field => bool_decide (slot_of pass field = slot)) fields.

End Layout.

(** The sum of a list of sizes. *)
Definition sum_sizes (sizes : list Z) : Z := foldr Z.add 0 sizes.

(** A vertex format for the examples: position and colour in slot 0, the
    texture coordinates in slot 1. *)
Inductive DemoType : Type := Float2 | Float4.

Definition demo_size (t : DemoType) : Z :=
  match t with Float2 => 8 | Float4 => 16 end.

Definition demo_vertex_pass : PassParametersSource DemoType :=
  MkPassParametersSource "VertexIn"
    [ MkVertAttr "VertexIn"
        [ MkVertAttrField Float4 11 "POSITION" 0 "pos";
          MkVertAttrField Float2 12 "TEXCOORD" 0 "uv";
          MkVertAttrField Float4 13 "COLOR" 0 "col" ]
        "struct VertexIn" ]
    [ (11, 0); (12, 1); (13, 0) ].

Section LayoutFacts.

Context {DataType DXGI_FORMAT : Type}.
Variable GetParseDataTypeSize : DataType -> Z.
Variable GetParseDataTypeDXGIFormat : DataType -> DXGI_FORMAT.

Lemma to_unsigned_add (a b : Z) :
  to_unsigned (to_unsigned a + b) = to_unsigned (a + b).
Proof. unfold to_unsigned. by rewrite Zplus_mod_idemp_l. Qed.

(** The loop with the running offsets [base]: element [i] gets the slot of
    field [i] and the offset of that slot advanced by the sizes of the
    earlier fields of the same slot. *)
Lemma layout_loop_spec (pass : PassParametersSource DataType)
    (fields : list (VertAttrField DataType)) (inputSlotOffset : list Z)
    (base : nat -> Z)
    (inputLayout : list (D3D12_INPUT_ELEMENT_DESC DXGI_FORMAT)) :
  length inputSlotOffset = 16%nat ->
  (forall s, (s < 16)%nat ->
     inputSlotOffset !! s = Some (to_unsigned (base s))) ->
  layout_loop GetParseDataTypeSize GetParseDataTypeDXGIFormat pass fields
              inputSlotOffset = Some inputLayout ->
  length inputLayout = length fields
  /\ forall (i : nat) (field : VertAttrField DataType),
       fields !! i = Some field ->
       exists desc,
         inputLayout !! i = Some desc
         /\ InputSlot desc = slot_of pass field
         /\ 0 <= InputSlot desc < 16
         /\ AlignedByteOffset desc
            = to_unsigned
                (base (Z.to_nat (slot_of pass field))
                 + sum_sizes (sizes_in_slot GetParseDataTypeSize pass
                                (slot_of pass field) (take i fields)))
         /\ SemanticName desc = field_semanticName field
         /\ SemanticIndex desc = field_semanticIndex field
         /\ Format desc = GetParseDataTypeDXGIFormat (field_type field).
Proof.
  revert inputSlotOffset base inputLayout.
  induction fields as [|f rest IH]; intros offs base layout Hlen Hbase H.
  - injection H as <-. split; [done|]. intros i field Hi. inversion Hi.
  - cbn [layout_loop] in H. cbv zeta in H.
    destruct (Z.ltb_spec (slot_of pass f) 0) as [|Hlo]; [discriminate|].
    destruct (Z.leb_spec 16 (slot_of pass f)) as [|Hhi]; [discriminate|].
    simpl in H.
    assert (Hs : (Z.to_nat (slot_of pass f) < 16)%nat) by lia.
    rewrite (Hbase _ Hs) in H. simpl in H.
    set (base' := fun s : nat =>
           if decide (s = Z.to_nat (slot_of pass f))
           then base s + GetParseDataTypeSize (field_type f) else base s).
    destruct (layout_loop _ _ pass rest _) as [tl|] eqn:Hrest; simpl in H;
      [|discriminate].
    injection H as <-.
    apply (IH _ base') in Hrest as (Hl & Hall); cycle 1.
    { by rewrite length_insert. }
    { intros s Hlt. unfold base'.
      destruct (decide (s = Z.to_nat (slot_of pass f))) as [->|Hne].
      - rewrite list_lookup_insert_eq by lia. by rewrite to_unsigned_add.
      - rewrite list_lookup_insert_ne by done. by apply Hbase. }
    { split; [simpl; by rewrite Hl|].
      intros [|i] field Hi.
      * injection Hi as <-. eexists. split; [reflexivity|].
        cbn [InputSlot AlignedByteOffset SemanticName SemanticIndex Format].
        split; [done|]. split; [lia|]. split; [|done].
        cbn. by rewrite Z.add_0_r.
      * simpl in Hi. destruct (Hall i field Hi)
          as (desc & Hd & Hslot & Hrange & Hoff & Hrest').
        exists desc. split; [done|]. split; [done|]. split; [done|].
        split; [|done]. rewrite Hoff. f_equal. unfold base'.
        cbn [take]. unfold sizes_in_slot. cbn [List.filter].
        destruct (decide (Z.to_nat (slot_of pass field)
                          = Z.to_nat (slot_of pass f))) as [Heq|Hne].
        -- assert (slot_of pass f = slot_of pass field) as Hsame by lia.
           rewrite bool_decide_eq_true_2 by done. unfold sum_sizes. cbn. lia.
        -- rewrite bool_decide_eq_false_2 by congruence. done. }
Qed.

(** X17.  When [GenerateInputLayout] succeeds, the layout has one element
    per field of the pass's input vertex attribute, in declaration order;
    each element has the semantic, the format and the input slot of its
    field, the slot is one of the 16 slots, and its byte offset is the sum
    of the sizes of the earlier fields in the same slot (in [unsigned int]
    arithmetic): the fields of a slot are laid out back to back. *)
Theorem GenerateInputLayout_offsets (pass : PassParametersSource DataType)
    (vertAttr : VertAttr DataType)
    (inputLayout : list (D3D12_INPUT_ELEMENT_DESC DXGI_FORMAT)) :
  GetPassInputVertAttr pass = Some vertAttr ->
  GenerateInputLayout GetParseDataTypeSize GetParseDataTypeDXGIFormat pass
  = Some inputLayout ->
  length inputLayout = length (attr_content vertAttr)
  /\ forall (i : nat) (field : VertAttrField DataType),
       attr_content vertAttr !! i = Some field ->
       exists desc,
         inputLayout !! i = Some desc
         /\ InputSlot desc = slot_of pass field
         /\ 0 <= InputSlot desc < 16
         /\ AlignedByteOffset desc
            = to_unsigned
                (sum_sizes (sizes_in_slot GetParseDataTypeSize pass
                              (slot_of pass field)
                              (take i (attr_content vertAttr))))
         /\ SemanticName desc = field_semanticName field
         /\ SemanticIndex desc = field_semanticIndex field
         /\ Format desc = GetParseDataTypeDXGIFormat (field_type field).
Proof.
  intros Hattr H. unfold GenerateInputLayout in H. rewrite Hattr in H.
  simpl in H. destruct (negb _); [discriminate|].
  destruct (layout_loop_spec pass (attr_content vertAttr) (replicate 16 0)
              (fun _ => 0) inputLayout) as (Hl & Hall); [done| |exact H|].
  - intros s Hs. rewrite lookup_replicate_2 by done. reflexivity.
  - split; [done|]. exact Hall.
Qed.

End LayoutFacts.

Lemma GenerateInputLayout_demo :
  (fun desc => (InputSlot desc, AlignedByteOffset desc))
  <$> default [] (GenerateInputLayout demo_size (fun t => t) demo_vertex_pass)
  = [(0, 0); (1, 0); (0, 16)].
Proof. vm_compute. reflexivity. Qed.

Lemma GenerateInputLayout_offsets_witness :
  exists inputLayout,
    GenerateInputLayout demo_size (fun t => t) demo_vertex_pass = Some inputLayout
    /\ length inputLayout = 3%nat
    /\ forall (i : nat) (field : VertAttrField DemoType),
         [ MkVertAttrField Float4 11 "POSITION" 0 "pos";
           MkVertAttrField Float2 12 "TEXCOORD" 0 "uv";
           MkVertAttrField Float4 13 "COLOR" 0 "col" ] !! i = Some field ->
         exists desc,
           inputLayout !! i = Some desc
           /\ InputSlot desc = slot_of demo_vertex_pass field
           /\ 0 <= InputSlot desc < 16
           /\ AlignedByteOffset desc
              = to_unsigned
                  (sum_sizes
                     (sizes_in_slot demo_size demo_vertex_pass
                        (slot_of demo_vertex_pass field)
                        (take i [ MkVertAttrField Float4 11 "POSITION" 0 "pos";
                                  MkVertAttrField Float2 12 "TEXCOORD" 0 "uv";
                                  MkVertAttrField Float4 13 "COLOR" 0 "col" ])))
           /\ SemanticName desc = field_semanticName field
           /\ SemanticIndex desc = field_semanticIndex field
           /\ Format desc = field_type field.
Proof.
  eexists. split; [reflexivity|].
  apply (GenerateInputLayout_offsets demo_size (fun t => t) demo_vertex_pass
           (MkVertAttr "VertexIn"
              [ MkVertAttrField Float4 11 "POSITION" 0 "pos";
                MkVertAttrField Float2 12 "TEXCOORD" 0 "uv";
                MkVertAttrField Float4 13 "COLOR" 0 "col" ]
              "struct VertexIn")).
  - reflexivity.
  - reflexivity.
Defined.

End InputLayout.

(** ** dx_lightbaker.cpp : baking modes and bake points *)
Module BakePointFacts.

Import Binary32 LightBaker.

(** X18.  [StrToBakingMode] is the inverse of [BakingModeToStr]: a string
    is converted to a mode exactly when it is that mode's entry of
    [LightBakingMode_Str], and every other string fails the assertion. *)
Theorem StrToBakingMode_inverts_BakingModeToStr (str : string)
    (mode : LightBakingMode) :
  StrToBakingMode str = Some mode <-> str = BakingModeToStr mode.
Proof.
  split.
  - unfold StrToBakingMode, LightBakingMode_Str. cbn [find_mode_index].
    destruct (decide (str = "AllCluster")) as [->|_].
    + simpl. intros [= <-]. reflexivity.
    + destruct (decide (str = "CurrentPositionCluster")) as [->|_].
      * simpl. intros [= <-]. reflexivity.
      * simpl. discriminate.
  - intros ->. by destruct mode.
Qed.

Section Grid.

#[local] Open Scope Q_scope.

Variable GetClusterAABB : Z -> AABB.
Variable PATH_TRACING_EPSILON : Q.



Lemma length_bind_const {A B} (f : A -> list B) (l : list A) (n : nat) :
  (forall a, a ∈ l -> length (f a) = n) ->
  length (l ≫= f) = (length l * n)%nat.
Proof.
  induction l as [|a l IH]; intros Hf; [reflexivity|].
  cbn. rewrite length_app, IH, Hf.
  - lia.
  - apply elem_of_cons. by left.
  - intros b Hb. apply Hf. apply elem_of_cons. by right.
Qed.


(** X20.  The number of bake points that [GenerateClusterBakePoints]
    returns is the product of the three counts along the axes, a count that
    is not positive standing for no point. *)
Theorem GenerateClusterBakePoints_count (clusterIndex : Z)
    (bakePoints : list (XMFLOAT4 Q)) :
  GenerateClusterBakePoints GetClusterAABB PATH_TRACING_EPSILON clusterIndex
  = Some bakePoints ->
  let clusterAABB := GetClusterAABB clusterIndex in
  let count (coord : XMFLOAT4 Q -> Q) :=
    Z.to_nat (axisNum (fadd (coord (minVert clusterAABB))
                            PATH_TRACING_EPSILON)
                      (fsub (coord (maxVert clusterAABB))
                            PATH_TRACING_EPSILON)) in
  length bakePoints = (count xm_x * (count xm_y * count xm_z))%nat.
Proof.
  unfold GenerateClusterBakePoints. cbv zeta. cbn [xm_x xm_y xm_z xm_w].
  intros H. destruct (reserve_throws _); [discriminate|].
  apply (inj Some) in H. subst bakePoints.
  set (ny := axisNum (fadd (xm_y (minVert (GetClusterAABB clusterIndex)))
                           PATH_TRACING_EPSILON)
                     (fsub (xm_y (maxVert (GetClusterAABB clusterIndex)))
                           PATH_TRACING_EPSILON)).
  set (nz := axisNum (fadd (xm_z (minVert (GetClusterAABB clusterIndex)))
                           PATH_TRACING_EPSILON)
                     (fsub (xm_z (maxVert (GetClusterAABB clusterIndex)))
                           PATH_TRACING_EPSILON)).
  rewrite (length_bind_const _ _ (Z.to_nat ny * Z.to_nat nz)).
  - by rewrite length_seqZ.
  - intros xIteration _.
    rewrite (length_bind_const _ _ (Z.to_nat nz)).
    + by rewrite length_seqZ.
    + intros yIteration _.
      rewrite (length_bind_const _ _ 1%nat).
      * rewrite length_seqZ. lia.
      * done.
Qed.

End Grid.


Lemma GenerateClusterBakePoints_count_witness :
  exists bakePoints,
    GenerateClusterBakePoints demo_AABB demo_epsilon 0 = Some bakePoints
    /\ length bakePoints = 3%nat.
Proof.
  eexists. split; [vm_compute; reflexivity|].
  pose proof (fun bakePoints =>
                GenerateClusterBakePoints_count demo_AABB demo_epsilon 0
                  bakePoints) as Hcount.
  cbv zeta beta in Hcount. rewrite (Hcount _ ltac:(vm_compute; reflexivity)).
  vm_compute. reflexivity.
Defined.

End BakePointFacts.

(** ** dx_lightbaker.cpp : light sampling *)
Module LightSamplingFacts.

Import LightBaker.

#[local] Open Scope R_scope.


(** The sum of the base radiance [color * intensity] of the point lights. *)
Definition total_base_radiance (pointLights : list PointLight) : XMVECTOR :=
  foldl (fun sum light =>
           XMVectorAdd sum (XMVectorScale (color light) (intensity light)))
        XMVectorZero pointLights.

(** A generator for the examples that always draws 1/2, in a level where
    every ray hits a floor with the normal (0, 0, 1) and no light is
    gathered. *)
Definition demo_env : PathTraceEnv :=
  MkPathTraceEnv unit (fun rng => (1 / 2, rng)) 2 (1 / 2) 0 false false
    unit unit unit (fun _ => 1) (fun _ => Some tt)
    (fun _ _ rng => (XMVectorZero, tt, rng))
    (fun _ => MkXMFLOAT4 0 0 1 0) (MkXMFLOAT4 0 0 1 0)
    (fun _ _ => tt) (fun v _ => v).


(** A point light 500 units above the origin, with the radius 100. *)
Definition demo_lamp : PointLight :=
  MkPointLight (MkXMFLOAT4 0 0 500 1) (MkXMFLOAT4 1 1 1 0) 1 100.

Definition demo_floor_point : XMFLOAT4 R := MkXMFLOAT4 0 0 0 1.
Definition demo_floor_normal : XMFLOAT4 R := MkXMFLOAT4 0 0 1 0.

(** *** Barycentric coordinates and the triangle search *)




Lemma find_triangle_from (pdf : list R) (sampleZ back : R) (start : nat) :
  last pdf = Some back -> sampleZ <= back ->
  exists (i : nat) (p : R),
    find_triangle pdf sampleZ start = Some (start + i)%nat
    /\ pdf !! i = Some p /\ sampleZ <= p
    /\ forall j q, (j < i)%nat -> pdf !! j = Some q -> q < sampleZ.
Proof.
  revert start. induction pdf as [|a tl IH]; intros start Hlast Hle;
    [discriminate|].
  cbn [find_triangle]. destruct (Rge_dec a sampleZ) as [Hge|Hlt].
  - exists 0%nat, a. split; [f_equal; lia|]. split; [done|].
    split; [lra|]. intros j q Hj. lia.
  - destruct tl as [|b tl'].
    + injection Hlast as ->. lra.
    + rewrite last_cons_cons in Hlast.
      destruct (IH (S start) Hlast Hle) as (i & p & Hf & Hp & Hz & Hbefore).
      exists (S i), p. split; [rewrite Hf; f_equal; lia|].
      split; [done|]. split; [done|].
      intros [|j] q Hj Hq.
      * injection Hq as <-. lra.
      * apply (Hbefore j); [lia|done].
Qed.

(** X22.  On a cumulative distribution whose last entry is at least the
    random number [sample.z] (it is 1 for the distributions the lights
    carry), the search for the triangle always finds one: the first entry
    that reaches [sample.z], every earlier entry being smaller. *)
Theorem find_triangle_finds_first (pdf : list R) (sampleZ back : R) :
  last pdf = Some back -> sampleZ <= back ->
  exists (i : nat) (p : R),
    find_triangle pdf sampleZ 0 = Some i
    /\ pdf !! i = Some p /\ sampleZ <= p
    /\ forall j q, (j < i)%nat -> pdf !! j = Some q -> q < sampleZ.
Proof. intros Hlast Hle. exact (find_triangle_from pdf sampleZ back 0 Hlast Hle). Qed.

Lemma find_triangle_finds_first_witness :
  exists (i : nat) (p : R),
    find_triangle [1 / 4; 1] (1 / 2) 0 = Some i
    /\ [1 / 4; 1] !! i = Some p /\ 1 / 2 <= p
    /\ forall j q, (j < i)%nat -> [1 / 4; 1] !! j = Some q -> q < 1 / 2.
Proof.
  apply (find_triangle_finds_first [1 / 4; 1] (1 / 2) 1); [reflexivity|lra].
Defined.

(** *** Bounds on the gathered light *)

Lemma energy_conserved_add (a b sample base : XMVECTOR) :
  energy_conserved a b -> energy_conserved sample base ->
  energy_conserved (XMVectorAdd a sample) (XMVectorAdd b base).
Proof.
  unfold energy_conserved, XMVectorAdd. cbn [xm_x xm_y xm_z].
  intros (Hx & Hy & Hz) (Sx & Sy & Sz). repeat split; lra.
Qed.

Lemma energy_conserved_skip (a b base : XMVECTOR) :
  energy_conserved a b -> nonnegative_rgb base ->
  energy_conserved a (XMVectorAdd b base).
Proof.
  unfold energy_conserved, nonnegative_rgb, XMVectorAdd. cbn [xm_x xm_y xm_z].
  intros (Hx & Hy & Hz) (Sx & Sy & Sz). repeat split; lra.
Qed.

Lemma base_radiance_nonneg (light : PointLight) :
  nonnegative_rgb (color light) -> 0 <= intensity light ->
  nonnegative_rgb (XMVectorScale (color light) (intensity light)).
Proof.
  unfold nonnegative_rgb, XMVectorScale. cbn [xm_x xm_y xm_z].
  intros (Hx & Hy & Hz) Hi. repeat split; nra.
Qed.

(** X23.  With nonnegative light colours, intensities and radii, every
    colour channel of the irradiance that
    [GatherDirectIrradianceFromPointLights] returns lies between 0 and the
    sum of the base radiance [color * intensity] of all point lights. *)
Theorem point_lights_irradiance_bounded
    (visible : XMFLOAT4 R -> XMFLOAT4 R -> bool) (maxDistance : R)
    (pointLights : list PointLight) (intersectionPoint rawNormal : XMFLOAT4 R) :
  (forall light, light ∈ pointLights ->
     nonnegative_rgb (color light) /\ 0 <= intensity light
     /\ 0 <= radius light) ->
  energy_conserved
    (GatherDirectIrradianceFromPointLights visible maxDistance pointLights
       intersectionPoint (XMVector3Normalize rawNormal))
    (total_base_radiance pointLights).
Proof.
  unfold GatherDirectIrradianceFromPointLights, total_base_radiance.
  assert (H0 : energy_conserved XMVectorZero XMVectorZero).
  { unfold energy_conserved, XMVectorZero. cbn. lra. }
  revert H0. generalize XMVectorZero at 1 3. generalize XMVectorZero.
  induction pointLights as [|light rest IH]; intros b a Hab Hall; [done|].
  cbn [foldl].
  destruct (Hall light ltac:(apply elem_of_cons; by left)) as (Hc & Hi & Hr).
  apply IH.
  - destruct (point_light_sample visible maxDistance intersectionPoint
                (XMVector3Normalize rawNormal) light) as [[sample base]|]
      eqn:Hs.
    + pose proof (point_light_sample_conserves_energy _ _ _ _ _ _ _
                    Hc Hi Hr Hs) as He.
      assert (base = XMVectorScale (color light) (intensity light)) as ->.
      { unfold point_light_sample in Hs. cbv zeta in Hs.
        repeat match type of Hs with
               | (if ?c then _ else _) = _ => destruct c; [discriminate|]
               end.
        by injection Hs as _ <-. }
      by apply energy_conserved_add.
    + apply energy_conserved_skip; [done|]. by apply base_radiance_nonneg.
  - intros l Hl. apply Hall. apply elem_of_cons. by right.
Qed.

Lemma point_lights_irradiance_bounded_witness :
  energy_conserved
    (GatherDirectIrradianceFromPointLights (fun _ _ => true) 1000
       [demo_lamp] demo_floor_point (XMVector3Normalize demo_floor_normal))
    (total_base_radiance [demo_lamp]).
Proof.
  apply (point_lights_irradiance_bounded (fun _ _ => true) 1000 [demo_lamp]
           demo_floor_point demo_floor_normal).
  intros light Hl. apply list_elem_of_singleton in Hl as ->.
  unfold nonnegative_rgb, demo_lamp. cbn. lra.
Defined.




(** *** The sample generators *)

Section Samplers.

Context `{env : PathTraceEnv}.

(** X25.  With the first random number in [0, 1],
    [GenerateUniformSphereSample] returns a direction of length 1 (the sum
    of the squares of x, y and z is 1) with [w] = 0. *)
Theorem GenerateUniformSphereSample_unit (rng : Rng) :
  0 <= fst (GenerateNormalizedUniformDistributioSample rng) <= 1 ->
  XMVector3Dot (fst (GenerateUniformSphereSample rng))
               (fst (GenerateUniformSphereSample rng)) = 1
  /\ xm_w (fst (GenerateUniformSphereSample rng)) = 0.
Proof.
  unfold GenerateUniformSphereSample. intros Hu.
  destruct (GenerateNormalizedUniformDistributioSample rng)
    as [randNum1 rng1].
  destruct (GenerateNormalizedUniformDistributioSample rng1)
    as [randNum2 rng2].
  cbn [fst] in *. unfold XMVector3Dot. cbn [xm_x xm_y xm_z xm_w].
  split; [|reflexivity].
  set (z := 1 - 2 * randNum1).
  assert (Hz : 0 <= 1 - z * z) by (unfold z; nra).
  pose proof (sqrt_sqrt _ Hz) as Hs.
  pose proof (sin2_cos2 (2 * PI * randNum2)) as Hsc.
  unfold Rsqr in Hsc.
  set (s := sqrt (1 - z * z)) in *.
  set (sn := sin (2 * PI * randNum2)) in *.
  set (cs := cos (2 * PI * randNum2)) in *.
  replace (cs * s * (cs * s) + sn * s * (sn * s) + z * z)
    with ((sn * sn + cs * cs) * (s * s) + z * z) by ring.
  rewrite Hsc, Hs. ring.
Qed.

(** The disk sample has the radius of the larger of the two numbers. *)
Lemma GenerateConcentricDiskSample_radius (rng : Rng) :
  let sample := fst (GenerateConcentricDiskSample rng) in
  let randNum1 := 2 * fst (GenerateNormalizedUniformDistributioSample rng) - 1 in
  let randNum2 :=
    2 * fst (GenerateNormalizedUniformDistributioSample
               (snd (GenerateNormalizedUniformDistributioSample rng))) - 1 in
  xm_x sample * xm_x sample + xm_y sample * xm_y sample
  = Rmax (Rabs randNum1) (Rabs randNum2) ^ 2
  /\ xm_z sample = 0 /\ xm_w sample = 0.
Proof.
  unfold GenerateConcentricDiskSample.
  destruct (GenerateNormalizedUniformDistributioSample rng) as [u1 rng1].
  cbn [fst snd].
  destruct (GenerateNormalizedUniformDistributioSample rng1) as [u2 rng2].
  cbn [fst snd]. cbv zeta.
  set (a := 2 * u1 - 1). set (b := 2 * u2 - 1).
  assert (Hpolar : forall r theta,
            r * cos theta * (r * cos theta) + r * sin theta * (r * sin theta)
            = r * r).
  { intros r theta. pose proof (sin2_cos2 theta) as Hsc. unfold Rsqr in Hsc.
    replace (r * cos theta * (r * cos theta)
             + r * sin theta * (r * sin theta))
      with (r * r * (sin theta * sin theta + cos theta * cos theta)) by ring.
    rewrite Hsc. ring. }
  assert (Habs : forall r, Rabs r ^ 2 = r * r).
  { intros r. rewrite <- Rsqr_pow2, <- Rsqr_abs. reflexivity. }
  destruct (Req_dec_T a 0) as [Ha|Ha].
  - destruct (Req_dec_T b 0) as [Hb|Hb]; cbn [fst xm_x xm_y xm_z xm_w].
    + rewrite Ha, Hb, Rabs_R0, Rmax_left by lra.
      repeat split; ring.
    + rewrite Hpolar, Ha, Rabs_R0, Rmax_right by apply Rabs_pos.
      by rewrite Habs.
  - destruct (Rgt_dec (Rabs a) (Rabs b)) as [Hgt|Hle];
      cbn [fst xm_x xm_y xm_z xm_w]; rewrite Hpolar.
    + rewrite Rmax_left by lra. by rewrite Habs.
    + rewrite Rmax_right by lra. by rewrite Habs.
Qed.

(** X26.  With both random numbers in [0, 1], [GenerateCosineWeightedSample]
    returns a direction of length 1 in the upper hemisphere: the sum of the
    squares of x, y and z is 1 and z is not negative. *)
Theorem GenerateCosineWeightedSample_unit (rng : Rng) :
  0 <= fst (GenerateNormalizedUniformDistributioSample rng) <= 1 ->
  0 <= fst (GenerateNormalizedUniformDistributioSample
              (snd (GenerateNormalizedUniformDistributioSample rng))) <= 1 ->
  XMVector3Dot (fst (GenerateCosineWeightedSample rng))
               (fst (GenerateCosineWeightedSample rng)) = 1
  /\ 0 <= xm_z (fst (GenerateCosineWeightedSample rng)).
Proof.
  intros Hu1 Hu2.
  pose proof (GenerateConcentricDiskSample_radius rng) as Hdisk.
  cbv zeta in Hdisk. destruct Hdisk as (Hr & _ & _).
  unfold GenerateCosineWeightedSample.
  destruct (GenerateConcentricDiskSample rng) as [sample rng'].
  cbn [fst] in *. unfold XMVector3Dot. cbn [xm_x xm_y xm_z].
  set (a := 2 * fst (GenerateNormalizedUniformDistributioSample rng) - 1)
    in *.
  set (b := 2 * fst (GenerateNormalizedUniformDistributioSample
                       (snd (GenerateNormalizedUniformDistributioSample rng)))
            - 1) in *.
  assert (Hm : 0 <= Rmax (Rabs a) (Rabs b) <= 1).
  { split.
    - eapply Rle_trans; [apply Rabs_pos|apply Rmax_l].
    - apply Rmax_lub; apply Rabs_le; unfold a, b; lra. }
  assert (Hsq : xm_x sample * xm_x sample + xm_y sample * xm_y sample <= 1)
    by (rewrite Hr; nra).
  assert (Hsq0 : 0 <= xm_x sample * xm_x sample + xm_y sample * xm_y sample)
    by nra.
  rewrite Rmax_right by lra.
  split; [|apply sqrt_pos].
  rewrite sqrt_sqrt by lra. ring.
Qed.


End Samplers.


Lemma GenerateUniformSphereSample_unit_witness :
  XMVector3Dot (fst (GenerateUniformSphereSample (env := demo_env) tt))
               (fst (GenerateUniformSphereSample (env := demo_env) tt)) = 1
  /\ xm_w (fst (GenerateUniformSphereSample (env := demo_env) tt)) = 0.
Proof.
  apply (GenerateUniformSphereSample_unit (env := demo_env) tt).
  cbn. lra.
Defined.

Lemma GenerateCosineWeightedSample_unit_witness :
  XMVector3Dot (fst (GenerateCosineWeightedSample (env := demo_env) tt))
               (fst (GenerateCosineWeightedSample (env := demo_env) tt)) = 1
  /\ 0 <= xm_z (fst (GenerateCosineWeightedSample (env := demo_env) tt)).
Proof.
  apply (GenerateCosineWeightedSample_unit (env := demo_env) tt);
    cbn; lra.
Defined.



End LightSamplingFacts.
